(** * pyincpp::Int — arbitrary-precision signed integers (Int.hpp)

    A shallow embedding of the [Int] class of [src/sources/Int.hpp] and the
    proofs of the properties its specification states.

    Conventions of the embedding.
    - [std::vector<signed char>] is a [list Z], least-significant digit
      first; every store into a [signed char] goes through [sc], the
      wrap-around of an 8-bit two's-complement cell.  [int] values are [Z]
      with the 32-bit wrap-around [wrap32] where the source can overflow.
    - Vector sizes and loop indices are [nat]: vectors longer than
      [INT_MAX] digits are outside the model.
    - Reading a vector outside its bounds is undefined in C++; the model
      reads [0] there ([get]) and a store outside the bounds leaves the
      vector unchanged (stdpp's list insert).
    - [throw std::runtime_error(msg)] is [Throw e] where [e] is the error
      kind of the message.
    - [while] loops whose trip count is not a vector size take an iteration
      budget: the loop yields [OutOfFuel] exactly when its body would have to
      run more often than the budget allows. *)

From Stdlib Require Import ZArith Lia Ascii String.
From stdpp Require Import base numbers list.

Local Open Scope Z_scope.

(** ** Machine arithmetic and control structure *)

(** A store into a [signed char]. *)
Definition sc (z : Z) : Z := (z + 128) `mod` 256 - 128.

(** A store into an [int]. *)
Definition wrap32 (z : Z) : Z := (z + 2 ^ 31) `mod` 2 ^ 32 - 2 ^ 31.

Definition INT_MIN : Z := - 2 ^ 31.
Definition INT_MAX : Z := 2 ^ 31 - 1.

(** [v[i]] as an rvalue. *)
Definition get (v : list Z) (i : nat) : Z := default 0 (v !! i).

(** [for (int i = 0; i < n; i++) s = body i s]. *)
Definition for_loop {S : Type} (n : nat) (body : nat → S → S) (s : S) : S :=
  fold_left (λ s i, body i s) (seq 0 n) s.

(** Exceptions, by the message of the [std::runtime_error] thrown. *)
Inductive exn : Type :=
  | InvalidLiteral   (* "Error: Wrong integer literal." *)
  | DivideByZero     (* "Error: Divide by zero." *)
  | DomainError      (* "Error: Math domain error." and the factorial and
                        square-root messages *)
  | InvalidArgument. (* "Error: `digits` must be a non-negative integer ..." *)

Inductive res (A : Type) : Type :=
  | Ok (a : A)
  | Throw (e : exn)
  | OutOfFuel.
Global Arguments Ok {A} a.
Global Arguments Throw {A} e.
Global Arguments OutOfFuel {A}.

Global Instance res_ret : MRet res := λ _ a, Ok a.
Global Instance res_bind : MBind res := λ _ _ k m,
  match m with
  | Ok a => k a
  | Throw e => Throw e
  | OutOfFuel => OutOfFuel
  end.

(** ** The data model *)

Record Int : Type := mkInt {
  digits_ : list Z;   (* base 10, little endian *)
  sign_ : Z           (* 1 positive, -1 negative, 0 zero *)
}.

(** [Int()]: the default member initialisers. *)
Definition Int_zero : Int := mkInt [] 0.

(** ** Private helpers *)

Fixpoint skip_zeros (r : list Z) : list Z :=
  match r with
  | d :: r' => if d =? 0 then skip_zeros r' else r
  | [] => []
  end.

(** [remove_leading_zeros]: walk the reverse iterator over the zeros at the
    most-significant end and erase them. *)
Definition remove_leading_zeros (ds : list Z) : list Z :=
  rev (skip_zeros (rev ds)).

(** [add_leading_zeros(n)]: [digits_.resize(digits_.size() + n, 0)]. *)
Definition add_leading_zeros (n : nat) (ds : list Z) : list Z :=
  ds ++ replicate n 0.

(** [while (digits_[i] == v) ++i;] from [i = 0]: the index it stops at. *)
Fixpoint skip_run (v : Z) (ds : list Z) : nat :=
  match ds with
  | d :: ds' => if d =? v then S (skip_run v ds') else O
  | [] => O
  end.

(** [while (i != 0) digits_[--i] = v;]. *)
Fixpoint fill_below (i : nat) (v : Z) (ds : list Z) : list Z :=
  match i with
  | O => ds
  | S j => fill_below j v (<[j := v]> ds)
  end.

(** [abs_inc] (requires [this != 0]); the sign is kept. *)
Definition abs_inc (x : Int) : Int :=
  let ds := digits_ x ++ [0] in
  let i := skip_run 9 ds in
  let ds := <[i := sc (get ds i + 1)]> ds in
  let ds := fill_below i 0 ds in
  mkInt (remove_leading_zeros ds) (sign_ x).

(** [abs_dec] (requires [this != 0]). *)
Definition abs_dec (x : Int) : Int :=
  let ds := digits_ x in
  let i := skip_run 0 ds in
  let ds := <[i := sc (get ds i - 1)]> ds in
  let ds := fill_below i 9 ds in
  let ds := remove_leading_zeros ds in
  mkInt ds (if bool_decide (ds = []) then 0 else sign_ x).

(** ** Text: literals and rendering *)

(** The value of a [char] (signed, as on the usual targets). *)
Definition char_val (c : ascii) : Z :=
  let n := Z.of_nat (nat_of_ascii c) in if n <? 128 then n else n - 256.

(** [char(z)]. *)
Definition to_char (z : Z) : ascii := ascii_of_nat (Z.to_nat (z `mod` 256)).

(** [chars[i]] of a null-terminated buffer holding [chars]. *)
Definition char_at (chars : list ascii) (i : nat) : Z :=
  char_val (nth i chars zero).

(** [std::strlen]. *)
Fixpoint strlen (chars : list ascii) : nat :=
  match chars with
  | c :: r => if char_val c =? 0 then O else S (strlen r)
  | [] => O
  end.

Definition c_plus : Z := 43.   (* '+' *)
Definition c_minus : Z := 45.  (* '-' *)
Definition c_0 : Z := 48.      (* '0' *)
Definition c_9 : Z := 57.      (* '9' *)

Definition is_integer (chars : list ascii) (len : nat) : bool :=
  let c0 := char_at chars 0 in
  if (len =? 0)%nat || ((len =? 1)%nat && ((c0 =? c_plus) || (c0 =? c_minus)))
  then false
  else
    let s := if (c0 =? c_plus) || (c0 =? c_minus) then 1%nat else 0%nat in
    forallb (λ i, negb ((char_at chars i <? c_0) || (char_at chars i >? c_9)))
            (seq s (len - s)).

(** The constructor from null-terminated characters, [Int(chars)]. *)
Definition Int_of_chars (chars : list ascii) : res Int :=
  let len := strlen chars in
  if negb (is_integer chars len) then Throw InvalidLiteral
  else
    let c0 := char_at chars 0 in
    let sign := if c0 =? c_minus then -1 else 1 in
    let s := if (c0 =? c_minus) || (c0 =? c_plus) then 1%nat else 0%nat in
    let digit_len := (len - s)%nat in
    let ds :=
      for_loop digit_len
        (λ i ds, <[i := sc (char_at chars (len - 1 - i) - c_0)]> ds)
        (replicate digit_len 0) in
    let ds := remove_leading_zeros ds in
    Ok (mkInt ds (if bool_decide (ds = []) then 0 else sign)).

(** [operator<<]: the characters written to the stream. *)
Definition to_chars (x : Int) : list ascii :=
  if sign_ x =? 0 then [to_char c_0]
  else
    (if sign_ x =? -1 then [to_char c_minus] else [])
      ++ map (λ d, to_char (d + c_0)) (rev (digits_ x)).

(** ** Construction from [int] *)

(** [while (integer > 0) { digits_.push_back(integer % 10); integer /= 10; }]
    An [int] has 32 bits and every division by ten removes at least one, so
    the loop is unrolled at most [int_bits] times (see
    [push_digits_exhausted]). *)
Definition int_bits : nat := 32.

Fixpoint push_digits (n : nat) (integer : Z) (ds : list Z) : list Z :=
  match n with
  | O => ds
  | S n' =>
      if integer >? 0
      then push_digits n' (integer `quot` 10) (ds ++ [sc (integer `rem` 10)])
      else ds
  end.

(** [Int(int)].  [std::abs] negates in [int]: on [INT_MIN] the negation
    wraps around. *)
Definition Int_of_int (integer : Z) : Int :=
  if integer =? 0 then Int_zero
  else
    let sign := if integer >? 0 then 1 else -1 in
    let integer := wrap32 (Z.abs integer) in
    mkInt (push_digits int_bits integer []) sign.

(** ** Comparison *)

(** [operator==]. *)
Definition Int_eqb (x y : Int) : bool :=
  (sign_ x =? sign_ y) && bool_decide (digits_ x = digits_ y).

(** The digit loop of [operator<=>], from index [n - 1] down to 0. *)
Fixpoint cmp_digits (n : nat) (s : Z) (a b : list Z) : Z :=
  match n with
  | O => 0
  | S i =>
      if negb (get a i =? get b i)
      then if s =? 1
           then (if get a i >? get b i then 1 else -1)
           else (if get a i >? get b i then -1 else 1)
      else cmp_digits i s a b
  end.

(** [operator<=>]: 1 greater, -1 less, 0 equal. *)
Definition Int_cmp (x y : Int) : Z :=
  if negb (sign_ x =? sign_ y)
  then
    if sign_ x =? 1 then 1
    else if sign_ x =? -1 then -1
    else (if sign_ y =? 1 then -1 else 1)
  else if negb (length (digits_ x) =? length (digits_ y))%nat
  then
    if sign_ x =? 1
    then (if (length (digits_ y) <? length (digits_ x))%nat then 1 else -1)
    else (if (length (digits_ y) <? length (digits_ x))%nat then -1 else 1)
  else cmp_digits (length (digits_ x)) (sign_ x) (digits_ x) (digits_ y).

Definition Int_lt (x y : Int) : bool := Int_cmp x y <? 0.
Definition Int_gt (x y : Int) : bool := Int_cmp x y >? 0.
Definition Int_ge (x y : Int) : bool := Int_cmp x y >=? 0.

(** ** Examination *)

Definition digits (x : Int) : nat := length (digits_ x).
Definition is_zero (x : Int) : bool := sign_ x =? 0.
Definition is_positive (x : Int) : bool := sign_ x =? 1.
Definition is_negative (x : Int) : bool := sign_ x =? -1.
Definition is_even (x : Int) : bool :=
  if is_zero x then true else Z.land (get (digits_ x) 0) 1 =? 0.
Definition is_odd (x : Int) : bool :=
  if is_zero x then false else Z.land (get (digits_ x) 0) 1 =? 1.

(** ** Increment and decrement *)

(** [operator++]. *)
Definition Int_inc (x : Int) : Int :=
  if sign_ x =? 0 then mkInt (digits_ x ++ [1]) 1
  else if sign_ x =? 1 then abs_inc x else abs_dec x.

(** [operator--]. *)
Definition Int_dec (x : Int) : Int :=
  if sign_ x =? 0 then mkInt (digits_ x ++ [1]) (-1)
  else if sign_ x =? 1 then abs_dec x else abs_inc x.

(** ** Negation and absolute value *)

(** Unary [operator-]. *)
Definition Int_neg (x : Int) : Int := mkInt (digits_ x) (sc (- sign_ x)).

Definition Int_abs (x : Int) : Int := if sign_ x =? -1 then Int_neg x else x.

(** ** Addition and subtraction *)

(** One column of the vertical addition:
    [c[i] += a[i] + b[i]; c[i + 1] = c[i] / 10; c[i] %= 10;]. *)
Definition add_step (a b : list Z) (i : nat) (c : list Z) : list Z :=
  let c := <[i := sc (get c i + (get a i + get b i))]> c in
  let c := <[S i := sc (get c i `quot` 10)]> c in
  <[i := sc (get c i `rem` 10)]> c.

(** [operator+] once both operands have the same, non-zero sign. *)
Definition add_vertical (x y : Int) : Int :=
  let size := (length (digits_ x) `max` length (digits_ y) + 1)%nat in
  let a := add_leading_zeros (size - 1 - length (digits_ x)) (digits_ x) in
  let b := add_leading_zeros (size - 1 - length (digits_ y)) (digits_ y) in
  let c := add_leading_zeros size [] in
  let c := for_loop (size - 1) (add_step a b) c in
  mkInt (remove_leading_zeros c) (sign_ x).

(** One column of the vertical subtraction; the state is [(a, c)]:
    [if (a[i] < b[i]) { a[i + 1]--; a[i] += 10; } c[i] = a[i] - b[i];]. *)
Definition sub_step (b : list Z) (i : nat) (st : list Z * list Z)
  : list Z * list Z :=
  let a := st.1 in
  let a :=
    if get a i <? get b i
    then let a := <[S i := sc (get a (S i) - 1)]> a in
         <[i := sc (get a i + 10)]> a
    else a in
  (a, <[i := sc (get a i - get b i)]> st.2).

(** [operator-] once both operands have the same, non-zero sign. *)
Definition sub_vertical (x y : Int) : Int :=
  let size := (length (digits_ x) `max` length (digits_ y))%nat in
  let num1 :=
    mkInt (add_leading_zeros (size - length (digits_ x)) (digits_ x)) (sign_ x) in
  let num2 :=
    mkInt (add_leading_zeros (size - length (digits_ y)) (digits_ y)) (sign_ y) in
  let swap := if sign_ x =? 1 then Int_lt num1 num2 else Int_gt num1 num2 in
  let a := digits_ (if swap then num2 else num1) in
  let b := digits_ (if swap then num1 else num2) in
  let sign := if swap then sc (- sign_ x) else sign_ x in
  let c := add_leading_zeros size [] in
  let c := (for_loop size (sub_step b) (a, c)).2 in
  let c := remove_leading_zeros c in
  mkInt c (if bool_decide (c = []) then 0 else sign).

(** [operator+].  With operands of opposite signs the source calls
    [operator-] on operands whose signs are then equal and non-zero, which
    takes it to the vertical subtraction ([Int_add_unfold] states the
    equation with the call as the source writes it). *)
Definition Int_add (x y : Int) : Int :=
  if (sign_ x =? 0) || (sign_ y =? 0)
  then (if sign_ x =? 0 then y else x)
  else if (sign_ x =? 1) && (sign_ y =? -1) then sub_vertical x (Int_neg y)
  else if (sign_ x =? -1) && (sign_ y =? 1) then sub_vertical y (Int_neg x)
  else add_vertical x y.

(** Binary [operator-]. *)
Definition Int_sub (x y : Int) : Int :=
  if (sign_ x =? 0) || (sign_ y =? 0)
  then (if sign_ x =? 0 then Int_neg y else x)
  else if negb (sign_ x =? sign_ y) then Int_add x (Int_neg y)
  else sub_vertical x y.

(** ** Multiplication *)

(** [c[i + j] += a[i] * b[j]; c[i + j + 1] += c[i + j] / 10; c[i + j] %= 10;] *)
Definition mul_step (a b : list Z) (i j : nat) (c : list Z) : list Z :=
  let c := <[(i + j)%nat := sc (get c (i + j) + get a i * get b j)]> c in
  let c := <[(i + j + 1)%nat := sc (get c (i + j + 1) + get c (i + j) `quot` 10)]> c in
  <[(i + j)%nat := sc (get c (i + j) `rem` 10)]> c.

(** [operator*]. *)
Definition Int_mul (x y : Int) : Int :=
  if (sign_ x =? 0) || (sign_ y =? 0) then Int_of_int 0
  else
    let size := (length (digits_ x) + length (digits_ y))%nat in
    let a := digits_ x in
    let b := digits_ y in
    let c := add_leading_zeros size [] in
    let c :=
      for_loop (length a)
        (λ i c, for_loop (length b) (λ j c, mul_step a b i j c) c) c in
    mkInt (remove_leading_zeros c) (if sign_ x =? sign_ y then 1 else -1).

(** ** Division and remainder *)

(** [tmp.digits_.erase(tmp.digits_.begin())]. *)
Definition erase_first (tmp : Int) : Int :=
  mkInt (drop 1 (digits_ tmp)) (sign_ tmp).

(** [while (num1 >= tmp) { result.digits_[i]++; num1 -= tmp; }] on the state
    [(num1, result.digits_)], the body running at most [n] times. *)
Fixpoint div_while (n : nat) (i : nat) (tmp : Int) (st : Int * list Z)
  : res (Int * list Z) :=
  if Int_ge st.1 tmp
  then
    match n with
    | O => OutOfFuel
    | S n' =>
        let r := <[i := sc (get st.2 i + 1)]> st.2 in
        div_while n' i tmp (Int_sub st.1 tmp, r)
    end
  else Ok st.

(** The [for (int i = size - 1; i >= 0; i--)] loop of [operator/]; [tmp] is
    carried from one position to the next. *)
Fixpoint div_loop (fuel : nat) (n : nat) (tmp : Int) (st : Int * list Z)
  : res (Int * list Z) :=
  match n with
  | O => Ok st
  | S i =>
      let tmp := erase_first tmp in
      st ← div_while fuel i tmp st;
      div_loop fuel i tmp st
  end.

(** Instrumentation of [div_loop] for the iteration bound: the running
    remainder and the shifted divisor with which the loop enters each
    position, highest position first. *)
Fixpoint div_entries (fuel : nat) (n : nat) (tmp : Int) (st : Int * list Z)
  : list (Int * Int) :=
  match n with
  | O => []
  | S i =>
      let tmp := erase_first tmp in
      (st.1, tmp) ::
        match div_while fuel i tmp st with
        | Ok st => div_entries fuel i tmp st
        | _ => []
        end
  end.

(** [operator/]; every inner [while] may run its body [fuel] times. *)
Definition Int_div (fuel : nat) (x y : Int) : res Int :=
  if sign_ y =? 0 then Throw DivideByZero
  else if (digits x <? digits y)%nat then Ok (Int_of_int 0)
  else
    let size := (length (digits_ x) - length (digits_ y) + 1)%nat in
    let num1 := Int_abs x in
    let tmp := mkInt (replicate size 0 ++ digits_ y) 1 in
    let sign := if sign_ x =? sign_ y then 1 else -1 in
    let r := add_leading_zeros size [] in
    st ← div_loop fuel size tmp (num1, r);
    let r := remove_leading_zeros st.2 in
    Ok (mkInt r (if bool_decide (r = []) then 0 else sign)).

(** [while (result >= tmp) { result -= tmp; }]. *)
Fixpoint mod_while (n : nat) (tmp : Int) (result : Int) : res Int :=
  if Int_ge result tmp
  then
    match n with
    | O => OutOfFuel
    | S n' => mod_while n' tmp (Int_sub result tmp)
    end
  else Ok result.

(** The [for] loop of [operator%]. *)
Fixpoint mod_loop (fuel : nat) (n : nat) (tmp : Int) (result : Int) : res Int :=
  match n with
  | O => Ok result
  | S i =>
      let tmp := erase_first tmp in
      result ← mod_while fuel tmp result;
      mod_loop fuel i tmp result
  end.

(** [operator%]. *)
Definition Int_mod (fuel : nat) (x y : Int) : res Int :=
  if sign_ y =? 0 then Throw DivideByZero
  else if (digits x <? digits y)%nat then Ok x
  else
    let size := (length (digits_ x) - length (digits_ y) + 1)%nat in
    let tmp := mkInt (replicate size 0 ++ digits_ y) 1 in
    result ← mod_loop fuel size tmp (Int_abs x);
    let r := remove_leading_zeros (digits_ result) in
    Ok (mkInt r (if bool_decide (r = []) then 0 else sign_ x)).

(** ** Square root, power, gcd and lcm *)

(** [while (cur_sqrt != pre_sqrt) { pre_sqrt = cur_sqrt;
      cur_sqrt = (cur_sqrt + integer / cur_sqrt) / 2; }],
    the body running at most [n] times. *)
Fixpoint sqrt_loop (n : nat) (fuel : nat) (integer cur_sqrt pre_sqrt : Int)
  : res Int :=
  if negb (Int_eqb cur_sqrt pre_sqrt)
  then
    match n with
    | O => OutOfFuel
    | S n' =>
        q ← Int_div fuel integer cur_sqrt;
        cur ← Int_div fuel (Int_add cur_sqrt q) (Int_of_int 2);
        sqrt_loop n' fuel integer cur cur_sqrt
    end
  else Ok cur_sqrt.

(** [Int::sqrt]. *)
Definition Int_sqrt (fuel : nat) (integer : Int) : res Int :=
  if sign_ integer =? -1 then Throw DomainError
  else if is_zero integer then Ok (Int_of_int 0)
  else if Int_lt integer (Int_of_int 4) then Ok (Int_of_int 1)
  else if Int_lt integer (Int_of_int 9) then Ok (Int_of_int 2)
  else if Int_lt integer (Int_of_int 16) then Ok (Int_of_int 3)
  else
    let cur_sqrt := mkInt (replicate (digits integer / 2 - 1) 0 ++ [1]) 1 in
    let pre_sqrt := Int_of_int (-1) in
    sqrt_loop fuel fuel integer cur_sqrt pre_sqrt.

(** The square-and-multiply loop of [Int::pow] on [(num, n, result)]. *)
Fixpoint pow_loop (k : nat) (fuel : nat) (mod_ : Int) (num n result : Int)
  : res Int :=
  if negb (is_zero n)
  then
    match k with
    | O => OutOfFuel
    | S k' =>
        result ←
          (if is_odd n
           then (if is_zero mod_ then Ok (Int_mul result num)
                 else Int_mod fuel (Int_mul result num) mod_)
           else Ok result);
        num ←
          (if is_zero mod_ then Ok (Int_mul num num)
           else Int_mod fuel (Int_mul num num) mod_);
        n ← Int_div fuel n (Int_of_int 2);
        pow_loop k' fuel mod_ num n result
    end
  else Ok result.

(** [Int::pow(base, exp, mod)]; [mod] zero means no modulus. *)
Definition Int_pow (fuel : nat) (base exp mod_ : Int) : res Int :=
  if (digits base =? 1)%nat && (get (digits_ base) 0 =? 1)
  then Ok (if (sign_ base =? -1) && is_odd exp
           then Int_of_int (-1) else Int_of_int 1)
  else if is_negative exp
  then (if is_zero base then Throw DomainError else Ok (Int_of_int 0))
  else pow_loop fuel fuel mod_ base exp (Int_of_int 1).

(** The Euclidean loop of [Int::gcd]:
    [while (!b.is_zero()) { auto t = b; b = a % b; a = t; }]. *)
Fixpoint gcd_loop (n : nat) (fuel : nat) (a b : Int) : res Int :=
  if negb (is_zero b)
  then
    match n with
    | O => OutOfFuel
    | S n' => r ← Int_mod fuel a b; gcd_loop n' fuel b r
    end
  else Ok a.

Definition Int_gcd (fuel : nat) (int1 int2 : Int) : res Int :=
  gcd_loop fuel fuel int1 int2.

Definition Int_lcm (fuel : nat) (int1 int2 : Int) : res Int :=
  if is_zero int1 || is_zero int2 then Ok (Int_of_int 0)
  else
    g ← Int_gcd fuel int1 int2;
    Int_div fuel (Int_mul int1 int2) g.

(** ** Random generation *)

(** [Int::random(digits)].  The draws of the engine are inputs of the model:
    [limit] is the draw from [digits_limit] (made only when [digits] is -1),
    [draw i] the draw from [digit] for the digit at index [i], and [most] the
    draw from [most_digit] (made only when the top digit came out zero). *)
Definition Int_random (digits : Z) (limit : nat) (draw : nat → Z) (most : Z)
  : res Int :=
  if digits <? -1 then Throw InvalidArgument
  else
    let n := if digits =? -1 then limit else Z.to_nat digits in
    let ds := add_leading_zeros n [] in
    let sign := if bool_decide (ds = []) then 0 else 1 in
    let ds := for_loop n (λ i ds, <[i := sc (draw i)]> ds) ds in
    let ds :=
      if negb (bool_decide (ds = [])) && (get ds (length ds - 1) =? 0)
      then <[(length ds - 1)%nat := sc most]> ds
      else ds in
    Ok (mkInt ds sign).

(** ** Hashing *)

Section Hash.

(** [std::hash<signed char>] is implementation-defined. *)
Variable hash_sc : Z → Z.

(** A store into a [std::size_t]. *)
Definition size_t (z : Z) : Z := z `mod` 2 ^ 64.

(** [std::hash<pyincpp::Int>::operator()]. *)
Definition Int_hash (integer : Int) : Z :=
  fold_left (λ value d, Z.lxor value (size_t (Z.shiftl (hash_sc d) 1)))
            (digits_ integer) (size_t (hash_sc (sign_ integer))).

End Hash.

(** ** What a value denotes *)

(** The magnitude a digit vector denotes. *)
Definition dval (ds : list Z) : Z := foldr (λ d acc, d + 10 * acc) 0 ds.

(** The integer an [Int] denotes. *)
Definition value (x : Int) : Z := sign_ x * dval (digits_ x).

Definition digit (d : Z) : Prop := 0 ≤ d ≤ 9.

(** The representation invariant: decimal digits, no zero at the
    most-significant end, and a sign that is zero exactly for the empty
    vector. *)
Definition wf (x : Int) : Prop :=
  Forall digit (digits_ x)
  ∧ last (digits_ x) ≠ Some 0
  ∧ (sign_ x = -1 ∨ sign_ x = 0 ∨ sign_ x = 1)
  ∧ (sign_ x = 0 ↔ digits_ x = []).

Global Instance digit_dec d : Decision (digit d).
Proof. unfold digit. apply _. Defined.

Global Instance wf_dec x : Decision (wf x).
Proof. unfold wf. apply _. Defined.

(** Powers of ten, by the number of digits. *)
Definition pow10 (n : nat) : Z := 10 ^ Z.of_nat n.

(** The shape every producer ends with: strip the zeros at the
    most-significant end, then force the sign of an empty vector to zero. *)
Definition normalised (c : list Z) (s : Z) : Int :=
  mkInt (remove_leading_zeros c)
        (if bool_decide (remove_leading_zeros c = []) then 0 else s).

(** ** The literal grammar and the canonical rendering, as the
       specification words them *)

Definition is_digit_char (c : ascii) : bool :=
  (c_0 <=? char_val c) && (char_val c <=? c_9).

Definition is_sign_char (c : ascii) : bool :=
  (char_val c =? c_plus) || (char_val c =? c_minus).

(** The digits of a literal: what follows the optional sign. *)
Definition literal_body (s : list ascii) : list ascii :=
  match s with
  | c :: r => if is_sign_char c then r else s
  | [] => []
  end.

(** The sign a literal announces. *)
Definition literal_sign (s : list ascii) : Z :=
  match s with
  | c :: _ => if char_val c =? c_minus then -1 else 1
  | [] => 1
  end.

(** A valid literal: an optional single leading [+] or [-], then one or more
    decimal digits and nothing else. *)
Definition valid_literal (s : list ascii) : bool :=
  negb (bool_decide (literal_body s = [])) && forallb is_digit_char (literal_body s).

Fixpoint strip_zeros (s : list ascii) : list ascii :=
  match s with
  | c :: r => if char_val c =? c_0 then strip_zeros r else s
  | [] => []
  end.

(** The normalised canonical form of a valid literal: no [+], no leading
    zeros, ["0"] for zero (of either sign), [-] in front of a negative
    value. *)
Definition canonical (s : list ascii) : list ascii :=
  let ds := strip_zeros (literal_body s) in
  if bool_decide (ds = []) then [to_char c_0]
  else (if literal_sign s =? -1 then [to_char c_minus] else []) ++ ds.

(** The digit a character stands for: [c - '0']. *)
Definition digit_of (c : ascii) : Z := char_val c - c_0.

(** The invariant of the vertical subtraction before column [i], on the
    state [(a', c)] reached from [(a, 0...0)]: the borrows taken so far leave
    the magnitude of [a'] unchanged, the columns below [i] of [c] are
    digits and hold the difference of the columns below [i], and column [i]
    of [a'] has lent at most one. *)
Definition sub_inv (a b : list Z) (n i : nat) (st : list Z * list Z) : Prop :=
  length st.1 = n ∧ length st.2 = n ∧ dval st.1 = dval a
  ∧ (∀ k, (k < i)%nat → digit (get st.2 k))
  ∧ (∀ k, (i ≤ k)%nat → get st.2 k = 0)
  ∧ (∀ k, (i < k)%nat → get st.1 k = get a k)
  ∧ -1 ≤ get st.1 i ≤ 9
  ∧ dval st.2 = dval (take i st.1) - dval (take i b)
  ∧ 0 ≤ dval st.2 < pow10 i.

(** ** The remaining operations of the class *)

(** [to_integer<int>()]: the digits are accumulated from the most
    significant one, in [int] arithmetic. *)
Fixpoint to_integer_loop (n : nat) (ds : list Z) (result : Z) : Z :=
  match n with
  | O => result
  | S i => to_integer_loop i ds (wrap32 (result * 10 + get ds i))
  end.

Definition to_integer (x : Int) : Z :=
  wrap32 (to_integer_loop (length (digits_ x)) (digits_ x) 0 * sign_ x).

(** [for (Int i = *this; i.is_positive(); i.abs_dec()) result *= i;] on
    [(i, result)], the body running at most [n] times. *)
Fixpoint factorial_loop (n : nat) (i result : Int) : res Int :=
  if is_positive i
  then
    match n with
    | O => OutOfFuel
    | S n' => factorial_loop n' (abs_dec i) (Int_mul result i)
    end
  else Ok result.

(** [factorial()]. *)
Definition Int_factorial (fuel : nat) (x : Int) : res Int :=
  if sign_ x =? -1 then Throw DomainError
  else factorial_loop fuel x (Int_of_int 1).

(** [while (!value.is_zero()) { ++result; value /= base; }]. *)
Fixpoint log_loop (n : nat) (fuel : nat) (base value result : Int) : res Int :=
  if negb (is_zero value)
  then
    match n with
    | O => OutOfFuel
    | S n' =>
        value ← Int_div fuel value base;
        log_loop n' fuel base value (Int_inc result)
    end
  else Ok result.

(** [Int::log(integer, base)]; [integer.digits() - 1] is an [int]. *)
Definition Int_log (fuel : nat) (integer base : Int) : res Int :=
  if (sign_ integer <=? 0) || Int_lt base (Int_of_int 2)
  then Throw DomainError
  else if Int_eqb base (Int_of_int 10)
  then Ok (Int_of_int (wrap32 (wrap32 (Z.of_nat (digits integer)) - 1)))
  else
    value ← Int_div fuel integer base;
    log_loop fuel fuel base value Int_zero.

(** The trial division of [next_prime()]:
    [for (int i = 2; i * i <= prime; i++) if (prime % i == 0) { ... break; }],
    returning [is_prime].  With an [int] on its left, [i * i <= prime] is
    [0 <= (prime <=> Int(i * i))]. *)
Fixpoint trial_loop (n : nat) (fuel : nat) (prime : Int) (i : Z) : res bool :=
  if 0 <=? Int_cmp prime (Int_of_int (wrap32 (i * i)))
  then
    match n with
    | O => OutOfFuel
    | S n' =>
        r ← Int_mod fuel prime (Int_of_int i);
        if Int_eqb r (Int_of_int 0) then Ok false
        else trial_loop n' fuel prime (wrap32 (i + 1))
    end
  else Ok true.

(** The [while (true)] loop of [next_prime()], the body running at most [n]
    times. *)
Fixpoint next_prime_loop (n : nat) (fuel : nat) (prime : Int) : res Int :=
  match n with
  | O => OutOfFuel
  | S n' =>
      let prime := abs_inc (abs_inc prime) in
      trial_loop fuel fuel prime 2 ≫= λ is_prime : bool,
      if is_prime then Ok prime else next_prime_loop n' fuel prime
  end.

(** [next_prime()]. *)
Definition Int_next_prime (fuel : nat) (x : Int) : res Int :=
  if Int_lt x (Int_of_int 2) then Ok (Int_of_int 2)
  else
    let prime := if is_even x then abs_dec x else x in
    next_prime_loop fuel fuel prime.

(** The characters a null-terminated buffer holds as a C string. *)
Definition c_str (chars : list ascii) : list ascii := take (strlen chars) chars.

(** The decimal number a run of digit characters writes, most significant
    digit first. *)
Definition decimal (body : list ascii) : Z :=
  fold_left (λ acc c, 10 * acc + digit_of c) body 0.

(** * Proofs *)

(** ** Machine cells, indexing and loops *)

Lemma sc_small z : -128 ≤ z ≤ 127 → sc z = z.
Proof. intros. unfold sc. rewrite Z.mod_small; lia. Qed.

Lemma get_nil i : get [] i = 0.
Proof. by destruct i. Qed.

Lemma get_cons_0 d ds : get (d :: ds) 0 = d.
Proof. done. Qed.

Lemma get_cons_S d ds i : get (d :: ds) (S i) = get ds i.
Proof. done. Qed.

Lemma get_ge ds i : (length ds ≤ i)%nat → get ds i = 0.
Proof. intros. unfold get. by rewrite lookup_ge_None_2. Qed.

Lemma get_insert_eq ds i v : (i < length ds)%nat → get (<[i:=v]> ds) i = v.
Proof. intros. unfold get. by rewrite list_lookup_insert_eq. Qed.

Lemma get_insert_ne ds i k v : i ≠ k → get (<[i:=v]> ds) k = get ds k.
Proof. intros. unfold get. by rewrite list_lookup_insert_ne. Qed.

Lemma get_app_l l1 l2 i : (i < length l1)%nat → get (l1 ++ l2) i = get l1 i.
Proof. intros. unfold get. by rewrite lookup_app_l. Qed.

Lemma get_app_r l1 l2 i :
  (length l1 ≤ i)%nat → get (l1 ++ l2) i = get l2 (i - length l1).
Proof. intros. unfold get. by rewrite lookup_app_r. Qed.

Lemma get_replicate n i : get (replicate n 0) i = 0.
Proof.
  unfold get. destruct (decide (i < n)%nat).
  - by rewrite lookup_replicate_2.
  - rewrite lookup_ge_None_2; [done|]. rewrite length_replicate. lia.
Qed.

Lemma get_digit ds i : Forall digit ds → digit (get ds i).
Proof.
  intros H. unfold get. destruct (ds !! i) eqn:E; simpl.
  - eapply Forall_lookup_1; eauto.
  - unfold digit. lia.
Qed.

Lemma Forall_digit_get ds :
  (∀ k, (k < length ds)%nat → digit (get ds k)) → Forall digit ds.
Proof.
  intros H. apply Forall_lookup_2. intros i d Hi.
  specialize (H i (lookup_lt_Some _ _ _ Hi)). unfold get in H.
  by rewrite Hi in H.
Qed.

Lemma for_loop_S {S : Type} n (body : nat → S → S) s :
  for_loop (Datatypes.S n) body s = body n (for_loop n body s).
Proof. unfold for_loop. by rewrite seq_S, fold_left_app. Qed.

(** The invariant rule of an ascending [for] loop. *)
Lemma for_loop_ind {S : Type} (P : nat → S → Prop) n (body : nat → S → S) s :
  P O s →
  (∀ i s, (i < n)%nat → P i s → P (Datatypes.S i) (body i s)) →
  P n (for_loop n body s).
Proof.
  intros H0 Hstep. induction n as [|n IH]; [done|].
  rewrite for_loop_S. apply Hstep; [lia|]. apply IH.
  intros i s' ? ?. apply Hstep; [lia|done].
Qed.

(** ** Powers of ten and the magnitude of a digit vector *)

Lemma pow10_0 : pow10 0 = 1.
Proof. done. Qed.

Lemma pow10_S n : pow10 (S n) = 10 * pow10 n.
Proof. unfold pow10. rewrite Nat2Z.inj_succ, Z.pow_succ_r; lia. Qed.

Lemma pow10_pos n : 0 < pow10 n.
Proof. unfold pow10. apply Z.pow_pos_nonneg; lia. Qed.

Lemma pow10_add n m : pow10 (n + m) = pow10 n * pow10 m.
Proof. unfold pow10. rewrite Nat2Z.inj_add, Z.pow_add_r; lia. Qed.

Lemma pow10_le n m : (n ≤ m)%nat → pow10 n ≤ pow10 m.
Proof. intros. unfold pow10. apply Z.pow_le_mono_r; lia. Qed.

Lemma dval_nil : dval [] = 0.
Proof. done. Qed.

Lemma dval_cons d ds : dval (d :: ds) = d + 10 * dval ds.
Proof. done. Qed.

Lemma dval_app l1 l2 : dval (l1 ++ l2) = dval l1 + pow10 (length l1) * dval l2.
Proof.
  induction l1 as [|d l1 IH]; simpl length.
  - rewrite pow10_0. simpl. lia.
  - rewrite pow10_S. simpl app. rewrite !dval_cons, IH. lia.
Qed.

Lemma dval_replicate n : dval (replicate n 0) = 0.
Proof. induction n as [|n IH]; [done|]. simpl replicate. rewrite dval_cons. lia. Qed.

Lemma dval_pad ds n : dval (add_leading_zeros n ds) = dval ds.
Proof. unfold add_leading_zeros. rewrite dval_app, dval_replicate. lia. Qed.

Lemma dval_insert ds i v :
  (i < length ds)%nat → dval (<[i:=v]> ds) = dval ds + (v - get ds i) * pow10 i.
Proof.
  revert i. induction ds as [|d ds IH]; intros i Hi; simpl in Hi; [lia|].
  destruct i as [|i].
  - simpl insert. rewrite !dval_cons, get_cons_0, pow10_0. lia.
  - simpl insert. rewrite !dval_cons, get_cons_S, pow10_S, IH by lia. lia.
Qed.

Lemma dval_take_S ds i :
  dval (take (S i) ds) = dval (take i ds) + get ds i * pow10 i.
Proof.
  revert i. induction ds as [|d ds IH]; intros i.
  - rewrite !take_nil, get_nil. simpl. lia.
  - destruct i as [|i].
    + simpl take. rewrite take_0, get_cons_0, pow10_0. simpl. lia.
    + rewrite !firstn_cons, !dval_cons, IH, get_cons_S, pow10_S. lia.
Qed.

Lemma dval_take_all ds n : (length ds ≤ n)%nat → dval (take n ds) = dval ds.
Proof. intros. by rewrite take_ge. Qed.

Lemma dval_bound ds : Forall digit ds → 0 ≤ dval ds < pow10 (length ds).
Proof.
  induction 1 as [|d ds Hd _ IH]; simpl length.
  - rewrite pow10_0. simpl. lia.
  - rewrite dval_cons, pow10_S. unfold digit in Hd. lia.
Qed.

Lemma dval_lower ds :
  Forall digit ds → last ds ≠ Some 0 → ds ≠ [] →
  pow10 (length ds - 1) ≤ dval ds.
Proof.
  induction 1 as [|d ds Hd Hds IH]; intros Hlast Hne; [done|].
  destruct ds as [|d' ds].
  - simpl. rewrite pow10_0. unfold digit in Hd.
    assert (d ≠ 0) by (intros ->; by apply Hlast). lia.
  - rewrite last_cons_cons in Hlast. specialize (IH Hlast ltac:(done)).
    rewrite dval_cons. simpl length in *.
    replace (S (S (length ds)) - 1)%nat with (S (length ds - 0)) by lia.
    rewrite pow10_S. replace (S (length ds) - 1)%nat with (length ds - 0)%nat in IH by lia.
    unfold digit in Hd. lia.
Qed.

Lemma dval_pos ds :
  Forall digit ds → last ds ≠ Some 0 → ds ≠ [] → 0 < dval ds.
Proof.
  intros Hd Hl Hne. pose proof (dval_lower ds Hd Hl Hne).
  pose proof (pow10_pos (length ds - 1)). lia.
Qed.

Lemma dval_nonneg ds : Forall (λ d, 0 ≤ d) ds → 0 ≤ dval ds.
Proof. induction 1; [done|]. rewrite dval_cons. lia. Qed.

Lemma dval_get_le ds k : Forall (λ d, 0 ≤ d) ds → get ds k * pow10 k ≤ dval ds.
Proof.
  intros H. revert k. induction H as [|d ds Hd Hds IH]; intros k.
  - rewrite get_nil. simpl. lia.
  - pose proof (dval_nonneg ds Hds). destruct k as [|k].
    + rewrite get_cons_0, pow10_0, dval_cons. lia.
    + rewrite get_cons_S, pow10_S, dval_cons. specialize (IH k). lia.
Qed.

(** Two normalised digit vectors that denote the same magnitude are the
    same vector. *)
Lemma dval_inj l1 l2 :
  Forall digit l1 → Forall digit l2 →
  last l1 ≠ Some 0 → last l2 ≠ Some 0 →
  dval l1 = dval l2 → l1 = l2.
Proof.
  intros H1. revert l2. induction H1 as [|d1 l1 Hd1 Hl1 IH]; intros l2 H2 N1 N2 E.
  - destruct l2 as [|d2 l2]; [done|].
    pose proof (dval_pos (d2 :: l2) H2 N2 ltac:(done)). simpl in *. lia.
  - destruct H2 as [|d2 l2 Hd2 Hl2].
    + pose proof (dval_pos (d1 :: l1) ltac:(by constructor) N1 ltac:(done)).
      simpl in *. lia.
    + rewrite !dval_cons in E. unfold digit in *.
      assert (d1 = d2 ∧ dval l1 = dval l2) as [-> E'] by lia.
      f_equal. apply IH; [done| | |done].
      * destruct l1; [done|]. by rewrite last_cons_cons in N1.
      * destruct l2; [done|]. by rewrite last_cons_cons in N2.
Qed.

(** ** [remove_leading_zeros] *)

Lemma rlz_nil : remove_leading_zeros [] = [].
Proof. done. Qed.

Lemma rlz_snoc ds d :
  remove_leading_zeros (ds ++ [d]) =
  if d =? 0 then remove_leading_zeros ds else ds ++ [d].
Proof.
  unfold remove_leading_zeros. rewrite rev_app_distr. simpl.
  destruct (d =? 0); [done|]. simpl. by rewrite rev_involutive.
Qed.

Lemma rlz_spec ds :
  ∃ n, ds = remove_leading_zeros ds ++ replicate n 0
       ∧ last (remove_leading_zeros ds) ≠ Some 0.
Proof.
  induction ds as [|d ds IH] using rev_ind.
  - exists O. by rewrite rlz_nil.
  - rewrite rlz_snoc. destruct (Z.eqb_spec d 0) as [->|Hd].
    + destruct IH as (n & E & L). exists (S n). split; [|done].
      rewrite replicate_S_end, app_assoc, <-E. done.
    + exists O. rewrite app_nil_r, last_snoc. split; [done|]. congruence.
Qed.

Lemma rlz_last ds : last (remove_leading_zeros ds) ≠ Some 0.
Proof. by destruct (rlz_spec ds) as (n & _ & ?). Qed.

Lemma rlz_dval ds : dval (remove_leading_zeros ds) = dval ds.
Proof.
  destruct (rlz_spec ds) as (n & E & _). rewrite E at 2.
  rewrite dval_app, dval_replicate. lia.
Qed.

Lemma rlz_Forall (P : Z → Prop) ds :
  Forall P ds → Forall P (remove_leading_zeros ds).
Proof.
  destruct (rlz_spec ds) as (n & E & _). rewrite E at 1.
  rewrite Forall_app. tauto.
Qed.

Lemma rlz_id ds : last ds ≠ Some 0 → remove_leading_zeros ds = ds.
Proof.
  destruct ds as [|d ds _] using rev_ind; [done|].
  rewrite last_snoc, rlz_snoc. intros H.
  destruct (Z.eqb_spec d 0); [congruence|done].
Qed.

Lemma rlz_length ds : (length (remove_leading_zeros ds) ≤ length ds)%nat.
Proof.
  destruct (rlz_spec ds) as (n & E & _). rewrite E at 2.
  rewrite length_app. lia.
Qed.

Lemma rlz_empty ds :
  Forall digit ds → remove_leading_zeros ds = [] ↔ dval ds = 0.
Proof.
  intros H. split.
  - intros E. by rewrite <-rlz_dval, E.
  - intros E. destruct (remove_leading_zeros ds) as [|d l] eqn:El; [done|].
    pose proof (dval_pos (remove_leading_zeros ds) (rlz_Forall _ _ H)
                  (rlz_last ds)) as Hp.
    rewrite rlz_dval, El in Hp. specialize (Hp ltac:(done)). lia.
Qed.

(** ** The invariant and the denotation *)

Lemma wf_dval_pos x : wf x → sign_ x ≠ 0 → 0 < dval (digits_ x).
Proof.
  intros (Hd & Hl & Hs & Hz) Hne. apply dval_pos; [done..|]. by rewrite <-Hz.
Qed.

Lemma wf_sign_sgn x : wf x → sign_ x = Z.sgn (value x).
Proof.
  intros Hx. unfold value. destruct (decide (sign_ x = 0)) as [E|E].
  - rewrite E. done.
  - pose proof (wf_dval_pos x Hx E). destruct Hx as (_ & _ & Hs & _). nia.
Qed.

Lemma wf_abs_value x : wf x → Z.abs (value x) = dval (digits_ x).
Proof.
  intros Hx. unfold value. destruct (decide (sign_ x = 0)) as [E|E].
  - destruct Hx as (_ & _ & _ & Hz). rewrite E. apply Hz in E. by rewrite E.
  - pose proof (wf_dval_pos x Hx E). destruct Hx as (_ & _ & Hs & _). nia.
Qed.

Lemma wf_value_0 x : wf x → value x = 0 ↔ sign_ x = 0.
Proof. intros Hx. rewrite (wf_sign_sgn x Hx). lia. Qed.

(** The representation is canonical: well-formed values that denote the same
    integer are identical. *)
Lemma wf_eq x y : wf x → wf y → value x = value y → x = y.
Proof.
  intros Hx Hy E.
  assert (sign_ x = sign_ y) as Es by (by rewrite (wf_sign_sgn x), (wf_sign_sgn y), E).
  assert (dval (digits_ x) = dval (digits_ y)) as Ed
    by (by rewrite <-(wf_abs_value x), <-(wf_abs_value y), E).
  destruct Hx as (Hdx & Hlx & _), Hy as (Hdy & Hly & _).
  destruct x as [dx sx], y as [dy sy]; simpl in *. f_equal; [|done].
  by apply dval_inj.
Qed.

Lemma wf_zero : wf Int_zero.
Proof. unfold wf. simpl. split_and!; [constructor|done|lia|done]. Qed.

(** The shape every producer ends with: strip the zeros, then force the sign
    of an empty vector to zero. *)
Lemma wf_normalised c s :
  Forall digit c → s = 1 ∨ s = -1 →
  wf (normalised c s) ∧ value (normalised c s) = s * dval c.
Proof.
  intros Hc Hs. unfold normalised, wf, value. simpl.
  pose proof (rlz_Forall digit c Hc). pose proof (rlz_last c).
  pose proof (rlz_empty c Hc) as He. pose proof (rlz_dval c) as Hv.
  case_bool_decide as E.
  - split; [split_and!; [done|done|lia|done]|]. apply He in E. lia.
  - split; [split_and!; [done|done|lia|]|].
    + split; [lia|done].
    + by rewrite Hv.
Qed.

(** The same when the vector is known not to denote zero. *)
Lemma wf_normalised_nz c s :
  Forall digit c → s = 1 ∨ s = -1 → dval c ≠ 0 →
  wf (mkInt (remove_leading_zeros c) s)
  ∧ value (mkInt (remove_leading_zeros c) s) = s * dval c.
Proof.
  intros Hc Hs Hnz. pose proof (wf_normalised c s Hc Hs) as H.
  unfold normalised in H. case_bool_decide as E; [|done].
  apply rlz_empty in E; done.
Qed.

(** ** Comparison *)

Lemma cmp_digits_spec n s a b :
  Forall digit a → Forall digit b →
  cmp_digits n s a b =
  (if s =? 1 then 1 else -1) * Z.sgn (dval (take n a) - dval (take n b)).
Proof.
  intros Ha Hb. induction n as [|n IH].
  - rewrite !take_0. simpl. lia.
  - simpl cmp_digits. rewrite !dval_take_S.
    pose proof (dval_bound (take n a) (Forall_take _ n _ Ha)) as Ba.
    pose proof (dval_bound (take n b) (Forall_take _ n _ Hb)) as Bb.
    pose proof (pow10_le (length (take n a)) n ltac:(rewrite length_take; lia)).
    pose proof (pow10_le (length (take n b)) n ltac:(rewrite length_take; lia)).
    pose proof (pow10_pos n).
    destruct (Z.eqb_spec (get a n) (get b n)) as [E|E]; simpl negb; cbv iota.
    + rewrite IH, E. f_equal. f_equal. lia.
    + destruct (Z.gtb_spec (get a n) (get b n)); destruct (s =? 1); nia.
Qed.

(** [operator<=>] on operands of one sign and one length, normalised or not
    (the subtraction compares its padded operands). *)
Lemma Int_cmp_padded x y :
  Forall digit (digits_ x) → Forall digit (digits_ y) →
  sign_ x = sign_ y → sign_ x = 1 ∨ sign_ x = -1 →
  length (digits_ x) = length (digits_ y) →
  Int_cmp x y = sign_ x * Z.sgn (dval (digits_ x) - dval (digits_ y)).
Proof.
  intros Hx Hy Es Hs El. unfold Int_cmp.
  rewrite Es, Z.eqb_refl, El, Nat.eqb_refl. simpl negb. cbv iota.
  rewrite cmp_digits_spec by done.
  rewrite <-El at 1. rewrite !take_ge by lia.
  rewrite <-Es. destruct Hs as [-> | ->]; simpl; lia.
Qed.

(** [operator<=>] decides the order of the denoted integers. *)
Lemma Int_cmp_spec x y :
  wf x → wf y → Int_cmp x y = Z.sgn (value x - value y).
Proof.
  intros Hx Hy. unfold Int_cmp.
  pose proof (wf_sign_sgn x Hx) as Sx. pose proof (wf_sign_sgn y Hy) as Sy.
  destruct (Z.eqb_spec (sign_ x) (sign_ y)) as [Es|Es]; simpl negb; cbv iota.
  - destruct (decide (sign_ x = 0)) as [E0|E0].
    { assert (digits_ x = []) as Ex by (by apply Hx).
      assert (digits_ y = []) as Ey by (apply Hy; congruence).
      unfold value. rewrite Ex, Ey. simpl. lia. }
    assert (sign_ x = 1 ∨ sign_ x = -1) as Hs by (destruct Hx as (_&_&?&_); lia).
    pose proof (wf_dval_pos x Hx E0) as Px.
    pose proof (wf_dval_pos y Hy ltac:(congruence)) as Py.
    destruct Hx as (Hdx & Hlx & _ & Hzx), Hy as (Hdy & Hly & _ & Hzy).
    destruct (Nat.eqb_spec (length (digits_ x)) (length (digits_ y))) as [El|El];
      simpl negb; cbv iota.
    + rewrite cmp_digits_spec by done. rewrite El at 1. rewrite !take_ge by lia.
      unfold value. rewrite <-Es. destruct Hs as [-> | ->]; simpl; lia.
    + pose proof (dval_bound _ Hdx) as Bx. pose proof (dval_bound _ Hdy) as By.
      pose proof (dval_lower _ Hdx Hlx ltac:(by rewrite <-Hzx)) as Lx.
      pose proof (dval_lower _ Hdy Hly ltac:(rewrite <-Hzy; congruence)) as Ly.
      unfold value. rewrite <-Es.
      destruct (Nat.ltb_spec (length (digits_ y)) (length (digits_ x))) as [Hl|Hl].
      * pose proof (pow10_le (length (digits_ y)) (length (digits_ x) - 1) ltac:(lia)).
        destruct Hs as [-> | ->]; simpl; lia.
      * pose proof (pow10_le (length (digits_ x)) (length (digits_ y) - 1) ltac:(lia)).
        destruct Hs as [-> | ->]; simpl; lia.
  - destruct (Z.eqb_spec (sign_ x) 1) as [E1|E1]; [lia|].
    destruct (Z.eqb_spec (sign_ x) (-1)) as [E2|E2]; [lia|].
    destruct (Z.eqb_spec (sign_ y) 1) as [E3|E3]; [lia|].
    destruct Hx as (_&_&?&_), Hy as (_&_&?&_). lia.
Qed.

Lemma Int_ge_spec x y : wf x → wf y → Int_ge x y = bool_decide (value y ≤ value x).
Proof.
  intros Hx Hy. unfold Int_ge. rewrite Int_cmp_spec by done.
  case_bool_decide; destruct (Z.geb_spec (Z.sgn (value x - value y)) 0); lia.
Qed.

Lemma Int_lt_spec x y : wf x → wf y → Int_lt x y = bool_decide (value x < value y).
Proof.
  intros Hx Hy. unfold Int_lt. rewrite Int_cmp_spec by done.
  case_bool_decide; destruct (Z.ltb_spec (Z.sgn (value x - value y)) 0); lia.
Qed.

Lemma Int_eqb_eq x y : Int_eqb x y = true ↔ x = y.
Proof.
  unfold Int_eqb. rewrite andb_true_iff, Z.eqb_eq, bool_decide_eq_true.
  destruct x, y; simpl. split; [intros [-> ->]; done|]. by intros [= -> ->].
Qed.

(** ** Negation and absolute value *)

Lemma sc_neg_sign s : s = -1 ∨ s = 0 ∨ s = 1 → sc (- s) = - s.
Proof. intros. apply sc_small. lia. Qed.

Lemma Int_neg_spec x : wf x → wf (Int_neg x) ∧ value (Int_neg x) = - value x.
Proof.
  intros (Hd & Hl & Hs & Hz). unfold Int_neg, wf, value. simpl.
  rewrite sc_neg_sign by done. split; [split_and!; [done|done|lia|]|lia].
  rewrite <-Hz. lia.
Qed.

Lemma Int_abs_spec x : wf x → wf (Int_abs x) ∧ value (Int_abs x) = Z.abs (value x).
Proof.
  intros Hx. unfold Int_abs. pose proof (wf_sign_sgn x Hx).
  destruct (Z.eqb_spec (sign_ x) (-1)).
  - destruct (Int_neg_spec x Hx) as [? ->]. split; [done|lia].
  - split; [done|]. destruct Hx as (_&_&?&_). lia.
Qed.

(** ** Vertical addition *)

Ltac getsimpl :=
  repeat first
    [ rewrite length_insert
    | rewrite get_insert_eq by (rewrite ?length_insert; lia)
    | rewrite get_insert_ne by lia ].

Ltac zdiv := Z.quot_rem_to_equations; Z.div_mod_to_equations; lia.

Lemma add_step_spec a b i c :
  (S i < length c)%nat →
  digit (get a i) → digit (get b i) →
  0 ≤ get c i ≤ 1 → get c (S i) = 0 →
  let c' := add_step a b i c in
  length c' = length c
  ∧ digit (get c' i) ∧ 0 ≤ get c' (S i) ≤ 1
  ∧ (∀ k, k ≠ i → k ≠ S i → get c' k = get c k)
  ∧ dval c' = dval c + (get a i + get b i) * pow10 i.
Proof.
  intros Hi Ha Hb Hc Hc' c'. subst c'. unfold add_step, digit in *.
  set (v := get c i + (get a i + get b i)).
  assert (0 ≤ v ≤ 19) as Hv by (unfold v; lia).
  getsimpl. rewrite (sc_small v) by lia.
  rewrite (sc_small (v `quot` 10)) by zdiv.
  rewrite (sc_small (v `rem` 10)) by zdiv.
  split; [done|]. split; [zdiv|]. split; [zdiv|].
  split; [intros; by getsimpl|].
  rewrite !dval_insert by (getsimpl; lia). getsimpl.
  rewrite Hc', pow10_S. assert (v = 10 * (v `quot` 10) + v `rem` 10) by (apply Z.quot_rem'). unfold v in *. nia.
Qed.

Lemma add_loop_spec a b n :
  length a = n → length b = n → Forall digit a → Forall digit b →
  let c := for_loop n (add_step a b) (replicate (S n) 0) in
  length c = S n ∧ Forall digit c ∧ dval c = dval a + dval b.
Proof.
  intros La Lb Ha Hb.
  set (P := λ (i : nat) (c : list Z),
    length c = S n
    ∧ (∀ k, (k < i)%nat → digit (get c k))
    ∧ 0 ≤ get c i ≤ 1
    ∧ (∀ k, (i < k)%nat → get c k = 0)
    ∧ dval c = dval (take i a) + dval (take i b)).
  assert (P n (for_loop n (add_step a b) (replicate (S n) 0))) as HP.
  { apply for_loop_ind.
    - unfold P. rewrite length_replicate, get_replicate, !take_0, dval_replicate.
      split_and!; [done|lia|lia|lia|intros; apply get_replicate|done].
    - intros i c Hi (Hl & Hlo & Hc & Hhi & Hv).
      destruct (add_step_spec a b i c) as (Hl' & Hd & Hc' & Hk & Hv');
        [lia|by apply get_digit|by apply get_digit|done|apply Hhi; lia|].
      unfold P. rewrite !dval_take_S.
      split; [lia|]. split.
      { intros k Hk'. destruct (decide (k = i)) as [->|]; [done|].
        rewrite Hk by lia. apply Hlo. lia. }
      split; [done|]. split; [|lia].
      intros k Hk'. rewrite Hk by lia. apply Hhi. lia. }
  destruct HP as (Hl & Hlo & Hc & _ & Hv). cbv zeta.
  split; [done|]. split.
  - apply Forall_digit_get. intros k Hk.
    destruct (decide (k = n)) as [->|]; [unfold digit; lia|]. apply Hlo. lia.
  - rewrite Hv, !take_ge by lia. done.
Qed.

Lemma add_vertical_spec x y :
  wf x → wf y → sign_ x = sign_ y → sign_ x ≠ 0 →
  wf (add_vertical x y) ∧ value (add_vertical x y) = value x + value y.
Proof.
  intros Hx Hy Es Hs. unfold add_vertical. cbv zeta.
  set (n := (length (digits_ x) `max` length (digits_ y))%nat).
  replace (n + 1 - 1)%nat with n by lia.
  replace (n + 1)%nat with (S n) by lia.
  change (add_leading_zeros (S n) []) with (replicate (S n) 0).
  pose proof (wf_dval_pos x Hx Hs) as Px.
  pose proof (wf_dval_pos y Hy ltac:(congruence)) as Py.
  destruct Hx as (Hdx & _ & Hsx & _), Hy as (Hdy & _).
  destruct (add_loop_spec
              (add_leading_zeros (n - length (digits_ x)) (digits_ x))
              (add_leading_zeros (n - length (digits_ y)) (digits_ y)) n)
    as (Hl & Hc & Hv).
  { unfold add_leading_zeros. rewrite length_app, length_replicate. lia. }
  { unfold add_leading_zeros. rewrite length_app, length_replicate. lia. }
  { apply Forall_app. split; [done|]. apply Forall_replicate. unfold digit. lia. }
  { apply Forall_app. split; [done|]. apply Forall_replicate. unfold digit. lia. }
  rewrite !dval_pad in Hv.
  destruct (wf_normalised_nz _ (sign_ x) Hc ltac:(lia) ltac:(lia)) as [Hw Hval].
  split; [done|]. rewrite Hval, Hv. unfold value. rewrite <-Es. lia.
Qed.

(** ** Vertical subtraction *)

Section vertical_subtraction.

Variables (a b : list Z) (n : nat).
Hypothesis La : length a = n.
Hypothesis Lb : length b = n.
Hypothesis Ha : Forall digit a.
Hypothesis Hb : Forall digit b.
Hypothesis Hle : dval b ≤ dval a.

Lemma sub_inv_init : sub_inv a b n 0 (a, replicate n 0).
Proof.
  unfold sub_inv. cbn [fst snd].
  rewrite length_replicate, !take_0, dval_replicate, pow10_0.
  pose proof (get_digit a O Ha) as H0. unfold digit in H0.
  split_and!; try done; try lia. intros; apply get_replicate.
Qed.

(** A column that has to borrow is never the last one, so [a[i + 1]--]
    stays inside the vector. *)
Lemma sub_inv_borrow i st :
  (i < n)%nat → sub_inv a b n i st → get st.1 i < get b i → (S i < n)%nat.
Proof.
  intros Hi (Hla & Hlc & Hva & Hlo & Hhi & Hak & Hai & Hvc & Hbc) Hlt.
  destruct (decide (S i < n)%nat) as [|Hn]; [done|]. exfalso.
  pose proof (pow10_pos i) as Hp.
  assert (dval st.1 = dval (take i st.1) + get st.1 i * pow10 i) as E1
    by (rewrite <-dval_take_S, take_ge by lia; done).
  assert (dval b = dval (take i b) + get b i * pow10 i) as E2
    by (rewrite <-dval_take_S, take_ge by lia; done).
  nia.
Qed.

Lemma sub_inv_step i st :
  (i < n)%nat → sub_inv a b n i st → sub_inv a b n (S i) (sub_step b i st).
Proof.
  intros Hi HQ. pose proof (sub_inv_borrow i st Hi HQ) as Hsi.
  destruct st as [a' c].
  destruct HQ as (Hla & Hlc & Hva & Hlo & Hhi & Hak & Hai & Hvc & Hbc).
  cbn [fst snd] in *. unfold sub_inv, sub_step. cbv zeta. cbn [fst snd].
  pose proof (get_digit b i Hb) as Hbi. unfold digit in Hbi.
  pose proof (get_digit a (S i) Ha) as Hasi. unfold digit in Hasi.
  pose proof (Hak (S i) ltac:(lia)) as Easi.
  pose proof (pow10_pos i) as Hp.
  rewrite !dval_take_S, pow10_S.
  destruct (Z.ltb_spec (get a' i) (get b i)) as [Hlt|Hge].
  - specialize (Hsi Hlt). getsimpl.
    rewrite (sc_small (get a' (S i) - 1)) by lia.
    rewrite (sc_small (get a' i + 10)) by lia.
    rewrite (sc_small (get a' i + 10 - get b i)) by lia.
    rewrite !dval_insert by (getsimpl; lia). getsimpl.
    rewrite !take_insert_ge by lia. rewrite (Hhi i) by lia.
    split_and!; try done; try lia.
    + rewrite pow10_S. lia.
    + intros k Hk. destruct (decide (k = i)) as [->|].
      * getsimpl. unfold digit. lia.
      * getsimpl. apply Hlo. lia.
    + intros k Hk. getsimpl. apply Hhi. lia.
    + intros k Hk. getsimpl. apply Hak. lia.
    + nia.
    + nia.
  - getsimpl.
    rewrite (sc_small (get a' i - get b i)) by lia.
    rewrite !dval_insert by (getsimpl; lia).
    rewrite (Hhi i) by lia.
    split_and!; try done; try lia.
    + intros k Hk. destruct (decide (k = i)) as [->|].
      * getsimpl. unfold digit. lia.
      * getsimpl. apply Hlo. lia.
    + intros k Hk. getsimpl. apply Hhi. lia.
    + intros k Hk. apply Hak. lia.
    + nia.
    + nia.
Qed.

Lemma sub_loop_inv i :
  (i ≤ n)%nat → sub_inv a b n i (for_loop i (sub_step b) (a, replicate n 0)).
Proof.
  induction i as [|i IH]; intros Hi; [apply sub_inv_init|].
  rewrite for_loop_S. apply sub_inv_step; [lia|]. apply IH. lia.
Qed.

(** In the run of the loop, the store [a[i + 1]--] is always in bounds. *)
Lemma sub_borrow_in_bounds i :
  (i < n)%nat →
  get (for_loop i (sub_step b) (a, replicate n 0)).1 i < get b i →
  (S i < n)%nat.
Proof. intros Hi. apply sub_inv_borrow; [done|]. apply sub_loop_inv. lia. Qed.

Lemma sub_loop_spec :
  Forall digit (for_loop n (sub_step b) (a, replicate n 0)).2
  ∧ dval (for_loop n (sub_step b) (a, replicate n 0)).2 = dval a - dval b.
Proof.
  destruct (sub_loop_inv n ltac:(lia))
    as (Hla & Hlc & Hva & Hlo & _ & _ & _ & Hvc & _).
  split.
  - apply Forall_digit_get. intros k Hk. apply Hlo. lia.
  - rewrite Hvc, !take_ge by lia. lia.
Qed.

End vertical_subtraction.

Lemma Forall_digit_pad n ds : Forall digit ds → Forall digit (add_leading_zeros n ds).
Proof.
  intros. apply Forall_app. split; [done|]. apply Forall_replicate.
  unfold digit. lia.
Qed.

Lemma length_pad n ds : length (add_leading_zeros n ds) = (length ds + n)%nat.
Proof. unfold add_leading_zeros. by rewrite length_app, length_replicate. Qed.

Lemma sub_vertical_spec x y :
  wf x → wf y → sign_ x = sign_ y → sign_ x ≠ 0 →
  wf (sub_vertical x y) ∧ value (sub_vertical x y) = value x - value y.
Proof.
  intros Hx Hy Es Hs. unfold sub_vertical. cbv zeta.
  set (n := (length (digits_ x) `max` length (digits_ y))%nat).
  set (px := add_leading_zeros (n - length (digits_ x)) (digits_ x)).
  set (py := add_leading_zeros (n - length (digits_ y)) (digits_ y)).
  change (add_leading_zeros n []) with (replicate n 0).
  destruct Hx as (Hdx & _ & Hsx & _), Hy as (Hdy & _).
  assert (sign_ x = 1 ∨ sign_ x = -1) as Hs' by lia.
  assert (Forall digit px) as Hpx by (by apply Forall_digit_pad).
  assert (Forall digit py) as Hpy by (by apply Forall_digit_pad).
  assert (length px = n) as Lx by (unfold px; rewrite length_pad; lia).
  assert (length py = n) as Ly by (unfold py; rewrite length_pad; lia).
  assert (dval px = dval (digits_ x)) as Vx by apply dval_pad.
  assert (dval py = dval (digits_ y)) as Vy by apply dval_pad.
  set (swap := if sign_ x =? 1 then Int_lt (mkInt px (sign_ x)) (mkInt py (sign_ y))
               else Int_gt (mkInt px (sign_ x)) (mkInt py (sign_ y))).
  assert (swap = bool_decide (dval (digits_ x) < dval (digits_ y))) as Hswap.
  { unfold swap, Int_lt, Int_gt.
    rewrite Int_cmp_padded by (simpl; congruence). simpl. rewrite Vx, Vy.
    case_bool_decide; destruct Hs' as [E|E]; rewrite E; simpl.
    - destruct (Z.ltb_spec (1 * Z.sgn (dval (digits_ x) - dval (digits_ y))) 0); lia.
    - destruct (Z.gtb_spec (-1 * Z.sgn (dval (digits_ x) - dval (digits_ y))) 0); lia.
    - destruct (Z.ltb_spec (1 * Z.sgn (dval (digits_ x) - dval (digits_ y))) 0); lia.
    - destruct (Z.gtb_spec (-1 * Z.sgn (dval (digits_ x) - dval (digits_ y))) 0); lia. }
  clearbody swap. subst swap. unfold value at 2 3. rewrite <-Es.
  case_bool_decide as Hlt; simpl digits_.
  - destruct (sub_loop_spec py px n Ly Lx Hpy Hpx ltac:(lia)) as [Hc Hv].
    rewrite sc_neg_sign by lia.
    destruct (wf_normalised _ (- sign_ x) Hc ltac:(lia)) as [Hw Hval].
    split; [done|]. fold (normalised (for_loop n (sub_step px) (py, replicate n 0)).2 (- sign_ x)).
    rewrite Hval, Hv. lia.
  - destruct (sub_loop_spec px py n Lx Ly Hpx Hpy ltac:(lia)) as [Hc Hv].
    destruct (wf_normalised _ (sign_ x) Hc ltac:(lia)) as [Hw Hval].
    split; [done|]. fold (normalised (for_loop n (sub_step py) (px, replicate n 0)).2 (sign_ x)).
    rewrite Hval, Hv. lia.
Qed.

(** ** [operator+] and [operator-] *)

(** The body of [operator+] as the source writes it, with its two calls of
    [operator-]. *)
Lemma Int_add_unfold x y :
  Int_add x y =
  if (sign_ x =? 0) || (sign_ y =? 0) then (if sign_ x =? 0 then y else x)
  else if (sign_ x =? 1) && (sign_ y =? -1) then Int_sub x (Int_neg y)
  else if (sign_ x =? -1) && (sign_ y =? 1) then Int_sub y (Int_neg x)
  else add_vertical x y.
Proof.
  unfold Int_add, Int_sub.
  destruct (Z.eqb_spec (sign_ x) 0) as [|H1]; [done|].
  destruct (Z.eqb_spec (sign_ y) 0) as [|H2]; [done|]. simpl orb. cbv iota.
  destruct (Z.eqb_spec (sign_ x) 1) as [E1|E1];
    destruct (Z.eqb_spec (sign_ y) (-1)) as [E2|E2]; simpl andb; cbv iota.
  - simpl sign_. rewrite E1, E2. done.
  - destruct (Z.eqb_spec (sign_ x) (-1)); [|done].
    destruct (Z.eqb_spec (sign_ y) 1) as [E3|]; [|done]. simpl andb. cbv iota. lia.
  - destruct (Z.eqb_spec (sign_ x) (-1)) as [E3|]; [|done].
    destruct (Z.eqb_spec (sign_ y) 1) as [E4|]; [|done]. lia.
  - destruct (Z.eqb_spec (sign_ x) (-1)) as [E3|]; [|done].
    destruct (Z.eqb_spec (sign_ y) 1) as [E4|]; [|done]. simpl andb. cbv iota.
    simpl sign_. rewrite E3, E4. done.
Qed.

Lemma Int_add_spec x y :
  wf x → wf y → wf (Int_add x y) ∧ value (Int_add x y) = value x + value y.
Proof.
  intros Hx Hy. unfold Int_add.
  pose proof (wf_value_0 x Hx) as Zx. pose proof (wf_value_0 y Hy) as Zy.
  pose proof (Int_neg_spec x Hx) as [Hnx Vnx].
  pose proof (Int_neg_spec y Hy) as [Hny Vny].
  assert (sign_ x = -1 ∨ sign_ x = 0 ∨ sign_ x = 1) as Sx by apply Hx.
  assert (sign_ y = -1 ∨ sign_ y = 0 ∨ sign_ y = 1) as Sy by apply Hy.
  destruct Sx as [Ex|[Ex|Ex]], Sy as [Ey|[Ey|Ey]]; rewrite Ex, Ey; simpl;
    try (split; [done|lia]).
  - apply add_vertical_spec; [done|done|lia|lia].
  - destruct (sub_vertical_spec y (Int_neg x)) as [Hw Hv]; [done|done| |lia|].
    { simpl. rewrite Ex, Ey. done. }
    split; [done|]. lia.
  - destruct (sub_vertical_spec x (Int_neg y)) as [Hw Hv]; [done|done| |lia|].
    { simpl. rewrite Ex, Ey. done. }
    split; [done|]. lia.
  - apply add_vertical_spec; [done|done|lia|lia].
Qed.

Lemma Int_sub_spec x y :
  wf x → wf y → wf (Int_sub x y) ∧ value (Int_sub x y) = value x - value y.
Proof.
  intros Hx Hy. unfold Int_sub.
  pose proof (wf_value_0 x Hx) as Zx. pose proof (wf_value_0 y Hy) as Zy.
  pose proof (Int_neg_spec y Hy) as [Hny Vny].
  destruct (Z.eqb_spec (sign_ x) 0) as [E|H1]; simpl orb; cbv iota.
  { split; [done|]. apply Zx in E. lia. }
  destruct (Z.eqb_spec (sign_ y) 0) as [E|H2]; simpl orb; cbv iota.
  { split; [done|]. apply Zy in E. lia. }
  destruct (Z.eqb_spec (sign_ x) (sign_ y)) as [E|E]; simpl negb; cbv iota.
  - by apply sub_vertical_spec.
  - destruct (Int_add_spec x (Int_neg y) Hx Hny) as [Hw Hv]. split; [done|]. lia.
Qed.

(** ** Multiplication *)

Lemma mul_step_spec a b i j c :
  (i + j + 1 < length c)%nat →
  digit (get a i) → digit (get b j) →
  0 ≤ get c (i + j) ≤ 18 → digit (get c (i + j + 1)) →
  length (mul_step a b i j c) = length c
  ∧ digit (get (mul_step a b i j c) (i + j))
  ∧ 0 ≤ get (mul_step a b i j c) (i + j + 1) ≤ 18
  ∧ (∀ k, k ≠ (i + j)%nat → k ≠ (i + j + 1)%nat →
       get (mul_step a b i j c) k = get c k)
  ∧ dval (mul_step a b i j c) = dval c + get a i * get b j * pow10 (i + j).
Proof.
  intros Hi Ha Hb Hc Hc'. unfold mul_step, digit in *.
  set (v := get c (i + j) + get a i * get b j).
  assert (0 ≤ v ≤ 99) as Hv by (unfold v; nia).
  getsimpl. rewrite (sc_small v) by lia.
  rewrite (sc_small (_ + v `quot` 10)) by zdiv.
  rewrite (sc_small (v `rem` 10)) by zdiv.
  split; [done|]. split; [zdiv|]. split; [zdiv|].
  split; [intros; by getsimpl|].
  rewrite !dval_insert by (getsimpl; lia). getsimpl.
  replace (i + j + 1)%nat with (S (i + j)) by lia. rewrite pow10_S.
  assert (v = 10 * (v `quot` 10) + v `rem` 10) by (apply Z.quot_rem').
  unfold v in *. nia.
Qed.

Lemma mul_row_spec a b i c :
  (i < length a)%nat → length c = (length a + length b)%nat →
  Forall digit a → Forall digit b → Forall digit c →
  dval c = dval (take i a) * dval b →
  length (for_loop (length b) (λ j c, mul_step a b i j c) c) = length c
  ∧ Forall digit (for_loop (length b) (λ j c, mul_step a b i j c) c)
  ∧ dval (for_loop (length b) (λ j c, mul_step a b i j c) c)
    = dval (take (S i) a) * dval b.
Proof.
  intros Hi Hl Ha Hb Hc Hv.
  set (R := λ (j : nat) (c' : list Z),
    length c' = length c
    ∧ (∀ k, k ≠ (i + j)%nat → digit (get c' k))
    ∧ 0 ≤ get c' (i + j) ≤ 18
    ∧ dval c' = dval c + get a i * dval (take j b) * pow10 i).
  assert (R (length b) (for_loop (length b) (λ j c, mul_step a b i j c) c)) as HR.
  { apply for_loop_ind.
    - unfold R. rewrite take_0. simpl dval.
      pose proof (get_digit c (i + 0) Hc) as H0. unfold digit in H0.
      split_and!; [done| |lia|lia|lia]. intros. by apply get_digit.
    - intros j c' Hj (Hl' & Hk & Hij & Hv').
      destruct (mul_step_spec a b i j c') as (L & D & C & K & V);
        [lia|by apply get_digit|by apply get_digit|done|apply Hk; lia|].
      unfold R. rewrite dval_take_S, V, Hv', pow10_add.
      replace (i + S j)%nat with (i + j + 1)%nat by lia.
      split; [lia|]. split; [|split; [done|lia]].
      intros k Hne. destruct (decide (k = (i + j)%nat)) as [->|]; [done|].
      rewrite K by lia. apply Hk. lia. }
  destruct HR as (Hl' & Hk & Hij & Hv').
  assert (dval (for_loop (length b) (λ j c, mul_step a b i j c) c)
          = dval (take (S i) a) * dval b) as Hval.
  { rewrite Hv', Hv, (take_ge b), dval_take_S by lia. ring. }
  split; [done|]. split; [|done].
  apply Forall_digit_get. intros k Hk'.
  destruct (decide (k = (i + length b)%nat)) as [->|]; [|by apply Hk].
  (* the carry left in the top column is a digit: the row's value is too
     small for more *)
  set (c' := for_loop (length b) (λ j c, mul_step a b i j c) c) in *.
  assert (Forall (λ d, 0 ≤ d) c') as Hnn.
  { apply Forall_lookup_2. intros k d Hkd.
    destruct (decide (k = (i + length b)%nat)) as [->|Hne].
    - unfold get in Hij. rewrite Hkd in Hij. simpl in Hij. lia.
    - specialize (Hk k Hne). unfold get in Hk. rewrite Hkd in Hk.
      unfold digit in Hk. simpl in Hk. lia. }
  pose proof (dval_get_le c' (i + length b) Hnn) as Hle.
  pose proof (dval_bound (take (S i) a) (Forall_take _ _ _ Ha)) as Ba.
  pose proof (dval_bound b Hb) as Bb.
  rewrite length_take in Ba. replace (S i `min` length a)%nat with (S i) in Ba by lia.
  rewrite pow10_add in Hle. rewrite pow10_S in Ba.
  pose proof (pow10_pos i). pose proof (pow10_pos (length b)).
  unfold digit. split; [lia|].
  assert (get c' (i + length b) * (pow10 i * pow10 (length b))
          < 10 * (pow10 i * pow10 (length b))) by nia.
  nia.
Qed.

Lemma mul_loop_spec a b :
  Forall digit a → Forall digit b →
  Forall digit (for_loop (length a)
             (λ i c, for_loop (length b) (λ j c, mul_step a b i j c) c)
             (replicate (length a + length b) 0))
  ∧ dval (for_loop (length a)
             (λ i c, for_loop (length b) (λ j c, mul_step a b i j c) c)
             (replicate (length a + length b) 0)) = dval a * dval b.
Proof.
  intros Ha Hb.
  set (O := λ (i : nat) (c : list Z),
    length c = (length a + length b)%nat ∧ Forall digit c
    ∧ dval c = dval (take i a) * dval b).
  assert (O (length a)
            (for_loop (length a)
               (λ i c, for_loop (length b) (λ j c, mul_step a b i j c) c)
               (replicate (length a + length b) 0))) as HO.
  { apply for_loop_ind.
    - unfold O. rewrite length_replicate, take_0, dval_replicate.
      split_and!; [done| |simpl; lia]. apply Forall_replicate. unfold digit. lia.
    - intros i c Hi (Hl & Hc & Hv).
      destruct (mul_row_spec a b i c Hi Hl Ha Hb Hc Hv) as (L & D & V).
      unfold O. cbv beta. split; [lia|done]. }
  destruct HO as (_ & Hc & Hv). split; [done|].
  by rewrite Hv, take_ge.
Qed.

Lemma Int_of_int_0 : Int_of_int 0 = Int_zero.
Proof. done. Qed.

Lemma Int_mul_spec x y :
  wf x → wf y → wf (Int_mul x y) ∧ value (Int_mul x y) = value x * value y.
Proof.
  intros Hx Hy. unfold Int_mul.
  pose proof (wf_value_0 x Hx) as Zx. pose proof (wf_value_0 y Hy) as Zy.
  destruct (Z.eqb_spec (sign_ x) 0) as [E|H1]; simpl orb; cbv iota.
  { rewrite Int_of_int_0. split; [apply wf_zero|]. apply Zx in E. rewrite E. done. }
  destruct (Z.eqb_spec (sign_ y) 0) as [E|H2]; simpl orb; cbv iota.
  { rewrite Int_of_int_0. split; [apply wf_zero|]. apply Zy in E. rewrite E.
    unfold value. simpl. lia. }
  cbv zeta. change (add_leading_zeros ?n []) with (replicate n 0).
  pose proof (wf_dval_pos x Hx H1) as Px. pose proof (wf_dval_pos y Hy H2) as Py.
  destruct Hx as (Hdx & _ & Sx & _), Hy as (Hdy & _ & Sy & _).
  destruct (mul_loop_spec (digits_ x) (digits_ y) Hdx Hdy) as [Hc Hv].
  destruct (wf_normalised_nz _ (if sign_ x =? sign_ y then 1 else -1) Hc)
    as [Hw Hval].
  { destruct (sign_ x =? sign_ y); lia. }
  { rewrite Hv. nia. }
  split; [done|]. rewrite Hval, Hv. unfold value.
  destruct (Z.eqb_spec (sign_ x) (sign_ y)); nia.
Qed.

(** ** Division and remainder *)

Lemma res_bind_Ok {A B : Type} (a : A) (k : A → res B) : (Ok a ≫= k) = k a.
Proof. done. Qed.

(** The shifted divisor [rhs * 10^i] is a well-formed value. *)
Lemma wf_shifted dy i :
  Forall digit dy → last dy ≠ Some 0 → dy ≠ [] →
  wf (mkInt (replicate i 0 ++ dy) 1)
  ∧ value (mkInt (replicate i 0 ++ dy) 1) = dval dy * pow10 i.
Proof.
  intros Hd Hl Hne. unfold wf, value. simpl. split; [split_and!|].
  - apply Forall_app. split; [|done]. apply Forall_replicate. unfold digit. lia.
  - rewrite last_app. destruct (last dy) eqn:E; [done|].
    apply last_None in E. done.
  - lia.
  - split; [lia|]. intros E. apply app_eq_nil in E. tauto.
  - rewrite dval_app, dval_replicate, length_replicate. lia.
Qed.

(** The inner loop runs [value num1 / value tmp] times: it needs no more
    budget than that, adds that count to [result.digits_[i]] and leaves the
    remainder in [num1]. *)
Lemma div_while_spec n i tmp num1 r :
  wf num1 → wf tmp → 0 < value tmp → 0 ≤ value num1 →
  (i < length r)%nat →
  value num1 `div` value tmp ≤ Z.of_nat n →
  0 ≤ get r i → get r i + value num1 `div` value tmp ≤ 127 →
  ∃ num1',
    div_while n i tmp (num1, r)
    = Ok (num1', <[i := get r i + value num1 `div` value tmp]> r)
    ∧ wf num1' ∧ value num1' = value num1 `mod` value tmp.
Proof.
  revert num1 r. induction n as [|n IH]; intros num1 r Hn Ht Tp Np Hi Hq Hr Hb.
  - simpl. rewrite Int_ge_spec by done. simpl.
    assert (value num1 `div` value tmp = 0) as E
      by (pose proof (Z.div_pos (value num1) (value tmp)); lia).
    apply Z.div_small_iff in E; [|lia].
    rewrite bool_decide_eq_false_2 by lia.
    exists num1. rewrite Z.div_small, Z.mod_small, Z.add_0_r by lia.
    split; [|done]. f_equal. f_equal. symmetry. apply list_insert_id.
    unfold get. destruct (lookup_lt_is_Some_2 r i Hi) as [d Hd]. by rewrite Hd.
  - simpl. rewrite Int_ge_spec by done. simpl. case_bool_decide as Hge.
    + destruct (Int_sub_spec num1 tmp Hn Ht) as [Hw Hv].
      assert (value num1 `div` value tmp
              = 1 + (value num1 - value tmp) `div` value tmp) as Eq.
      { replace (value num1) with (1 * value tmp + (value num1 - value tmp)) at 1 by lia.
        rewrite Z.div_add_l by lia. done. }
      assert (0 ≤ (value num1 - value tmp) `div` value tmp)
        by (apply Z.div_pos; lia).
      rewrite sc_small by lia.
      destruct (IH (Int_sub num1 tmp) (<[i := get r i + 1]> r))
        as (num1' & E & Hw' & Hv'); try done.
      * lia.
      * by rewrite length_insert.
      * rewrite Hv. lia.
      * rewrite get_insert_eq by done. lia.
      * rewrite get_insert_eq, Hv by done. lia.
      * exists num1'. rewrite E. split; [|split; [done|]].
        -- rewrite get_insert_eq, list_insert_insert_eq, Hv, Eq by done.
           do 3 f_equal. lia.
        -- rewrite Hv', Hv.
           replace (value num1) with ((value num1 - value tmp) + 1 * value tmp) at 2 by lia.
           by rewrite Z.mod_add by lia.
    + exists num1. rewrite Z.div_small, Z.mod_small, Z.add_0_r by lia.
      split; [|done]. f_equal. f_equal. symmetry. apply list_insert_id.
      unfold get. destruct (lookup_lt_is_Some_2 r i Hi) as [d Hd]. by rewrite Hd.
Qed.

(** ... and a smaller budget does not do. *)
Lemma div_while_short n i tmp num1 r :
  wf num1 → wf tmp → 0 < value tmp → 0 ≤ value num1 →
  Z.of_nat n < value num1 `div` value tmp →
  div_while n i tmp (num1, r) = OutOfFuel.
Proof.
  revert num1 r. induction n as [|n IH]; intros num1 r Hn Ht Tp Np Hq.
  - simpl. rewrite Int_ge_spec by done. simpl.
    destruct (decide (value num1 < value tmp)) as [Hlt|Hge].
    + rewrite Z.div_small in Hq by lia. lia.
    + by rewrite bool_decide_eq_true_2 by lia.
  - simpl. rewrite Int_ge_spec by done. simpl.
    destruct (decide (value num1 < value tmp)) as [Hlt|Hge].
    + rewrite Z.div_small in Hq by lia. lia.
    + rewrite bool_decide_eq_true_2 by lia.
      destruct (Int_sub_spec num1 tmp Hn Ht) as [Hw Hv].
      apply IH; [done|done|done|lia|]. rewrite Hv.
      replace (value num1) with (1 * value tmp + (value num1 - value tmp)) in Hq by lia.
      rewrite Z.div_add_l in Hq by lia. lia.
Qed.

Lemma div_loop_S fuel i tmp st :
  div_loop fuel (S i) tmp st =
  (st' ← div_while fuel i (erase_first tmp) st;
   div_loop fuel i (erase_first tmp) st').
Proof. done. Qed.

(** The outer loop of [operator/], from position [n - 1] down to 0.  On
    entry to every position the running remainder is below ten times the
    shifted divisor, so a budget of nine suffices for every inner loop. *)
Lemma div_loop_spec fuel n dy num1 r :
  (9 ≤ fuel)%nat →
  Forall digit dy → last dy ≠ Some 0 → dy ≠ [] →
  wf num1 → 0 ≤ value num1 < dval dy * pow10 n →
  (n ≤ length r)%nat → (∀ k, (k < n)%nat → get r k = 0) →
  ∃ num1' r',
    div_loop fuel n (mkInt (replicate n 0 ++ dy) 1) (num1, r) = Ok (num1', r')
    ∧ wf num1' ∧ value num1' = value num1 `mod` dval dy
    ∧ length r' = length r
    ∧ (∀ k, (n ≤ k)%nat → get r' k = get r k)
    ∧ (∀ k, (k < n)%nat → digit (get r' k))
    ∧ dval (take n r') = value num1 `div` dval dy
    ∧ length (div_entries fuel n (mkInt (replicate n 0 ++ dy) 1) (num1, r)) = n
    ∧ Forall (λ e, 0 ≤ value e.1 < 10 * value e.2)
             (div_entries fuel n (mkInt (replicate n 0 ++ dy) 1) (num1, r)).
Proof.
  intros Hf Hd Hl Hne. pose proof (dval_pos dy Hd Hl Hne) as Bp.
  revert num1 r. induction n as [|i IH]; intros num1 r Hw Hv Hlen Hz.
  - exists num1, r. rewrite pow10_0 in Hv. simpl div_loop. rewrite take_0.
    rewrite Z.mod_small, Z.div_small by lia.
    split_and!; try done. intros; lia.
  - rewrite div_loop_S. cbn [div_entries].
    change (erase_first (mkInt (replicate (S i) 0 ++ dy) 1))
      with (mkInt (replicate i 0 ++ dy) 1).
    destruct (wf_shifted dy i Hd Hl Hne) as [Wt Vt].
    pose proof (pow10_pos i) as Pp. rewrite pow10_S in Hv.
    set (T := dval dy * pow10 i) in *.
    assert (0 < T) as Tp by (unfold T; nia).
    assert (0 ≤ value num1 `div` T < 10) as Hq.
    { split; [apply Z.div_pos; lia|]. apply Z.div_lt_upper_bound; lia. }
    destruct (div_while_spec fuel i _ num1 r Hw Wt) as (num2 & E & W2 & V2);
      rewrite ?Vt, ?Hz; try lia.
    rewrite E, res_bind_Ok. rewrite Vt, Hz, Z.add_0_l in * by lia.
    set (q := value num1 `div` T) in *.
    pose proof (Z.mod_pos_bound (value num1) T Tp) as Hm.
    destruct (IH num2 (<[i := q]> r))
      as (num3 & r3 & E3 & W3 & V3 & L3 & K3 & D3 & Q3 & EL & EF).
    { done. }
    { rewrite V2. fold T. lia. }
    { rewrite length_insert. lia. }
    { intros k Hk. rewrite get_insert_ne by lia. apply Hz. lia. }
    exists num3, r3. rewrite E3, length_insert in *.
    assert (value num1 = q * pow10 i * dval dy + value num2) as Ev.
    { rewrite V2. pose proof (Z.div_mod (value num1) T ltac:(lia)). unfold q, T in *. lia. }
    split; [done|]. split; [done|]. split.
    { rewrite V3, Ev, Z.add_comm, Z.mod_add by lia. done. }
    split; [done|]. split.
    { intros k Hk. rewrite K3 by lia. rewrite get_insert_ne by lia. done. }
    split.
    { intros k Hk. destruct (decide (k = i)) as [->|]; [|apply D3; lia].
      rewrite K3, get_insert_eq by lia. unfold digit. lia. }
    split.
    { rewrite dval_take_S, Q3, K3, get_insert_eq by lia.
      clearbody q. rewrite Ev. rewrite Z.div_add_l by lia. lia. }
    split; [simpl; by rewrite EL|].
    constructor; [|done]. simpl. rewrite Vt. fold T. lia.
Qed.

Lemma small_digits_small x y :
  wf x → wf y → (digits x < digits y)%nat → Z.abs (value x) < Z.abs (value y).
Proof.
  intros Hx Hy Hlt. rewrite !wf_abs_value by done. unfold digits in Hlt.
  destruct Hx as (Hdx & _), Hy as (Hdy & Hly & _).
  pose proof (dval_bound _ Hdx). 
  pose proof (dval_lower _ Hdy Hly ltac:(intros E; rewrite E in Hlt; simpl in Hlt; lia)).
  pose proof (pow10_le (length (digits_ x)) (length (digits_ y) - 1) ltac:(lia)).
  lia.
Qed.

Lemma sign_cases x : wf x → sign_ x ≠ 0 → sign_ x = 1 ∨ sign_ x = -1.
Proof. intros (_ & _ & Hs & _) ?. lia. Qed.

Lemma long_nonzero x y :
  wf x → wf y → sign_ y ≠ 0 → ¬ (digits x < digits y)%nat → sign_ x ≠ 0.
Proof.
  intros Hx Hy Hs Hge E0. unfold digits in Hge.
  destruct Hx as (_ & _ & _ & Hzx), Hy as (_ & _ & _ & Hzy).
  apply Hzx in E0. rewrite E0 in Hge. apply Hs, Hzy.
  destruct (digits_ y); [done|simpl in Hge; lia].
Qed.

(** Entry to the loops of [operator/] and [operator%]. *)
Lemma div_loop_entry fuel x y :
  wf x → wf y → sign_ y ≠ 0 → (9 ≤ fuel)%nat → ¬ (digits x < digits y)%nat →
  let size := (length (digits_ x) - length (digits_ y) + 1)%nat in
  ∃ num1' r',
    div_loop fuel size (mkInt (replicate size 0 ++ digits_ y) 1)
             (Int_abs x, replicate size 0) = Ok (num1', r')
    ∧ wf num1' ∧ value num1' = Z.abs (value x) `mod` Z.abs (value y)
    ∧ Forall digit r'
    ∧ dval r' = Z.abs (value x) `div` Z.abs (value y)
    ∧ length (div_entries fuel size (mkInt (replicate size 0 ++ digits_ y) 1)
                (Int_abs x, replicate size 0)) = size
    ∧ Forall (λ e, 0 ≤ value e.1 < 10 * value e.2)
        (div_entries fuel size (mkInt (replicate size 0 ++ digits_ y) 1)
           (Int_abs x, replicate size 0)).
Proof.
  intros Hx Hy Hs Hf Hlen size. unfold digits in Hlen.
  destruct (Int_abs_spec x Hx) as [Wa Va].
  pose proof (wf_abs_value x Hx) as Ax. pose proof (wf_abs_value y Hy) as Ay.
  pose proof (wf_dval_pos y Hy Hs) as Py.
  assert (Hx' := Hx). assert (Hy' := Hy).
  destruct Hx' as (Hdx & _), Hy' as (Hdy & Hly & _ & Hzy).
  assert (digits_ y ≠ []) as Hne by (by rewrite <-Hzy).
  destruct (div_loop_spec fuel size (digits_ y) (Int_abs x) (replicate size 0))
    as (num1' & r' & E & W & V & L & _ & D & Q & EL & EF); try done.
  - rewrite Va, Ax. split; [lia|].
    pose proof (dval_bound _ Hdx) as Bx.
    pose proof (dval_lower _ Hdy Hly Hne) as By.
    assert (pow10 (length (digits_ x))
            = pow10 (length (digits_ y) - 1) * pow10 size) as Ep.
    { rewrite <-pow10_add. f_equal. destruct (digits_ y); [done|]. simpl in *. lia. }
    pose proof (pow10_pos size). nia.
  - by rewrite length_replicate.
  - intros. apply get_replicate.
  - rewrite length_replicate in L.
    exists num1', r'. rewrite E, V, Va, Ay. split; [done|]. split; [done|].
    split; [done|]. split; [|split; [|done]].
    + apply Forall_digit_get. intros k Hk. apply D. lia.
    + rewrite take_ge in Q by lia. rewrite Q, Va. done.
Qed.

(** [operator/] is the truncating quotient; nine iterations of every inner
    loop are enough. *)
Lemma Int_div_spec fuel x y :
  wf x → wf y → sign_ y ≠ 0 → (9 ≤ fuel)%nat →
  ∃ q, Int_div fuel x y = Ok q ∧ wf q ∧ value q = value x `quot` value y.
Proof.
  intros Hx Hy Hs Hf. unfold Int_div.
  pose proof (wf_value_0 y Hy) as Zy.
  destruct (Z.eqb_spec (sign_ y) 0) as [|_]; [done|].
  rewrite Z.quot_div by tauto.
  destruct (Nat.ltb_spec (digits x) (digits y)) as [Hlt|Hge].
  - exists Int_zero. rewrite Int_of_int_0. split; [done|]. split; [apply wf_zero|].
    pose proof (small_digits_small x y Hx Hy Hlt).
    rewrite Z.div_small by lia. unfold value. simpl. lia.
  - cbv zeta. change (add_leading_zeros ?n []) with (replicate n 0).
    destruct (div_loop_entry fuel x y Hx Hy Hs Hf ltac:(lia))
      as (num1' & r' & E & W & V & D & Q & _).
    rewrite E, res_bind_Ok. simpl snd.
    pose proof (long_nonzero x y Hx Hy Hs ltac:(lia)) as Hsx.
    destruct (sign_cases x Hx Hsx) as [Ex|Ex], (sign_cases y Hy Hs) as [Ey|Ey];
      rewrite (wf_sign_sgn x Hx) in Ex; rewrite (wf_sign_sgn y Hy) in Ey;
      rewrite !(wf_sign_sgn _ Hx), !(wf_sign_sgn _ Hy), Ex, Ey; simpl Z.eqb; cbv iota.
    all: eexists; split; [reflexivity|].
    all: match goal with |- context [bool_decide (_ = []) ] =>
           match goal with |- context [if _ then 0 else ?s] =>
             destruct (wf_normalised r' s D ltac:(lia)) as [Hw Hv];
             unfold normalised in Hw, Hv; split; [exact Hw|]; rewrite Hv, Q; lia
           end end.
Qed.

(** [operator%] runs the loops of [operator/] without recording the
    quotient digits. *)
Lemma mod_while_div_while n i tmp num1 r :
  mod_while n tmp num1 = (st ← div_while n i tmp (num1, r); Ok st.1).
Proof.
  revert num1 r. induction n as [|n IH]; intros num1 r; simpl;
    destruct (Int_ge num1 tmp); done.
Qed.

Lemma mod_loop_div_loop fuel n tmp num1 r :
  mod_loop fuel n tmp num1 = (st ← div_loop fuel n tmp (num1, r); Ok st.1).
Proof.
  revert tmp num1 r. induction n as [|n IH]; intros tmp num1 r; simpl; [done|].
  rewrite (mod_while_div_while fuel n (erase_first tmp) num1 r).
  destruct (div_while fuel n (erase_first tmp) (num1, r)) as [[num2 r2]| |];
    simpl; [|done..].
  apply IH.
Qed.

(** [operator%] is the remainder of the truncating division. *)
Lemma Int_mod_spec fuel x y :
  wf x → wf y → sign_ y ≠ 0 → (9 ≤ fuel)%nat →
  ∃ r, Int_mod fuel x y = Ok r ∧ wf r ∧ value r = value x `rem` value y.
Proof.
  intros Hx Hy Hs Hf. unfold Int_mod.
  pose proof (wf_value_0 y Hy) as Zy.
  destruct (Z.eqb_spec (sign_ y) 0) as [|_]; [done|].
  rewrite Z.rem_mod by tauto.
  destruct (Nat.ltb_spec (digits x) (digits y)) as [Hlt|Hge].
  - exists x. split; [done|]. split; [done|].
    pose proof (small_digits_small x y Hx Hy Hlt).
    rewrite Z.mod_small by lia. lia.
  - cbv zeta.
    destruct (div_loop_entry fuel x y Hx Hy Hs Hf ltac:(lia))
      as (num1' & r' & E & W & V & D & Q & _).
    rewrite (mod_loop_div_loop _ _ _ _
               (replicate (length (digits_ x) - length (digits_ y) + 1) 0)).
    rewrite E. simpl.
    pose proof (long_nonzero x y Hx Hy Hs ltac:(lia)) as Hsx.
    pose proof (sign_cases x Hx Hsx) as Sx.
    destruct (wf_normalised (digits_ num1') (sign_ x) ltac:(apply W) ltac:(lia))
      as [Hw Hv].
    eexists. split; [reflexivity|]. split; [exact Hw|].
    unfold normalised in Hv. rewrite Hv, <-(wf_abs_value num1' W), V.
    rewrite (wf_sign_sgn x Hx) at 1.
    pose proof (Z.mod_pos_bound (Z.abs (value x)) (Z.abs (value y)) ltac:(lia)).
    lia.
Qed.

(** ** Construction from [int] *)

Lemma push_digits_S n z ds :
  push_digits (S n) z ds =
  if z >? 0 then push_digits n (z `quot` 10) (ds ++ [sc (z `rem` 10)]) else ds.
Proof. done. Qed.

Lemma push_digits_spec n z ds :
  0 ≤ z < pow10 n →
  ∃ l, push_digits n z ds = ds ++ l
       ∧ Forall digit l ∧ last l ≠ Some 0 ∧ dval l = z.
Proof.
  revert z ds. induction n as [|n IH]; intros z ds Hz.
  - rewrite pow10_0 in Hz. exists []. simpl. rewrite app_nil_r.
    split_and!; [done|constructor|done|lia].
  - rewrite pow10_S in Hz. rewrite push_digits_S.
    destruct (Z.gtb_spec z 0) as [Hp|Hp].
    + rewrite sc_small by zdiv.
      destruct (IH (z `quot` 10) (ds ++ [z `rem` 10])) as (l & E & D & L & V);
        [zdiv|].
      exists (z `rem` 10 :: l). rewrite E, <-app_assoc.
      split; [done|]. split; [constructor; [unfold digit; zdiv|done]|].
      split.
      * destruct l as [|d l]; [|by rewrite last_cons_cons].
        simpl in *. intros [= E0]. zdiv.
      * rewrite dval_cons, V. zdiv.
    + exists []. rewrite app_nil_r. split_and!; [done|constructor|done|simpl; lia].
Qed.

(** The unrolling bound of the digit loop is never reached with digits
    still to come: an [int] is below [10^32]. *)
Lemma push_digits_exhausted n z ds :
  0 ≤ z ≤ INT_MAX → (int_bits ≤ n)%nat →
  push_digits n z ds = push_digits int_bits z ds.
Proof.
  intros Hz Hn.
  assert (pow10 int_bits ≤ pow10 n) by (by apply pow10_le).
  assert (INT_MAX < pow10 int_bits) by done.
  destruct (push_digits_spec n z ds ltac:(lia)) as (l & E & D & L & V).
  destruct (push_digits_spec int_bits z ds ltac:(lia)) as (l' & E' & D' & L' & V').
  rewrite E, E'. f_equal. apply dval_inj; try done. lia.
Qed.

(** Every [int] but [INT_MIN] converts to the well-formed value that
    denotes it. *)
Lemma Int_of_int_spec z :
  INT_MIN < z ≤ INT_MAX → wf (Int_of_int z) ∧ value (Int_of_int z) = z.
Proof.
  intros Hz. unfold Int_of_int. destruct (Z.eqb_spec z 0) as [->|Hnz].
  { split; [apply wf_zero|done]. }
  assert (wrap32 (Z.abs z) = Z.abs z) as ->.
  { unfold wrap32. unfold INT_MIN, INT_MAX in Hz. rewrite Z.mod_small; lia. }
  destruct (push_digits_spec int_bits (Z.abs z) []) as (l & E & D & L & V).
  { assert (INT_MAX < pow10 int_bits) by done. unfold INT_MIN, INT_MAX in *. lia. }
  rewrite E. simpl app. unfold wf, value. simpl.
  assert (l ≠ []) as Hne by (intros ->; simpl in V; lia).
  destruct (Z.gtb_spec z 0).
  - split; [split_and!; [done|done|lia|split; [lia|done]]|]. lia.
  - split; [split_and!; [done|done|lia|split; [lia|done]]|]. lia.
Qed.

(** ** Increment and decrement *)

Lemma fill_below_cons j v d l : fill_below (S j) v (d :: l) = v :: fill_below j v l.
Proof.
  revert d l. induction j as [|j IH]; intros d l; [done|].
  change (fill_below (S (S j)) v (d :: l))
    with (fill_below (S j) v (d :: <[j := v]> l)).
  by rewrite IH.
Qed.

(** The carry run of [abs_inc]: skip the nines, bump the digit after them,
    zero the nines. *)
Lemma inc_run l :
  Forall digit l → dval l < pow10 (length l) - 1 →
  Forall digit (fill_below (skip_run 9 l) 0
                  (<[skip_run 9 l := sc (get l (skip_run 9 l) + 1)]> l))
  ∧ dval (fill_below (skip_run 9 l) 0
            (<[skip_run 9 l := sc (get l (skip_run 9 l) + 1)]> l)) = dval l + 1.
Proof.
  induction 1 as [|d l Hd Hl IH]; intros Hv.
  - simpl in Hv. rewrite pow10_0 in Hv. lia.
  - simpl length in Hv. rewrite pow10_S, dval_cons in Hv. unfold digit in Hd.
    simpl skip_run. destruct (Z.eqb_spec d 9) as [->|Hne].
    + rewrite get_cons_S. simpl insert. rewrite fill_below_cons.
      destruct IH as [D V]; [lia|]. split.
      * constructor; [unfold digit; lia|done].
      * rewrite !dval_cons, V. lia.
    + rewrite get_cons_0. simpl. rewrite sc_small by lia. split.
      * constructor; [unfold digit; lia|done].
      * lia.
Qed.

(** The borrow run of [abs_dec]. *)
Lemma dec_run l :
  Forall digit l → 0 < dval l →
  Forall digit (fill_below (skip_run 0 l) 9
                  (<[skip_run 0 l := sc (get l (skip_run 0 l) - 1)]> l))
  ∧ dval (fill_below (skip_run 0 l) 9
            (<[skip_run 0 l := sc (get l (skip_run 0 l) - 1)]> l)) = dval l - 1.
Proof.
  induction 1 as [|d l Hd Hl IH]; intros Hv.
  - simpl in Hv. lia.
  - rewrite dval_cons in Hv. unfold digit in Hd.
    simpl skip_run. destruct (Z.eqb_spec d 0) as [->|Hne].
    + rewrite get_cons_S. simpl insert. rewrite fill_below_cons.
      destruct IH as [D V]; [lia|]. split.
      * constructor; [unfold digit; lia|done].
      * rewrite !dval_cons, V. lia.
    + rewrite get_cons_0. simpl. rewrite sc_small by lia. split.
      * constructor; [unfold digit; lia|done].
      * lia.
Qed.

(** The scans of [abs_inc] and [abs_dec] stop inside the vector. *)
Lemma skip_run_nine_in_bounds (ds : list Z) :
  (skip_run 9 (ds ++ [0%Z]) < length (ds ++ [0%Z]))%nat.
Proof.
  induction ds as [|d ds IH]; simpl; [lia|]. destruct (d =? 9); lia.
Qed.

Lemma skip_run_zero_in_bounds ds :
  Forall digit ds → 0 < dval ds → (skip_run 0 ds < length ds)%nat.
Proof.
  induction 1 as [|d ds Hd _ IH]; intros Hv; [simpl in Hv; lia|].
  rewrite dval_cons in Hv. simpl. destruct (Z.eqb_spec d 0); [|lia].
  specialize (IH ltac:(lia)). lia.
Qed.

Lemma abs_inc_spec x :
  wf x → sign_ x ≠ 0 →
  wf (abs_inc x) ∧ value (abs_inc x) = sign_ x * (dval (digits_ x) + 1).
Proof.
  intros Hx Hs. unfold abs_inc. cbv zeta.
  pose proof (sign_cases x Hx Hs). destruct Hx as (Hd & _).
  pose proof (dval_bound _ Hd) as Hb.
  destruct (inc_run (digits_ x ++ [0])) as [D V].
  { apply Forall_app. split; [done|]. repeat constructor; unfold digit; lia. }
  { rewrite dval_app, length_app, Nat.add_comm. simpl length. rewrite pow10_S.
    simpl dval. lia. }
  rewrite dval_app in V. simpl dval in V.
  destruct (wf_normalised_nz _ (sign_ x) D ltac:(lia) ltac:(lia)) as [Hw Hv].
  split; [done|]. rewrite Hv, V. lia.
Qed.

Lemma abs_dec_spec x :
  wf x → sign_ x ≠ 0 →
  wf (abs_dec x) ∧ value (abs_dec x) = sign_ x * (dval (digits_ x) - 1).
Proof.
  intros Hx Hs. unfold abs_dec. cbv zeta.
  pose proof (sign_cases x Hx Hs). pose proof (wf_dval_pos x Hx Hs) as Hp.
  destruct Hx as (Hd & _).
  destruct (dec_run (digits_ x) Hd Hp) as [D V].
  destruct (wf_normalised _ (sign_ x) D ltac:(lia)) as [Hw Hv].
  split; [done|]. unfold normalised in Hv. rewrite Hv, V. done.
Qed.

Lemma Int_inc_spec x : wf x → wf (Int_inc x) ∧ value (Int_inc x) = value x + 1.
Proof.
  intros Hx. unfold Int_inc. destruct (Z.eqb_spec (sign_ x) 0) as [E|Hs].
  - assert (digits_ x = []) as Ed by (by apply Hx).
    unfold value. rewrite Ed, E. simpl. unfold wf. simpl.
    split; [|done]. split_and!; [repeat constructor; unfold digit; lia|done|lia|done].
  - destruct (sign_cases x Hx Hs) as [E|E]; rewrite E; simpl.
    + destruct (abs_inc_spec x Hx Hs) as [Hw Hv]. split; [done|].
      rewrite Hv. unfold value. rewrite E. lia.
    + destruct (abs_dec_spec x Hx Hs) as [Hw Hv]. split; [done|].
      rewrite Hv. unfold value. rewrite E. lia.
Qed.

Lemma Int_dec_spec x : wf x → wf (Int_dec x) ∧ value (Int_dec x) = value x - 1.
Proof.
  intros Hx. unfold Int_dec. destruct (Z.eqb_spec (sign_ x) 0) as [E|Hs].
  - assert (digits_ x = []) as Ed by (by apply Hx).
    unfold value. rewrite Ed, E. simpl. unfold wf. simpl.
    split; [|done]. split_and!; [repeat constructor; unfold digit; lia|done|lia|done].
  - destruct (sign_cases x Hx Hs) as [E|E]; rewrite E; simpl.
    + destruct (abs_dec_spec x Hx Hs) as [Hw Hv]. split; [done|].
      rewrite Hv. unfold value. rewrite E. lia.
    + destruct (abs_inc_spec x Hx Hs) as [Hw Hv]. split; [done|].
      rewrite Hv. unfold value. rewrite E. lia.
Qed.

(** ** Literals and rendering *)

Lemma char_val_to_char_digit d : digit d → char_val (to_char (d + c_0)) = d + c_0.
Proof.
  intros [Hlo Hhi].
  assert (d = 0 ∨ d = 1 ∨ d = 2 ∨ d = 3 ∨ d = 4 ∨ d = 5 ∨ d = 6 ∨ d = 7
          ∨ d = 8 ∨ d = 9) as Hd by lia.
  clear Hlo Hhi. repeat (destruct Hd as [->|Hd]; [reflexivity|]). by subst.
Qed.

Lemma is_digit_char_spec c : is_digit_char c = true ↔ c_0 ≤ char_val c ≤ c_9.
Proof. unfold is_digit_char. rewrite andb_true_iff, !Z.leb_le. done. Qed.

Lemma to_char_char_val c : is_digit_char c = true → to_char (char_val c) = c.
Proof.
  rewrite is_digit_char_spec. unfold char_val, to_char, c_0, c_9.
  pose proof (nat_ascii_bounded c) as Hb.
  destruct (Z.ltb_spec (Z.of_nat (nat_of_ascii c)) 128); intros Hc; [|lia].
  rewrite Z.mod_small, Nat2Z.id by lia. apply ascii_nat_embedding.
Qed.

Lemma digit_of_digit c : is_digit_char c = true → digit (digit_of c).
Proof. rewrite is_digit_char_spec. unfold digit, digit_of, c_0, c_9. lia. Qed.

Lemma digit_of_to_char d : digit d → digit_of (to_char (d + c_0)) = d.
Proof. intros. unfold digit_of. rewrite char_val_to_char_digit by done. lia. Qed.

Lemma to_char_digit_is_digit d : digit d → is_digit_char (to_char (d + c_0)) = true.
Proof.
  intros Hd. rewrite is_digit_char_spec, char_val_to_char_digit by done.
  unfold digit, c_0, c_9 in *. lia.
Qed.

Lemma digit_not_sign c : is_digit_char c = true → is_sign_char c = false.
Proof.
  rewrite is_digit_char_spec. unfold is_sign_char, c_0, c_9, c_plus, c_minus.
  intros. apply orb_false_iff. rewrite !Z.eqb_neq. lia.
Qed.

Lemma strlen_no_nul s : Forall (λ c, char_val c ≠ 0) s → strlen s = length s.
Proof.
  induction 1 as [|c s Hc _ IH]; [done|]. simpl.
  destruct (Z.eqb_spec (char_val c) 0); [done|]. by rewrite IH.
Qed.

Lemma forallb_digit_Forall s :
  forallb is_digit_char s = true → Forall (λ c, is_digit_char c = true) s.
Proof.
  induction s as [|c s IH]; simpl; [constructor|].
  rewrite andb_true_iff. intros [? ?]. constructor; auto.
Qed.

(** Storing [f i] at every index fills the vector with [f] of the indices. *)
Lemma for_loop_fill (f : nat → Z) n init :
  length init = n →
  for_loop n (λ i ds, <[i := f i]> ds) init = map f (seq 0 n).
Proof.
  intros Hl.
  set (P := λ (i : nat) (ds : list Z),
              length ds = n ∧ take i ds = map f (seq 0 i)).
  assert (P n (for_loop n (λ i ds, <[i := f i]> ds) init)) as [L T].
  { apply for_loop_ind.
    - unfold P. by rewrite take_0.
    - intros i ds Hi [L T]. unfold P. rewrite length_insert. split; [done|].
      rewrite (take_S_r _ _ (f i)) by (apply list_lookup_insert_eq; lia).
      rewrite take_insert_ge, T, seq_S, map_app by lia. done. }
  by rewrite take_ge in T by lia.
Qed.

(** The digit loop of the constructor reads the body of the literal
    backwards. *)
Lemma read_backwards pre body m :
  Forall (λ c, is_digit_char c = true) body →
  m = (length pre + length body - 1)%nat →
  map (λ i, sc (char_at (pre ++ body) (m - i) - c_0)) (seq 0 (length body))
  = rev (map digit_of body).
Proof.
  intros Hb ->.
  apply (List.nth_ext _ _ (sc (char_at (pre ++ body)
                                 (length pre + length body - 1 - 0) - c_0))
           (digit_of zero)).
  { by rewrite List.length_map, List.length_seq, List.length_rev, List.length_map. }
  intros i Hi. rewrite List.length_map, List.length_seq in Hi.
  rewrite (List.map_nth (λ i, sc (char_at (pre ++ body)
                                   (length pre + length body - 1 - i) - c_0))).
  rewrite List.seq_nth by done. simpl Nat.add.
  rewrite List.rev_nth by (by rewrite List.length_map).
  rewrite List.length_map, (List.map_nth digit_of).
  unfold char_at.
  rewrite List.app_nth2 by lia.
  replace (length pre + length body - 1 - i - length pre)%nat
    with (length body - S i)%nat by lia.
  assert (is_digit_char (nth (length body - S i) body zero) = true) as Hd.
  { rewrite Forall_forall in Hb. apply Hb, list_elem_of_In, List.nth_In. lia. }
  apply digit_of_digit in Hd. unfold digit, digit_of in *.
  apply sc_small. lia.
Qed.

Lemma digits_check pre body :
  Forall (λ c, is_digit_char c = true) body →
  forallb (λ i, negb ((char_at (pre ++ body) i <? c_0)
                      || (char_at (pre ++ body) i >? c_9)))
          (seq (length pre) (length body)) = true.
Proof.
  intros Hb. apply forallb_forall. intros i Hi. apply in_seq in Hi.
  unfold char_at. rewrite List.app_nth2 by lia.
  assert (is_digit_char (nth (i - length pre) body zero) = true) as Hd.
  { rewrite Forall_forall in Hb. apply Hb, list_elem_of_In, List.nth_In. lia. }
  apply is_digit_char_spec in Hd.
  destruct (Z.ltb_spec (char_val (nth (i - length pre) body zero)) c_0); [lia|].
  destruct (Z.gtb_spec (char_val (nth (i - length pre) body zero)) c_9); [lia|].
  done.
Qed.

(** What the constructor makes of a sign-less literal. *)
Lemma parse_unsigned body :
  body ≠ [] → Forall (λ c, is_digit_char c = true) body →
  Int_of_chars body = Ok (normalised (rev (map digit_of body)) 1).
Proof.
  intros Hne Hb. unfold Int_of_chars.
  rewrite strlen_no_nul; cycle 1.
  { eapply Forall_impl; [exact Hb|]. intros c Hc. apply is_digit_char_spec in Hc.
    unfold c_0 in Hc. lia. }
  destruct body as [|b body']; [done|]. set (body := b :: body') in *.
  assert (is_digit_char b = true) as Hd by (by inversion Hb).
  pose proof (digit_not_sign b Hd) as Hs. unfold is_sign_char in Hs.
  apply orb_false_iff in Hs as [Hp Hm].
  assert (char_at body 0 = char_val b) as E0 by done.
  assert (is_integer body (length body) = true) as ->.
  { unfold is_integer. rewrite E0, Hp, Hm. cbn [orb].
    rewrite andb_false_r, orb_false_r, Nat.sub_0_r.
    change (length body =? 0)%nat with false. cbv iota.
    apply (digits_check [] body Hb). }
  simpl negb. cbv iota zeta. rewrite E0, Hp, Hm. simpl orb. cbv iota.
  rewrite Nat.sub_0_r.
  rewrite for_loop_fill by (by rewrite length_replicate).
  pose proof (read_backwards [] body (length body - 1) Hb) as R.
  rewrite app_nil_l in R.
  rewrite R by (simpl; lia). done.
Qed.

(** What the constructor makes of a literal with a sign. *)
Lemma parse_signed c body :
  is_sign_char c = true →
  body ≠ [] → Forall (λ c, is_digit_char c = true) body →
  Int_of_chars (c :: body)
  = Ok (normalised (rev (map digit_of body))
                   (if char_val c =? c_minus then -1 else 1)).
Proof.
  intros Hs Hne Hb. unfold Int_of_chars.
  rewrite strlen_no_nul; cycle 1.
  { constructor.
    - unfold is_sign_char, c_plus, c_minus in Hs. apply orb_true_iff in Hs.
      rewrite !Z.eqb_eq in Hs. lia.
    - eapply Forall_impl; [exact Hb|]. intros c' Hc. apply is_digit_char_spec in Hc.
      unfold c_0 in Hc. lia. }
  assert (char_at (c :: body) 0 = char_val c) as E0 by done.
  unfold is_sign_char in Hs.
  assert (is_integer (c :: body) (length (c :: body)) = true) as ->.
  { unfold is_integer. rewrite E0, Hs. simpl length.
    destruct body as [|b body']; [done|]. cbn [Nat.eqb andb orb].
    replace (S (length (b :: body')) - 1)%nat with (length (b :: body')) by lia.
    apply (digits_check [c] (b :: body') Hb). }
  simpl negb. cbv iota zeta. rewrite E0. rewrite orb_comm in Hs. rewrite Hs.
  simpl length. rewrite Nat.sub_succ, Nat.sub_0_r.
  rewrite for_loop_fill by (by rewrite length_replicate).
  pose proof (read_backwards [c] body (length body) Hb) as R.
  change ([c] ++ body) with (c :: body) in R.
  rewrite R by (simpl; lia). done.
Qed.

Lemma valid_literal_body s :
  valid_literal s = true →
  literal_body s ≠ [] ∧ Forall (λ c, is_digit_char c = true) (literal_body s).
Proof.
  unfold valid_literal. rewrite andb_true_iff, negb_true_iff, bool_decide_eq_false.
  intros [? ?]. split; [done|]. by apply forallb_digit_Forall.
Qed.

(** The constructor accepts every valid literal. *)
Lemma parse_valid s :
  valid_literal s = true →
  Int_of_chars s
  = Ok (normalised (rev (map digit_of (literal_body s))) (literal_sign s)).
Proof.
  intros Hv. destruct (valid_literal_body s Hv) as [Hne Hb].
  destruct s as [|c r]; [done|]. unfold literal_body, literal_sign in *.
  destruct (is_sign_char c) eqn:Hs.
  - by apply parse_signed.
  - rewrite parse_unsigned by done. do 2 f_equal.
    unfold is_sign_char in Hs. apply orb_false_iff in Hs as [_ ->]. done.
Qed.

(** Rendering the kept digits gives back the characters after the leading
    zeros. *)
Lemma render_skip_zeros body :
  Forall (λ c, is_digit_char c = true) body →
  map (λ d, to_char (d + c_0)) (skip_zeros (map digit_of body))
  = strip_zeros body.
Proof.
  induction 1 as [|c body Hc Hb IH]; [done|]. simpl.
  unfold digit_of at 1.
  destruct (Z.eqb_spec (char_val c) c_0) as [E|E].
  - rewrite E, Z.sub_diag. simpl. done.
  - destruct (Z.eqb_spec (char_val c - c_0) 0); [lia|]. simpl. f_equal.
    + unfold digit_of. rewrite Z.sub_add. by apply to_char_char_val.
    + clear IH. induction Hb as [|c' body' Hc' _ IH]; [done|]. simpl. f_equal; [|done].
      unfold digit_of. rewrite Z.sub_add. by apply to_char_char_val.
Qed.

Lemma rlz_rev ds : rev (remove_leading_zeros ds) = skip_zeros (rev ds).
Proof. unfold remove_leading_zeros. apply rev_involutive. Qed.

Lemma rev_eq_nil {A} (l : list A) : rev l = [] ↔ l = [].
Proof.
  split; [|by intros ->]. intros E. apply (f_equal (@rev A)) in E.
  by rewrite rev_involutive in E.
Qed.

(** Rendering what the constructor made of a valid literal gives its
    canonical form. *)
Lemma render_parsed s :
  valid_literal s = true →
  to_chars (normalised (rev (map digit_of (literal_body s))) (literal_sign s))
  = canonical s.
Proof.
  intros Hv. destruct (valid_literal_body s Hv) as [_ Hb].
  unfold to_chars, normalised, canonical. cbv zeta. simpl digits_. simpl sign_.
  rewrite rlz_rev, rev_involutive.
  pose proof (render_skip_zeros _ Hb) as Hr.
  assert (literal_sign s = 1 ∨ literal_sign s = -1) as Hs.
  { unfold literal_sign. destruct s; [lia|]. destruct (_ =? _); lia. }
  case_bool_decide as E.
  - apply (f_equal (@rev Z)) in E. rewrite rlz_rev, rev_involutive in E.
    simpl in E. rewrite E in Hr. simpl in Hr. rewrite <-Hr. done.
  - assert (skip_zeros (map digit_of (literal_body s)) ≠ []) as E'.
    { intros E'. apply E. apply (proj1 (rev_eq_nil _)).
      by rewrite rlz_rev, rev_involutive. }
    rewrite Hr. rewrite bool_decide_eq_false_2; cycle 1.
    { rewrite <-Hr. intros E''. apply map_eq_nil in E''. done. }
    destruct Hs as [-> | ->]; done.
Qed.

(** The constructor reads a rendering back. *)
Lemma parse_rendered x : wf x → Int_of_chars (to_chars x) = Ok x.
Proof.
  intros Hx. unfold to_chars.
  destruct Hx as (Hd & Hl & Hs & Hz).
  destruct (Z.eqb_spec (sign_ x) 0) as [E0|E0].
  { destruct x as [ds s]. simpl in *. subst s. rewrite (proj1 Hz) by done. done. }
  assert (digits_ x ≠ []) as Hne by tauto.
  set (body := map (λ d, to_char (d + c_0)) (rev (digits_ x))).
  assert (body ≠ []) as Hbne.
  { unfold body. intros E. apply map_eq_nil in E.
    apply (proj1 (rev_eq_nil _)) in E. done. }
  assert (Forall (λ c, is_digit_char c = true) body) as Hb.
  { unfold body. apply Forall_map, Forall_forall. intros d Hin.
    apply to_char_digit_is_digit. rewrite Forall_forall in Hd. apply Hd.
    apply list_elem_of_In. apply list_elem_of_In in Hin. by apply in_rev. }
  assert (rev (map digit_of body) = digits_ x) as Hback.
  { unfold body. rewrite map_map. rewrite <-(rev_involutive (digits_ x)) at 2.
    f_equal. rewrite <-(map_id (rev (digits_ x))) at 2.
    apply map_ext_in. intros d Hin. apply digit_of_to_char.
    rewrite Forall_forall in Hd. apply Hd, list_elem_of_In. by apply in_rev. }
  assert (∀ s, normalised (digits_ x) s = mkInt (digits_ x) s) as Hn.
  { intros s. unfold normalised. rewrite rlz_id by done.
    by rewrite bool_decide_eq_false_2. }
  destruct (Z.eqb_spec (sign_ x) (-1)) as [E1|E1].
  - simpl app. rewrite parse_signed, Hback, Hn by done.
    simpl. rewrite <-E1. by destruct x.
  - simpl app. rewrite parse_unsigned, Hback, Hn by done.
    replace 1 with (sign_ x) by lia. by destruct x.
Qed.

(** ** Random generation *)

Lemma last_get (ds : list Z) : ds ≠ [] → last ds = Some (get ds (length ds - 1)).
Proof.
  intros Hne. rewrite last_lookup. unfold get.
  replace (Nat.pred (length ds)) with (length ds - 1)%nat by lia.
  destruct (lookup_lt_is_Some_2 ds (length ds - 1)) as [d ->]; [|done].
  destruct ds; [done|]. simpl. lia.
Qed.

(** Whatever the engine draws within the ranges of its distributions, the
    value generated is well formed. *)
Lemma Int_random_spec digits limit draw most x :
  (∀ i, digit (draw i)) → 1 ≤ most ≤ 9 →
  Int_random digits limit draw most = Ok x → wf x.
Proof.
  intros Hdraw Hmost. unfold Int_random.
  destruct (digits <? -1); [done|]. cbv zeta.
  set (n := if digits =? -1 then limit else Z.to_nat digits).
  change (add_leading_zeros n []) with (replicate n 0).
  rewrite for_loop_fill by apply length_replicate.
  set (ds := map (λ i, sc (draw i)) (seq 0 n)).
  assert (Forall digit ds) as Hds.
  { unfold ds. apply Forall_map, Forall_forall. intros i _. simpl.
    specialize (Hdraw i). unfold digit in *. rewrite sc_small; lia. }
  assert (length ds = n) as Hlen by (unfold ds; by rewrite length_map, length_seq).
  assert (replicate n 0 = [] ↔ ds = []) as Hnil.
  { destruct n; [by destruct ds|]. split; [done|]. intros E. by rewrite E in Hlen. }
  clearbody ds. rewrite (bool_decide_ext _ _ Hnil).
  intros [= <-]. unfold wf. simpl.
  case_bool_decide as Hz.
  - rewrite Hz. simpl. split_and!; [constructor|done|lia|done].
  - simpl andb.
    destruct (Z.eqb_spec (get ds (length ds - 1)) 0) as [E0|E0].
    + rewrite sc_small by lia. split_and!.
      * apply Forall_insert; [done|]. unfold digit. lia.
      * rewrite last_get by (intros E; apply (f_equal length) in E;
          rewrite length_insert in E; by destruct ds).
        rewrite length_insert, get_insert_eq by (destruct ds; [done|simpl; lia]).
        intros [= ->]. lia.
      * lia.
      * split; [lia|]. intros E. apply (f_equal length) in E.
        rewrite length_insert in E. by destruct ds.
    + split_and!; [done| |lia|split; [lia|done]].
      rewrite last_get by done. by intros [= ?].
Qed.

(** ** Every literal the constructor accepts gives a well-formed value *)

Lemma Int_of_chars_wf s x : Int_of_chars s = Ok x → wf x.
Proof.
  unfold Int_of_chars. set (len := strlen s).
  destruct (is_integer s len) eqn:Hi; [|done]. simpl negb. cbv iota zeta.
  rewrite for_loop_fill by apply length_replicate.
  intros [= <-].
  rewrite (orb_comm (char_at s 0 =? c_minus)).
  set (s0 := if (char_at s 0 =? c_plus) || (char_at s 0 =? c_minus)
             then 1%nat else 0%nat).
  apply (wf_normalised _ (if char_at s 0 =? c_minus then -1 else 1)).
  - unfold is_integer in Hi. fold s0 in Hi.
    destruct ((len =? 0)%nat || (len =? 1)%nat && _) in Hi; [done|].
    rewrite forallb_forall in Hi.
    apply Forall_map, Forall_forall. intros i Hin. simpl.
    apply list_elem_of_In, in_seq in Hin.
    specialize (Hi (len - 1 - i)%nat ltac:(apply in_seq; lia)).
    apply negb_true_iff, orb_false_iff in Hi as [H1 H2].
    apply Z.ltb_ge in H1. rewrite Z.gtb_ltb in H2. apply Z.ltb_ge in H2.
    unfold digit, c_0, c_9 in *. rewrite sc_small; lia.
  - destruct (char_at s 0 =? c_minus); lia.
Qed.

(** ** The Euclidean loop *)

Lemma gcd_loop_S n fuel a b :
  gcd_loop (S n) fuel a b =
  if negb (is_zero b) then (r ← Int_mod fuel a b; gcd_loop n fuel b r) else Ok a.
Proof. done. Qed.

Lemma is_zero_value x : wf x → is_zero x = bool_decide (value x = 0).
Proof.
  intros Hx. unfold is_zero. pose proof (wf_value_0 x Hx).
  case_bool_decide; destruct (Z.eqb_spec (sign_ x) 0); tauto.
Qed.

(** The loop ends within [|b| + 1] rounds, on a common divisor of its
    operands that is zero only if both are. *)
Lemma gcd_loop_spec n fuel a b :
  wf a → wf b → (9 ≤ fuel)%nat → Z.abs (value b) < Z.of_nat n →
  ∃ g, gcd_loop n fuel a b = Ok g ∧ wf g
       ∧ (value g | value a) ∧ (value g | value b)
       ∧ (value g = 0 ↔ value a = 0 ∧ value b = 0).
Proof.
  intros Ha Hb Hf. revert a b Ha Hb.
  induction n as [|n IH]; intros a b Ha Hb Hn; [lia|].
  rewrite gcd_loop_S, (is_zero_value b Hb). case_bool_decide as Hz; simpl negb; cbv iota.
  - exists a. rewrite Hz. split_and!; [done|done|done|apply Z.divide_0_r|tauto].
  - assert (sign_ b ≠ 0) as Hs by (by rewrite <-(wf_value_0 b Hb)).
    destruct (Int_mod_spec fuel a b Ha Hb Hs Hf) as (r & E & Wr & Vr).
    rewrite E, res_bind_Ok.
    pose proof (Z.rem_bound_abs (value a) (value b) Hz) as Hr.
    destruct (IH b r Hb Wr ltac:(lia)) as (g & Eg & Wg & Db & Dr & Z0).
    exists g. split; [done|]. split; [done|]. split; [|split; [done|]].
    + rewrite (Z.quot_rem' (value a) (value b)). rewrite Vr in Dr.
      apply Z.divide_add_r; [|done]. by apply Z.divide_mul_l.
    + split; [|tauto]. intros E0. apply Z0 in E0. tauto.
Qed.

(** ** Budgets beyond nine change nothing in a division *)

Lemma Int_div_fuel fuel x y :
  wf x → wf y → sign_ y ≠ 0 → (9 ≤ fuel)%nat → Int_div fuel x y = Int_div 9 x y.
Proof.
  intros Hx Hy Hs Hf.
  destruct (Int_div_spec fuel x y Hx Hy Hs Hf) as (q & E & W & V).
  destruct (Int_div_spec 9 x y Hx Hy Hs ltac:(lia)) as (q' & E' & W' & V').
  rewrite E, E'. f_equal. apply wf_eq; [done..|]. by rewrite V, V'.
Qed.

Lemma Int_mod_fuel fuel x y :
  wf x → wf y → sign_ y ≠ 0 → (9 ≤ fuel)%nat → Int_mod fuel x y = Int_mod 9 x y.
Proof.
  intros Hx Hy Hs Hf.
  destruct (Int_mod_spec fuel x y Hx Hy Hs Hf) as (q & E & W & V).
  destruct (Int_mod_spec 9 x y Hx Hy Hs ltac:(lia)) as (q' & E' & W' & V').
  rewrite E, E'. f_equal. apply wf_eq; [done..|]. by rewrite V, V'.
Qed.

(** ** The Newton loop of the square root *)

Lemma sqrt_loop_0 fuel integer cur pre :
  Int_eqb cur pre = false → sqrt_loop 0 fuel integer cur pre = OutOfFuel.
Proof. intros H. simpl. by rewrite H. Qed.

Lemma sqrt_loop_step n fuel integer cur pre q c :
  Int_eqb cur pre = false →
  Int_div fuel integer cur = Ok q →
  Int_div fuel (Int_add cur q) (Int_of_int 2) = Ok c →
  sqrt_loop (S n) fuel integer cur pre = sqrt_loop n fuel integer c cur.
Proof. intros H E1 E2. simpl. rewrite H. simpl. rewrite E1. simpl. by rewrite E2. Qed.

(** One Newton step on concrete operands, for any budget of at least
    nine. *)
Lemma newton_step fuel integer cur q c :
  (9 ≤ fuel)%nat →
  wf integer → wf cur → sign_ cur ≠ 0 →
  Int_div 9 integer cur = Ok q →
  Int_div 9 (Int_add cur q) (Int_of_int 2) = Ok c →
  Int_div fuel integer cur = Ok q
  ∧ Int_div fuel (Int_add cur q) (Int_of_int 2) = Ok c.
Proof.
  intros Hf Wi Wc Hs E1 E2.
  rewrite Int_div_fuel by done. split; [done|].
  destruct (Int_div_spec 9 integer cur Wi Wc Hs ltac:(lia)) as (q' & E & Wq & _).
  assert (q' = q) as -> by congruence.
  rewrite Int_div_fuel; [done| |by apply (bool_decide_unpack _)|done|done].
  by apply Int_add_spec.
Qed.

Ltac closed_wf := apply (bool_decide_unpack _); vm_compute; exact I.

(** From 24 the iteration falls into the cycle 4, 5, 4, 5, ... *)
Lemma sqrt_24_cycle fuel n :
  (9 ≤ fuel)%nat →
  sqrt_loop n fuel (Int_of_int 24) (Int_of_int 4) (Int_of_int 5) = OutOfFuel
  ∧ sqrt_loop n fuel (Int_of_int 24) (Int_of_int 5) (Int_of_int 4) = OutOfFuel.
Proof.
  intros Hf. induction n as [|n [IH1 IH2]].
  - split; by apply sqrt_loop_0.
  - destruct (newton_step fuel (Int_of_int 24) (Int_of_int 4)
                (Int_of_int 6) (Int_of_int 5)) as [A1 A2];
      [done|closed_wf|closed_wf|done|by vm_compute|by vm_compute|].
    destruct (newton_step fuel (Int_of_int 24) (Int_of_int 5)
                (Int_of_int 4) (Int_of_int 4)) as [B1 B2];
      [done|closed_wf|closed_wf|done|by vm_compute|by vm_compute|].
    split.
    + rewrite (sqrt_loop_step _ _ _ (Int_of_int 4) (Int_of_int 5) _ _ eq_refl A1 A2). exact IH2.
    + rewrite (sqrt_loop_step _ _ _ (Int_of_int 5) (Int_of_int 4) _ _ eq_refl B1 B2). exact IH1.
Qed.

Lemma sqrt_24_entry fuel :
  Int_sqrt fuel (Int_of_int 24)
  = sqrt_loop fuel fuel (Int_of_int 24) (mkInt [1] 1) (Int_of_int (-1)).
Proof. done. Qed.

Lemma sqrt_24_prefix fuel n :
  (9 ≤ fuel)%nat →
  sqrt_loop n fuel (Int_of_int 24) (mkInt [1] 1) (Int_of_int (-1)) = OutOfFuel.
Proof.
  intros Hf.
  destruct (newton_step fuel (Int_of_int 24) (mkInt [1] 1)
              (Int_of_int 24) (Int_of_int 12)) as [A1 A2];
    [done|closed_wf|closed_wf|done|by vm_compute|by vm_compute|].
  destruct (newton_step fuel (Int_of_int 24) (Int_of_int 12)
              (Int_of_int 2) (Int_of_int 7)) as [B1 B2];
    [done|closed_wf|closed_wf|done|by vm_compute|by vm_compute|].
  destruct (newton_step fuel (Int_of_int 24) (Int_of_int 7)
              (Int_of_int 3) (Int_of_int 5)) as [C1 C2];
    [done|closed_wf|closed_wf|done|by vm_compute|by vm_compute|].
  destruct (newton_step fuel (Int_of_int 24) (Int_of_int 5)
              (Int_of_int 4) (Int_of_int 4)) as [D1 D2];
    [done|closed_wf|closed_wf|done|by vm_compute|by vm_compute|].
  destruct n as [|n]; [by apply sqrt_loop_0|].
  rewrite (sqrt_loop_step _ _ _ (mkInt [1] 1) (Int_of_int (-1)) _ _ eq_refl A1 A2).
  destruct n as [|n]; [by apply sqrt_loop_0|].
  rewrite (sqrt_loop_step _ _ _ (Int_of_int 12) (mkInt [1] 1) _ _ eq_refl B1 B2).
  destruct n as [|n]; [by apply sqrt_loop_0|].
  rewrite (sqrt_loop_step _ _ _ (Int_of_int 7) (Int_of_int 12) _ _ eq_refl C1 C2).
  destruct n as [|n]; [by apply sqrt_loop_0|].
  rewrite (sqrt_loop_step _ _ _ (Int_of_int 5) (Int_of_int 7) _ _ eq_refl D1 D2).
  by apply sqrt_24_cycle.
Qed.

(** ** Bases of magnitude one *)

Lemma unit_magnitude b :
  wf b →
  (digits b =? 1)%nat && (get (digits_ b) 0 =? 1)
  = bool_decide (Z.abs (value b) = 1).
Proof.
  intros Hb. rewrite (wf_abs_value b Hb). unfold digits.
  destruct Hb as (Hd & Hl & _). destruct (digits_ b) as [|d [|d' l]].
  - done.
  - simpl. rewrite get_cons_0.
    case_bool_decide; destruct (Z.eqb_spec d 1); lia.
  - pose proof (dval_lower _ Hd Hl ltac:(done)) as Hlow.
    simpl length in *. replace (S (S (length l)) - 1)%nat with (S (length l)) in Hlow by lia.
    rewrite pow10_S in Hlow. pose proof (pow10_pos (length l)).
    rewrite bool_decide_eq_false_2 by lia. done.
Qed.

(** * The specification's claims *)

(** C1: for all values [a] and [b] with [b != 0], division and remainder
    return (within nine iterations of every inner loop) a quotient [q] and a
    remainder [r] with [a == q * b + r]; the sign of [r] is zero or the sign
    of [a], and [q] is the quotient rounded toward zero. *)
Theorem div_mod_identity (fuel : nat) (a b : Int) :
  wf a → wf b → is_zero b = false → (9 ≤ fuel)%nat →
  ∃ q r,
    Int_div fuel a b = Ok q ∧ Int_mod fuel a b = Ok r
    ∧ Int_eqb a (Int_add (Int_mul q b) r) = true
    ∧ (sign_ r = 0 ∨ sign_ r = sign_ a)
    ∧ value q = value a `quot` value b.
Proof.
  intros Ha Hb Hz Hf. unfold is_zero in Hz. apply Z.eqb_neq in Hz.
  destruct (Int_div_spec fuel a b Ha Hb Hz Hf) as (q & Eq & Wq & Vq).
  destruct (Int_mod_spec fuel a b Ha Hb Hz Hf) as (r & Er & Wr & Vr).
  exists q, r. split; [done|]. split; [done|].
  destruct (Int_mul_spec q b Wq Hb) as [Wm Vm].
  destruct (Int_add_spec _ r Wm Wr) as [Ws Vs].
  split; [|split; [|done]].
  - apply Int_eqb_eq, wf_eq; [done..|].
    rewrite Vs, Vm, Vq, Vr. rewrite (Z.quot_rem' (value a) (value b)) at 1. lia.
  - rewrite (wf_sign_sgn r Wr), (wf_sign_sgn a Ha), Vr.
    destruct (decide (value a `rem` value b = 0)) as [E|E].
    + left. rewrite E. done.
    + right. apply Z.rem_sign_nz; [|done]. by rewrite (wf_value_0 b Hb).
Qed.

(** C2: the Newton loop of the integer square root does not exit for every
    input of at least 16.  On 24 the iterates run 1, 12, 7, 5 and then
    alternate between 4 and 5, since [(5 + 24/5)/2 = 4] and
    [(4 + 24/4)/2 = 5]: whatever the budget, the loop never returns. *)
Theorem sqrt_diverges_on_24 :
  (∀ fuel, Int_sqrt fuel (Int_of_int 24) = OutOfFuel)
  ∧ Int_div 9 (Int_of_int 24) (Int_of_int 5) = Ok (Int_of_int 4)
  ∧ Int_div 9 (Int_add (Int_of_int 5) (Int_of_int 4)) (Int_of_int 2)
    = Ok (Int_of_int 4)
  ∧ Int_div 9 (Int_of_int 24) (Int_of_int 4) = Ok (Int_of_int 6)
  ∧ Int_div 9 (Int_add (Int_of_int 4) (Int_of_int 6)) (Int_of_int 2)
    = Ok (Int_of_int 5).
Proof.
  split; [|split_and!; by vm_compute].
  intros fuel. destruct (decide (9 ≤ fuel)%nat) as [Hf|Hf].
  - rewrite sqrt_24_entry. by apply sqrt_24_prefix.
  - do 9 (destruct fuel as [|fuel]; [by vm_compute|]). lia.
Qed.

(** C3, as the code has it: for every base [b] and every negative exponent
    [e], [pow(b, e)] is 1 or -1 when [b] has magnitude one (-1 exactly for
    [b = -1] and an odd [e]); otherwise it fails with a domain error if [b]
    is zero and returns zero if not. *)
Theorem pow_negative_exp (fuel : nat) (b e m : Int) :
  wf b → is_negative e = true →
  Int_pow fuel b e m =
  if bool_decide (Z.abs (value b) = 1)
  then Ok (if bool_decide (value b = -1) && is_odd e
           then Int_of_int (-1) else Int_of_int 1)
  else if is_zero b then Throw DomainError else Ok (Int_of_int 0).
Proof.
  intros Hb He. unfold Int_pow. rewrite (unit_magnitude b Hb), He.
  case_bool_decide as H1; [|done].
  pose proof (wf_sign_sgn b Hb) as Hs.
  assert ((sign_ b =? -1) = bool_decide (value b = -1)) as ->; [|done].
  case_bool_decide; destruct (Z.eqb_spec (sign_ b) (-1)); lia.
Qed.

(** C4, as the code has it: whenever [gcd(a, b)] is not zero, that is
    unless [a] and [b] are both zero, it divides [a] and [b] with zero
    remainder; and for non-zero [a] and [b], [lcm(a, b) * gcd(a, b) == a * b],
    which is [abs(a * b)] when [a] and [b] have the same sign. *)
Theorem gcd_divides_lcm_product (fuel : nat) (a b : Int) :
  wf a → wf b → (9 ≤ fuel)%nat → Z.abs (value b) < Z.of_nat fuel →
  ∃ g,
    Int_gcd fuel a b = Ok g
    ∧ (is_zero g = true ↔ is_zero a = true ∧ is_zero b = true)
    ∧ (is_zero g = false →
       Int_mod fuel a g = Ok Int_zero ∧ Int_mod fuel b g = Ok Int_zero)
    ∧ (is_zero a = false → is_zero b = false →
       ∃ l, Int_lcm fuel a b = Ok l
            ∧ Int_eqb (Int_mul l g) (Int_mul a b) = true
            ∧ (sign_ a = sign_ b →
               Int_eqb (Int_mul l g) (Int_abs (Int_mul a b)) = true)).
Proof.
  intros Ha Hb Hf Hn. unfold Int_gcd.
  destruct (gcd_loop_spec fuel fuel a b Ha Hb Hf Hn) as (g & E & Wg & Da & Db & Z0).
  exists g. split; [done|].
  rewrite !is_zero_value, !bool_decide_eq_true, !bool_decide_eq_false by done.
  split; [|split].
  - done.
  - intros Hg. assert (sign_ g ≠ 0) as Hs by (by rewrite <-(wf_value_0 g Wg)).
    destruct (Int_mod_spec fuel a g Ha Wg Hs Hf) as (ra & Era & Wra & Vra).
    destruct (Int_mod_spec fuel b g Hb Wg Hs Hf) as (rb & Erb & Wrb & Vrb).
    rewrite Era, Erb. split; f_equal; apply wf_eq; try done; try apply wf_zero.
    + rewrite Vra. by apply Z.rem_divide.
    + rewrite Vrb. by apply Z.rem_divide.
  - intros Hza Hzb. unfold Int_lcm.
    rewrite !is_zero_value by done.
    rewrite !bool_decide_eq_false_2 by done. simpl orb. cbv iota.
    unfold Int_gcd. rewrite E, res_bind_Ok.
    assert (value g ≠ 0) as Hg by tauto.
    assert (sign_ g ≠ 0) as Hs by (by rewrite <-(wf_value_0 g Wg)).
    destruct (Int_mul_spec a b Ha Hb) as [Wab Vab].
    destruct (Int_div_spec fuel (Int_mul a b) g Wab Wg Hs Hf) as (l & El & Wl & Vl).
    exists l. split; [done|].
    destruct (Int_mul_spec l g Wl Wg) as [Wlg Vlg].
    assert (value (Int_mul l g) = value (Int_mul a b)) as Ev.
    { rewrite Vlg, Vl, Vab.
      assert ((value a * value b) `rem` value g = 0) as Er
        by (apply Z.rem_divide; [done|by apply Z.divide_mul_l]).
      pose proof (Z.quot_rem' (value a * value b) (value g)). lia. }
    split; [by apply Int_eqb_eq, wf_eq|].
    intros Es. destruct (Int_abs_spec _ Wab) as [Wabs Vabs].
    apply Int_eqb_eq, wf_eq; [done..|]. rewrite Ev, Vabs, Vab.
    rewrite (wf_sign_sgn a Ha), (wf_sign_sgn b Hb) in Es. nia.
Qed.

(** What does hold of the representation invariant: conversion from every
    [int] but [INT_MIN], every accepted literal, every random value, and
    negation, absolute value, the four arithmetic operators, the remainder,
    increment and decrement on well-formed operands all give well-formed
    values. *)
Corollary invariant_kept (fuel : nat) (a b : Int) :
  wf a → wf b →
  (∀ z, INT_MIN < z ≤ INT_MAX → wf (Int_of_int z))
  ∧ (∀ s x, Int_of_chars s = Ok x → wf x)
  ∧ (∀ digits limit draw most x,
       (∀ i, digit (draw i)) → 1 ≤ most ≤ 9 →
       Int_random digits limit draw most = Ok x → wf x)
  ∧ wf (Int_neg a) ∧ wf (Int_abs a)
  ∧ wf (Int_add a b) ∧ wf (Int_sub a b) ∧ wf (Int_mul a b)
  ∧ wf (Int_inc a) ∧ wf (Int_dec a)
  ∧ ((9 ≤ fuel)%nat →
     (∀ q, Int_div fuel a b = Ok q → wf q)
     ∧ (∀ r, Int_mod fuel a b = Ok r → wf r)).
Proof.
  intros Ha Hb. split_and!.
  - intros z Hz. by apply Int_of_int_spec.
  - apply Int_of_chars_wf.
  - apply Int_random_spec.
  - by apply Int_neg_spec.
  - by apply Int_abs_spec.
  - by apply Int_add_spec.
  - by apply Int_sub_spec.
  - by apply Int_mul_spec.
  - by apply Int_inc_spec.
  - by apply Int_dec_spec.
  - intros Hf. destruct (decide (sign_ b = 0)) as [E|E].
    + unfold Int_div, Int_mod. rewrite E. done.
    + destruct (Int_div_spec fuel a b Ha Hb E Hf) as (q & -> & Wq & _).
      destruct (Int_mod_spec fuel a b Ha Hb E Hf) as (r & -> & Wr & _).
      split; by intros ? [= <-].
Qed.

(** C5: construction from the native integer [INT_MIN] yields a value
    outside the representation invariant: the digit vector is empty and the
    sign is -1.  The value renders as a lone ["-"], which the constructor
    from characters rejects. *)
Theorem Int_of_int_INT_MIN_not_wf :
  Int_of_int INT_MIN = mkInt [] (-1)
  ∧ ¬ wf (Int_of_int INT_MIN)
  ∧ to_chars (Int_of_int INT_MIN) = list_ascii_of_string "-"
  ∧ Int_of_chars (to_chars (Int_of_int INT_MIN)) = Throw InvalidLiteral.
Proof.
  split; [done|]. split; [|done].
  apply (bool_decide_eq_false_1 _). by vm_compute.
Qed.

(** C6: the constructor reads the rendering of every value back as that
    value; every valid literal is accepted, and rendering what was read
    gives the literal's normalised canonical form, so that ["+007"] becomes
    ["7"]. *)
Theorem parse_render_roundtrip (a : Int) (s : list ascii) :
  wf a → valid_literal s = true →
  Int_of_chars (to_chars a) = Ok a
  ∧ (∃ x, Int_of_chars s = Ok x ∧ wf x ∧ to_chars x = canonical s)
  ∧ (x ← Int_of_chars (list_ascii_of_string "+007"); Ok (to_chars x))
    = Ok (list_ascii_of_string "7").
Proof.
  intros Ha Hs. split; [by apply parse_rendered|]. split; [|done].
  eexists. split; [by apply parse_valid|]. split; [|by apply render_parsed].
  apply wf_normalised.
  - destruct (valid_literal_body s Hs) as [_ Hb].
    apply Forall_forall. intros d Hd. apply list_elem_of_In, in_rev, in_map_iff in Hd.
    destruct Hd as (c & <- & Hc). apply digit_of_digit.
    rewrite Forall_forall in Hb. by apply Hb, list_elem_of_In.
  - unfold literal_sign. destruct s; [lia|]. destruct (_ =? _); lia.
Qed.

(** C7: in a division or remainder by a non-zero divisor, a budget of nine
    iterations for the inner subtraction loop of every quotient digit
    position is never exceeded (a larger budget gives the same results);
    every quotient digit produced is at most 9, and the running remainder
    with which the loop enters each of its positions is less than ten times
    the shifted divisor. *)
Theorem div_inner_loop_bound (a b : Int) :
  wf a → wf b → is_zero b = false →
  (∃ q r,
     (∀ fuel, (9 ≤ fuel)%nat →
        Int_div fuel a b = Ok q ∧ Int_mod fuel a b = Ok r)
     ∧ Forall digit (digits_ q))
  ∧ (let size := (digits a - digits b + 1)%nat in
     let tmp := mkInt (replicate size 0 ++ digits_ b) 1 in
     let st0 := (Int_abs a, replicate size 0) in
     (digits b ≤ digits a)%nat →
     ∃ st, div_loop 9 size tmp st0 = Ok st
           ∧ Forall digit st.2
           ∧ length (div_entries 9 size tmp st0) = size
           ∧ Forall (λ e, 0 ≤ value e.1 < 10 * value e.2)
                    (div_entries 9 size tmp st0)).
Proof.
  intros Ha Hb Hz. unfold is_zero in Hz. apply Z.eqb_neq in Hz. split.
  - destruct (Int_div_spec 9 a b Ha Hb Hz ltac:(lia)) as (q & Eq & Wq & _).
    destruct (Int_mod_spec 9 a b Ha Hb Hz ltac:(lia)) as (r & Er & _).
    exists q, r. split; [|apply Wq].
    intros fuel Hf. by rewrite Int_div_fuel, Int_mod_fuel.
  - intros size tmp st0 Hlen.
    destruct (div_loop_entry 9 a b Ha Hb Hz ltac:(lia) ltac:(lia))
      as (num1 & r & E & _ & _ & D & _ & EL & EF).
    exists (num1, r). done.
Qed.

(** C8: for every value [a] the fast increment equals [a + 1] computed by
    the full addition and the fast decrement equals [a - 1]; zero goes
    directly to 1 and to -1, and decrementing 1 or incrementing -1 gives the
    canonical zero, with sign zero. *)
Theorem inc_dec_refine (a : Int) :
  wf a →
  Int_inc a = Int_add a (Int_of_int 1)
  ∧ Int_dec a = Int_sub a (Int_of_int 1)
  ∧ Int_inc Int_zero = mkInt [1] 1
  ∧ Int_dec Int_zero = mkInt [1] (-1)
  ∧ Int_dec (Int_of_int 1) = Int_zero
  ∧ Int_inc (Int_of_int (-1)) = Int_zero.
Proof.
  intros Ha.
  destruct (Int_of_int_spec 1 ltac:(done)) as [W1 V1].
  destruct (Int_inc_spec a Ha) as [Wi Vi]. destruct (Int_dec_spec a Ha) as [Wd Vd].
  destruct (Int_add_spec a _ Ha W1) as [Wa Va].
  destruct (Int_sub_spec a _ Ha W1) as [Ws Vs].
  split_and!; try done.
  - apply wf_eq; [done..|]. lia.
  - apply wf_eq; [done..|]. lia.
Qed.

(** C9: for all values [a] and [b] with [b != 0], the remainder is smaller
    in magnitude than the divisor: [abs(a % b) < abs(b)]. *)
Theorem rem_magnitude_bound (fuel : nat) (a b : Int) :
  wf a → wf b → is_zero b = false → (9 ≤ fuel)%nat →
  ∃ r, Int_mod fuel a b = Ok r ∧ Int_lt (Int_abs r) (Int_abs b) = true.
Proof.
  intros Ha Hb Hz Hf. unfold is_zero in Hz. apply Z.eqb_neq in Hz.
  destruct (Int_mod_spec fuel a b Ha Hb Hz Hf) as (r & Er & Wr & Vr).
  exists r. split; [done|].
  destruct (Int_abs_spec r Wr) as [War Var]. destruct (Int_abs_spec b Hb) as [Wab Vab].
  rewrite Int_lt_spec, bool_decide_eq_true, Var, Vab, Vr by done.
  apply Z.rem_bound_abs. by rewrite (wf_value_0 b Hb).
Qed.

(** C10: values that [operator==] finds equal have the same hash, whatever
    the hash of a [signed char] is. *)
Theorem hash_respects_eq (hash_sc : Z → Z) (a b : Int) :
  Int_eqb a b = true → Int_hash hash_sc a = Int_hash hash_sc b.
Proof. intros H. apply Int_eqb_eq in H. by rewrite H. Qed.

(** ** Instances and counterexamples *)

(** [-100 = -14 * 7 + -2]. *)
Lemma div_mod_identity_witness :
  wf (Int_of_int (-100)) ∧ wf (Int_of_int 7)
  ∧ is_zero (Int_of_int 7) = false ∧ (9 ≤ 9)%nat
  ∧ ∃ q r,
      Int_div 9 (Int_of_int (-100)) (Int_of_int 7) = Ok q
      ∧ Int_mod 9 (Int_of_int (-100)) (Int_of_int 7) = Ok r
      ∧ Int_eqb (Int_of_int (-100)) (Int_add (Int_mul q (Int_of_int 7)) r) = true
      ∧ (sign_ r = 0 ∨ sign_ r = sign_ (Int_of_int (-100)))
      ∧ value q = value (Int_of_int (-100)) `quot` value (Int_of_int 7).
Proof.
  assert (wf (Int_of_int (-100))) as Ha by closed_wf.
  assert (wf (Int_of_int 7)) as Hb by closed_wf.
  split; [exact Ha|]. split; [exact Hb|]. split; [reflexivity|].
  split; [apply le_n|].
  exact (div_mod_identity 9 _ _ Ha Hb eq_refl (le_n 9)).
Defined.

(** The claim as stated fails on a base of magnitude one: [pow(1, -1)] is 1,
    not zero. *)
Lemma pow_negative_exp_unit_base :
  is_negative (Int_of_int (-1)) = true
  ∧ is_zero (Int_of_int 1) = false
  ∧ Int_pow 9 (Int_of_int 1) (Int_of_int (-1)) (Int_of_int 0) = Ok (Int_of_int 1)
  ∧ Int_pow 9 (Int_of_int 1) (Int_of_int (-1)) (Int_of_int 0)
    ≠ Ok (Int_of_int 0).
Proof. split_and!; [done..|]. by vm_compute. Qed.

Lemma pow_negative_exp_witness :
  wf (Int_of_int (-1)) ∧ is_negative (Int_of_int (-3)) = true
  ∧ Int_pow 9 (Int_of_int (-1)) (Int_of_int (-3)) (Int_of_int 0) =
    (if bool_decide (Z.abs (value (Int_of_int (-1))) = 1)
     then Ok (if bool_decide (value (Int_of_int (-1)) = -1)
                 && is_odd (Int_of_int (-3))
              then Int_of_int (-1) else Int_of_int 1)
     else if is_zero (Int_of_int (-1)) then Throw DomainError
          else Ok (Int_of_int 0)).
Proof.
  assert (wf (Int_of_int (-1))) as Hb by closed_wf.
  split; [exact Hb|]. split; [reflexivity|].
  exact (pow_negative_exp 9 _ (Int_of_int (-3)) (Int_of_int 0) Hb eq_refl).
Defined.

(** The claim as stated fails on operands of opposite signs:
    [lcm(-4, 6) * gcd(-4, 6)] is -24, and [abs(-4 * 6)] is 24; and
    [gcd(0, 0)] is zero, by which nothing can be divided. *)
Lemma lcm_gcd_opposite_signs :
  Int_gcd 9 (Int_of_int (-4)) (Int_of_int 6) = Ok (Int_of_int 2)
  ∧ Int_lcm 9 (Int_of_int (-4)) (Int_of_int 6) = Ok (Int_of_int (-12))
  ∧ Int_mul (Int_of_int (-12)) (Int_of_int 2) = Int_of_int (-24)
  ∧ Int_abs (Int_mul (Int_of_int (-4)) (Int_of_int 6)) = Int_of_int 24
  ∧ Int_eqb (Int_mul (Int_of_int (-12)) (Int_of_int 2))
            (Int_abs (Int_mul (Int_of_int (-4)) (Int_of_int 6))) = false
  ∧ Int_gcd 9 (Int_of_int 0) (Int_of_int 0) = Ok (Int_of_int 0)
  ∧ Int_mod 9 (Int_of_int 0) (Int_of_int 0) = Throw DivideByZero.
Proof. split_and!; by vm_compute. Qed.

Lemma gcd_divides_lcm_product_witness :
  wf (Int_of_int (-4)) ∧ wf (Int_of_int 6) ∧ (9 ≤ 9)%nat
  ∧ Z.abs (value (Int_of_int 6)) < Z.of_nat 9
  ∧ ∃ g,
      Int_gcd 9 (Int_of_int (-4)) (Int_of_int 6) = Ok g
      ∧ (is_zero g = true
         ↔ is_zero (Int_of_int (-4)) = true ∧ is_zero (Int_of_int 6) = true)
      ∧ (is_zero g = false →
         Int_mod 9 (Int_of_int (-4)) g = Ok Int_zero
         ∧ Int_mod 9 (Int_of_int 6) g = Ok Int_zero)
      ∧ (is_zero (Int_of_int (-4)) = false → is_zero (Int_of_int 6) = false →
         ∃ l, Int_lcm 9 (Int_of_int (-4)) (Int_of_int 6) = Ok l
              ∧ Int_eqb (Int_mul l g)
                        (Int_mul (Int_of_int (-4)) (Int_of_int 6)) = true
              ∧ (sign_ (Int_of_int (-4)) = sign_ (Int_of_int 6) →
                 Int_eqb (Int_mul l g)
                   (Int_abs (Int_mul (Int_of_int (-4)) (Int_of_int 6))) = true)).
Proof.
  assert (wf (Int_of_int (-4))) as Ha by closed_wf.
  assert (wf (Int_of_int 6)) as Hb by closed_wf.
  split; [exact Ha|]. split; [exact Hb|]. split; [apply le_n|].
  split; [reflexivity|].
  exact (gcd_divides_lcm_product 9 _ _ Ha Hb (le_n 9) eq_refl).
Defined.

Lemma parse_render_roundtrip_witness :
  wf (Int_of_int (-42))
  ∧ valid_literal (list_ascii_of_string "-0042") = true
  ∧ Int_of_chars (to_chars (Int_of_int (-42))) = Ok (Int_of_int (-42))
  ∧ (∃ x, Int_of_chars (list_ascii_of_string "-0042") = Ok x ∧ wf x
          ∧ to_chars x = canonical (list_ascii_of_string "-0042"))
  ∧ (x ← Int_of_chars (list_ascii_of_string "+007"); Ok (to_chars x))
    = Ok (list_ascii_of_string "7").
Proof.
  assert (wf (Int_of_int (-42))) as Ha by closed_wf.
  split; [exact Ha|]. split; [reflexivity|].
  exact (parse_render_roundtrip _ (list_ascii_of_string "-0042") Ha eq_refl).
Defined.

(** [99 / 1]: both quotient digits take all nine rounds. *)
Lemma div_inner_loop_bound_witness :
  wf (Int_of_int 99) ∧ wf (Int_of_int 1) ∧ is_zero (Int_of_int 1) = false
  ∧ (∃ q r,
       (∀ fuel, (9 ≤ fuel)%nat →
          Int_div fuel (Int_of_int 99) (Int_of_int 1) = Ok q
          ∧ Int_mod fuel (Int_of_int 99) (Int_of_int 1) = Ok r)
       ∧ Forall digit (digits_ q))
  ∧ (let size := (digits (Int_of_int 99) - digits (Int_of_int 1) + 1)%nat in
     let tmp := mkInt (replicate size 0 ++ digits_ (Int_of_int 1)) 1 in
     let st0 := (Int_abs (Int_of_int 99), replicate size 0) in
     (digits (Int_of_int 1) ≤ digits (Int_of_int 99))%nat →
     ∃ st, div_loop 9 size tmp st0 = Ok st
           ∧ Forall digit st.2
           ∧ length (div_entries 9 size tmp st0) = size
           ∧ Forall (λ e, 0 ≤ value e.1 < 10 * value e.2)
                    (div_entries 9 size tmp st0)).
Proof.
  assert (wf (Int_of_int 99)) as Ha by closed_wf.
  assert (wf (Int_of_int 1)) as Hb by closed_wf.
  split; [exact Ha|]. split; [exact Hb|]. split; [reflexivity|].
  exact (div_inner_loop_bound _ _ Ha Hb eq_refl).
Defined.

(** The bound is attained: eight rounds do not divide 99 by 1. *)
Example div_budget_8_exhausted :
  Int_div 8 (Int_of_int 99) (Int_of_int 1) = OutOfFuel
  ∧ Int_div 9 (Int_of_int 99) (Int_of_int 1) = Ok (Int_of_int 99).
Proof. split; by vm_compute. Qed.

Lemma inc_dec_refine_witness :
  wf (Int_of_int (-1000))
  ∧ Int_inc (Int_of_int (-1000)) = Int_add (Int_of_int (-1000)) (Int_of_int 1)
  ∧ Int_dec (Int_of_int (-1000)) = Int_sub (Int_of_int (-1000)) (Int_of_int 1)
  ∧ Int_inc Int_zero = mkInt [1] 1
  ∧ Int_dec Int_zero = mkInt [1] (-1)
  ∧ Int_dec (Int_of_int 1) = Int_zero
  ∧ Int_inc (Int_of_int (-1)) = Int_zero.
Proof.
  assert (wf (Int_of_int (-1000))) as Ha by closed_wf.
  split; [exact Ha|]. exact (inc_dec_refine _ Ha).
Defined.

Lemma rem_magnitude_bound_witness :
  wf (Int_of_int (-100)) ∧ wf (Int_of_int 7)
  ∧ is_zero (Int_of_int 7) = false ∧ (9 ≤ 9)%nat
  ∧ ∃ r, Int_mod 9 (Int_of_int (-100)) (Int_of_int 7) = Ok r
         ∧ Int_lt (Int_abs r) (Int_abs (Int_of_int 7)) = true.
Proof.
  assert (wf (Int_of_int (-100))) as Ha by closed_wf.
  assert (wf (Int_of_int 7)) as Hb by closed_wf.
  split; [exact Ha|]. split; [exact Hb|]. split; [reflexivity|].
  split; [apply le_n|].
  exact (rem_magnitude_bound 9 _ _ Ha Hb eq_refl (le_n 9)).
Defined.

(** 5 built by conversion and 5 built by addition hash alike. *)
Lemma hash_respects_eq_witness :
  Int_eqb (Int_of_int 5) (Int_add (Int_of_int 2) (Int_of_int 3)) = true
  ∧ Int_hash (λ z, z) (Int_of_int 5)
    = Int_hash (λ z, z) (Int_add (Int_of_int 2) (Int_of_int 3)).
Proof.
  split; [reflexivity|].
  exact (hash_respects_eq (λ z, z) (Int_of_int 5)
           (Int_add (Int_of_int 2) (Int_of_int 3)) eq_refl).
Defined.

(** ** The scenarios of the specification *)

Example scenario_multiply :
  (x ← Int_of_chars (list_ascii_of_string "123456789123456789");
   y ← Int_of_chars (list_ascii_of_string "2");
   Ok (to_chars (Int_mul x y)))
  = Ok (list_ascii_of_string "246913578246913578").
Proof. by vm_compute. Qed.

Example scenario_divide :
  Int_div 9 (Int_of_int 100) (Int_of_int 7) = Ok (Int_of_int 14)
  ∧ Int_mod 9 (Int_of_int 100) (Int_of_int 7) = Ok (Int_of_int 2).
Proof. split; by vm_compute. Qed.

Example scenario_sqrt :
  Int_sqrt 20 (Int_of_int 1000000) = Ok (Int_of_int 1000).
Proof. by vm_compute. Qed.

Example scenario_pow :
  Int_pow 20 (Int_of_int 2) (Int_of_int 10) (Int_of_int 1000) = Ok (Int_of_int 24).
Proof. by vm_compute. Qed.

(** * Further properties of the code *)

(** ** Comparison *)

Lemma cmp_decides_order_aux (a b : Int) :
  wf a → wf b →
  Int_cmp a b = Z.sgn (value a - value b)
  ∧ Int_lt a b = bool_decide (value a < value b)
  ∧ Int_gt a b = bool_decide (value b < value a)
  ∧ Int_eqb a b = (Int_cmp a b =? 0).
Proof.
  intros Ha Hb. pose proof (Int_cmp_spec a b Ha Hb) as Hc.
  split; [done|]. split; [by apply Int_lt_spec|]. split.
  - unfold Int_gt. rewrite Hc.
    case_bool_decide; destruct (Z.gtb_spec (Z.sgn (value a - value b)) 0); lia.
  - rewrite Hc. destruct (Int_eqb a b) eqn:E.
    + apply Int_eqb_eq in E. subst b. symmetry. apply Z.eqb_eq. lia.
    + symmetry. apply Z.eqb_neq. intros E0. apply not_true_iff_false in E.
      apply E, Int_eqb_eq, wf_eq; [done..|lia].
Qed.

(** X1: on well-formed values [operator<=>] returns the sign of the
    difference of the integers denoted, so [<], [>], [>=] decide their order,
    and [operator==] holds exactly when [operator<=>] returns 0. *)
Theorem cmp_decides_order (a b : Int) :
  wf a → wf b →
  Int_cmp a b = Z.sgn (value a - value b)
  ∧ Int_lt a b = bool_decide (value a < value b)
  ∧ Int_gt a b = bool_decide (value b < value a)
  ∧ Int_ge a b = bool_decide (value b ≤ value a)
  ∧ Int_eqb a b = (Int_cmp a b =? 0).
Proof.
  intros Ha Hb.
  destruct (cmp_decides_order_aux a b Ha Hb) as (C & L & G & E).
  split_and!; try done. by apply Int_ge_spec.
Qed.

(** X2: the relational operators order the well-formed values totally:
    swapping the operands of [operator<=>] negates its result, [<] is
    irreflexive and transitive, and of [a < b], [a == b], [a > b] exactly one
    holds. *)
Theorem lt_total_order (a b c : Int) :
  wf a → wf b → wf c →
  Int_cmp b a = - Int_cmp a b
  ∧ Int_lt a a = false
  ∧ (Int_lt a b = true → Int_lt b c = true → Int_lt a c = true)
  ∧ (Int_lt a b = true ∧ Int_eqb a b = false ∧ Int_gt a b = false
     ∨ Int_lt a b = false ∧ Int_eqb a b = true ∧ Int_gt a b = false
     ∨ Int_lt a b = false ∧ Int_eqb a b = false ∧ Int_gt a b = true).
Proof.
  intros Ha Hb Hc.
  destruct (cmp_decides_order_aux a b Ha Hb) as (Cab & Lab & Gab & Eab).
  rewrite !Int_cmp_spec, !Int_lt_spec by done.
  split; [lia|]. split; [by rewrite bool_decide_eq_false_2 by lia|].
  split; [rewrite !bool_decide_eq_true; lia|].
  rewrite Gab, Eab, Cab. 
  destruct (Z.lt_total (value a) (value b)) as [H|[H|H]].
  - left. rewrite bool_decide_eq_true_2, bool_decide_eq_false_2 by lia.
    split; [done|]. split; [|done]. apply Z.eqb_neq. lia.
  - right. left. rewrite !bool_decide_eq_false_2 by lia.
    split; [done|]. split; [|done]. apply Z.eqb_eq. lia.
  - right. right. rewrite bool_decide_eq_false_2, bool_decide_eq_true_2 by lia.
    split; [done|]. split; [|done]. apply Z.eqb_neq. lia.
Qed.

(** ** The arithmetic operators and the integers they denote *)

(** X3: [operator+] of well-formed values is the well-formed value of the
    sum of the integers they denote. *)
Theorem add_denotes_sum (a b : Int) :
  wf a → wf b → wf (Int_add a b) ∧ value (Int_add a b) = value a + value b.
Proof. apply Int_add_spec. Qed.

(** X4: binary [operator-] of well-formed values is the well-formed value of
    the difference; it is the same value as [a + (-b)], and [a - a] is the
    canonical zero. *)
Theorem sub_denotes_difference (a b : Int) :
  wf a → wf b →
  wf (Int_sub a b) ∧ value (Int_sub a b) = value a - value b
  ∧ Int_sub a b = Int_add a (Int_neg b)
  ∧ Int_sub a a = Int_zero.
Proof.
  intros Ha Hb. destruct (Int_sub_spec a b Ha Hb) as [W V].
  destruct (Int_neg_spec b Hb) as [Wn Vn].
  destruct (Int_add_spec a _ Ha Wn) as [Wa Va].
  destruct (Int_sub_spec a a Ha Ha) as [Ws Vs].
  split_and!; [done|done| |].
  - apply wf_eq; [done..|lia].
  - apply wf_eq; [done|apply wf_zero|]. rewrite Vs. unfold value. simpl. lia.
Qed.

(** X5: [operator*] of well-formed values is the well-formed value of the
    product. *)
Theorem mul_denotes_product (a b : Int) :
  wf a → wf b → wf (Int_mul a b) ∧ value (Int_mul a b) = value a * value b.
Proof. apply Int_mul_spec. Qed.

(** X6: addition is commutative and associative, zero is its unit and the
    negation its inverse: [a + b == b + a], [(a + b) + c == a + (b + c)],
    [a + 0 == a], [a + (-a) == 0]. *)
Theorem add_group_laws (a b c : Int) :
  wf a → wf b → wf c →
  Int_add a b = Int_add b a
  ∧ Int_add (Int_add a b) c = Int_add a (Int_add b c)
  ∧ Int_add a Int_zero = a
  ∧ Int_add a (Int_neg a) = Int_zero.
Proof.
  intros Ha Hb Hc.
  destruct (Int_add_spec a b Ha Hb) as [Wab Vab].
  destruct (Int_add_spec b a Hb Ha) as [Wba Vba].
  destruct (Int_add_spec b c Hb Hc) as [Wbc Vbc].
  destruct (Int_add_spec _ c Wab Hc) as [W1 V1].
  destruct (Int_add_spec a _ Ha Wbc) as [W2 V2].
  destruct (Int_add_spec a _ Ha wf_zero) as [W3 V3].
  destruct (Int_neg_spec a Ha) as [Wn Vn].
  destruct (Int_add_spec a _ Ha Wn) as [W4 V4].
  assert (value Int_zero = 0) as V0 by done.
  split_and!; apply wf_eq; try done; try apply wf_zero; lia.
Qed.

(** X7: multiplication is commutative and associative, has unit 1, is
    annihilated by zero, and distributes over addition:
    [a * (b + c) == a * b + a * c]. *)
Theorem mul_ring_laws (a b c : Int) :
  wf a → wf b → wf c →
  Int_mul a b = Int_mul b a
  ∧ Int_mul (Int_mul a b) c = Int_mul a (Int_mul b c)
  ∧ Int_mul a (Int_of_int 1) = a
  ∧ Int_mul a Int_zero = Int_zero
  ∧ Int_mul a (Int_add b c) = Int_add (Int_mul a b) (Int_mul a c).
Proof.
  intros Ha Hb Hc.
  destruct (Int_of_int_spec 1 ltac:(done)) as [W1 V1].
  destruct (Int_mul_spec a b Ha Hb) as [Wab Vab].
  destruct (Int_mul_spec b a Hb Ha) as [Wba Vba].
  destruct (Int_mul_spec b c Hb Hc) as [Wbc Vbc].
  destruct (Int_mul_spec a c Ha Hc) as [Wac Vac].
  destruct (Int_mul_spec _ c Wab Hc) as [Wl Vl].
  destruct (Int_mul_spec a _ Ha Wbc) as [Wr Vr].
  destruct (Int_mul_spec a _ Ha W1) as [Wu Vu].
  destruct (Int_mul_spec a _ Ha wf_zero) as [Wz Vz].
  destruct (Int_add_spec b c Hb Hc) as [Ws Vs].
  destruct (Int_mul_spec a _ Ha Ws) as [Wd Vd].
  destruct (Int_add_spec _ _ Wab Wac) as [We Ve].
  assert (value Int_zero = 0) as V0 by done.
  split_and!; apply wf_eq; try done; try apply wf_zero; lia.
Qed.

(** X8: unary [operator-] and [abs] flip or clear the sign only: the
    negation denotes the opposite integer and undoes itself, [abs] denotes
    the absolute value, is never negative and changes nothing when applied
    twice. *)
Theorem neg_abs_laws (a : Int) :
  wf a →
  wf (Int_neg a) ∧ value (Int_neg a) = - value a
  ∧ Int_neg (Int_neg a) = a
  ∧ wf (Int_abs a) ∧ value (Int_abs a) = Z.abs (value a)
  ∧ is_negative (Int_abs a) = false
  ∧ Int_abs (Int_abs a) = Int_abs a
  ∧ digits_ (Int_neg a) = digits_ a ∧ digits_ (Int_abs a) = digits_ a.
Proof.
  intros Ha. destruct (Int_neg_spec a Ha) as [Wn Vn].
  destruct (Int_neg_spec _ Wn) as [Wnn Vnn].
  destruct (Int_abs_spec a Ha) as [Wa Va].
  destruct (Int_abs_spec _ Wa) as [Waa Vaa].
  split_and!; try done.
  - apply wf_eq; [done..|lia].
  - unfold is_negative. rewrite (wf_sign_sgn _ Wa), Va. apply Z.eqb_neq. lia.
  - apply wf_eq; [done..|lia].
  - unfold Int_abs. by destruct (sign_ a =? -1).
Qed.

(** X9: the fast increment and decrement undo each other on every
    well-formed value, and move the integer denoted by one. *)
Theorem inc_dec_inverse (a : Int) :
  wf a →
  Int_dec (Int_inc a) = a ∧ Int_inc (Int_dec a) = a
  ∧ value (Int_inc a) = value a + 1 ∧ value (Int_dec a) = value a - 1.
Proof.
  intros Ha. destruct (Int_inc_spec a Ha) as [Wi Vi].
  destruct (Int_dec_spec a Ha) as [Wd Vd].
  destruct (Int_dec_spec _ Wi) as [Wdi Vdi].
  destruct (Int_inc_spec _ Wd) as [Wid Vid].
  split_and!; try done; apply wf_eq; try done; lia.
Qed.

(** X10: division and remainder fail with the divide-by-zero error exactly
    when the divisor is zero; when the dividend has fewer digits than the
    divisor the quotient is zero and the remainder is the dividend itself. *)
Theorem div_mod_edges (fuel : nat) (a b : Int) :
  wf a → wf b → (9 ≤ fuel)%nat →
  (Int_div fuel a b = Throw DivideByZero ↔ is_zero b = true)
  ∧ (Int_mod fuel a b = Throw DivideByZero ↔ is_zero b = true)
  ∧ (is_zero b = false → (digits a < digits b)%nat →
     Int_div fuel a b = Ok Int_zero ∧ Int_mod fuel a b = Ok a)
  ∧ (is_zero b = false →
     ∃ q r, Int_div fuel a b = Ok q ∧ Int_mod fuel a b = Ok r
            ∧ value q = value a `quot` value b
            ∧ value r = value a `rem` value b).
Proof.
  intros Ha Hb Hf. unfold is_zero.
  destruct (Z.eqb_spec (sign_ b) 0) as [E|E].
  - unfold Int_div, Int_mod. rewrite E. simpl. split_and!; done.
  - destruct (Int_div_spec fuel a b Ha Hb E Hf) as (q & Eq & Wq & Vq).
    destruct (Int_mod_spec fuel a b Ha Hb E Hf) as (r & Er & Wr & Vr).
    split; [rewrite Eq; split; done|]. split; [rewrite Er; split; done|].
    split; [|intros _; by exists q, r].
    intros _ Hlt. unfold Int_div, Int_mod.
    destruct (Z.eqb_spec (sign_ b) 0); [done|].
    destruct (Nat.ltb_spec (digits a) (digits b)); [done|lia].
Qed.

(** ** Parity *)

Lemma land_1_digit d : digit d → Z.land d 1 = if Z.even d then 0 else 1.
Proof.
  intros [Hlo Hhi].
  assert (d = 0 ∨ d = 1 ∨ d = 2 ∨ d = 3 ∨ d = 4 ∨ d = 5 ∨ d = 6 ∨ d = 7
          ∨ d = 8 ∨ d = 9) as Hd by lia.
  clear Hlo Hhi. repeat (destruct Hd as [->|Hd]; [reflexivity|]). by subst.
Qed.

Lemma value_even x : wf x → sign_ x ≠ 0 → Z.even (value x) = Z.even (get (digits_ x) 0).
Proof.
  intros Hx Hs. destruct (sign_cases x Hx Hs) as [E|E]; unfold value; rewrite E.
  all: destruct (digits_ x) as [|d l]; [done|].
  all: rewrite get_cons_0, dval_cons, Z.even_mul, Z.even_add, Z.even_mul.
  all: simpl; by destruct (Z.even d).
Qed.

Lemma is_odd_value x : wf x → is_odd x = Z.odd (value x).
Proof.
  intros Hx. unfold is_odd, is_zero. destruct (Z.eqb_spec (sign_ x) 0) as [E|E].
  - apply (wf_value_0 x Hx) in E. by rewrite E.
  - rewrite <-Z.negb_even, (value_even x Hx E).
    rewrite land_1_digit by (apply get_digit, Hx).
    by destruct (Z.even (get (digits_ x) 0)).
Qed.

Lemma is_even_value x : wf x → is_even x = Z.even (value x).
Proof.
  intros Hx. unfold is_even, is_zero. destruct (Z.eqb_spec (sign_ x) 0) as [E|E].
  - apply (wf_value_0 x Hx) in E. by rewrite E.
  - rewrite (value_even x Hx E).
    rewrite land_1_digit by (apply get_digit, Hx).
    by destruct (Z.even (get (digits_ x) 0)).
Qed.

(** X11: [is_even] and [is_odd], which look at the lowest digit only, decide
    the parity of the integer denoted; zero is even. *)
Theorem parity_of_lowest_digit (a : Int) :
  wf a →
  is_even a = Z.even (value a) ∧ is_odd a = Z.odd (value a)
  ∧ is_odd a = negb (is_even a).
Proof.
  intros Ha. rewrite (is_even_value a Ha), (is_odd_value a Ha).
  by rewrite Z.negb_even.
Qed.

(** ** Conversion to and from [int] *)

Lemma dval_drop_le ds i : Forall digit ds → 0 ≤ dval (drop i ds) ≤ dval ds.
Proof.
  intros Hd. rewrite <-(take_drop i ds) at 3. rewrite dval_app.
  pose proof (dval_bound _ (Forall_take _ i _ Hd)).
  pose proof (dval_bound _ (Forall_drop _ i _ Hd)).
  pose proof (pow10_pos (length (take i ds))). nia.
Qed.

Lemma to_integer_loop_spec ds n :
  Forall digit ds → dval ds ≤ INT_MAX → (n ≤ length ds)%nat →
  to_integer_loop n ds (dval (drop n ds)) = dval ds.
Proof.
  intros Hd Hmax. induction n as [|n IH]; intros Hn; [by rewrite drop_0|].
  simpl. destruct (lookup_lt_is_Some_2 ds n ltac:(lia)) as [d Hl].
  assert (get ds n = d) as Hg by (unfold get; by rewrite Hl).
  rewrite Hg. pose proof (dval_drop_le ds n Hd) as Hb.
  rewrite (drop_S _ _ _ Hl), dval_cons in Hb.
  replace (wrap32 (dval (drop (S n) ds) * 10 + d)) with (dval (drop n ds)).
  - apply IH. lia.
  - rewrite (drop_S _ _ _ Hl), dval_cons. unfold wrap32, INT_MAX in *.
    rewrite Z.mod_small; lia.
Qed.

Lemma to_integer_value x :
  wf x → Z.abs (value x) ≤ INT_MAX → to_integer x = value x.
Proof.
  intros Hx Hb. unfold to_integer. rewrite (wf_abs_value x Hx) in Hb.
  pose proof (to_integer_loop_spec (digits_ x) (length (digits_ x))
                ltac:(apply Hx) Hb ltac:(lia)) as E.
  rewrite drop_all in E. simpl in E. rewrite E.
  fold (value x). unfold value at 1. rewrite Z.mul_comm. fold (value x).
  pose proof (wf_abs_value x Hx). unfold wrap32, INT_MAX in *.
  rewrite Z.mod_small; lia.
Qed.

(** X12: for every [int] but [INT_MIN], [Int(int)] is the well-formed value
    denoting it and [to_integer<int>] gives it back; conversely a well-formed
    value of magnitude at most [INT_MAX] converts to the [int] it denotes,
    from which [Int(int)] rebuilds it. *)
Theorem int_round_trip (z : Z) (a : Int) :
  INT_MIN < z ≤ INT_MAX → wf a → Z.abs (value a) ≤ INT_MAX →
  wf (Int_of_int z) ∧ value (Int_of_int z) = z
  ∧ to_integer (Int_of_int z) = z
  ∧ to_integer a = value a
  ∧ Int_of_int (to_integer a) = a.
Proof.
  intros Hz Ha Hb. destruct (Int_of_int_spec z Hz) as [W V].
  split; [done|]. split; [done|]. split.
  - rewrite to_integer_value; [done|done|]. rewrite V. unfold INT_MIN, INT_MAX in *. lia.
  - rewrite (to_integer_value a Ha Hb). split; [done|].
    destruct (Int_of_int_spec (value a)) as [W' V'].
    { unfold INT_MIN, INT_MAX in *. lia. }
    by apply wf_eq.
Qed.

(** ** Factorial *)

Lemma is_positive_value x : wf x → is_positive x = bool_decide (0 < value x).
Proof.
  intros Hx. unfold is_positive. pose proof (wf_sign_sgn x Hx).
  destruct Hx as (_ & _ & Hs & _).
  case_bool_decide; destruct (Z.eqb_spec (sign_ x) 1); lia.
Qed.

Lemma factorial_loop_spec n i result :
  wf i → wf result → 0 ≤ value i ≤ Z.of_nat n →
  ∃ r, factorial_loop n i result = Ok r ∧ wf r
       ∧ value r = value result * Z.of_nat (fact (Z.to_nat (value i))).
Proof.
  revert i result. induction n as [|n IH]; intros i result Wi Wr Hi.
  - simpl. rewrite (is_positive_value i Wi), bool_decide_eq_false_2 by lia.
    exists result. replace (value i) with 0 by lia. simpl. split_and!; [done..|lia].
  - simpl. rewrite (is_positive_value i Wi). case_bool_decide as Hp.
    + assert (sign_ i ≠ 0) as Hs by (rewrite <-(wf_value_0 i Wi); lia).
      destruct (abs_dec_spec i Wi Hs) as [Wd Vd].
      assert (value (abs_dec i) = value i - 1) as Vd'.
      { rewrite Vd. pose proof (wf_sign_sgn i Wi). unfold value.
        replace (sign_ i) with 1 by lia. lia. }
      destruct (Int_mul_spec result i Wr Wi) as [Wm Vm].
      destruct (IH (abs_dec i) (Int_mul result i) Wd Wm ltac:(lia))
        as (r & E & W & V).
      exists r. split; [done|]. split; [done|]. rewrite V, Vm, Vd'.
      replace (Z.to_nat (value i)) with (S (Z.to_nat (value i - 1))) by lia.
      change (fact (S ?k)) with (S k * fact k)%nat. rewrite Nat2Z.inj_mul.
      replace (Z.of_nat (S (Z.to_nat (value i - 1)))) with (value i) by lia.
      ring.
    + exists result. replace (value i) with 0 by lia. simpl. split_and!; [done..|lia].
Qed.

(** X13: [factorial()] fails with the domain error on a negative value and
    otherwise returns the well-formed value of the factorial; its loop runs
    once for each unit of the operand. *)
Theorem factorial_returns_product (fuel : nat) (a : Int) :
  wf a → value a ≤ Z.of_nat fuel →
  if bool_decide (value a < 0)
  then Int_factorial fuel a = Throw DomainError
  else ∃ r, Int_factorial fuel a = Ok r ∧ wf r
            ∧ value r = Z.of_nat (fact (Z.to_nat (value a))).
Proof.
  intros Ha Hf. unfold Int_factorial. pose proof (wf_sign_sgn a Ha) as Hs.
  case_bool_decide as Hn.
  - destruct (Z.eqb_spec (sign_ a) (-1)); [done|lia].
  - destruct (Z.eqb_spec (sign_ a) (-1)); [lia|].
    destruct (Int_of_int_spec 1 ltac:(done)) as [W1 V1].
    destruct (factorial_loop_spec fuel a _ Ha W1 ltac:(lia)) as (r & E & W & V).
    exists r. split; [done|]. split; [done|]. rewrite V, V1. lia.
Qed.

(** ** What the constructor from characters accepts *)

Lemma strlen_le s : (strlen s ≤ length s)%nat.
Proof. induction s as [|c s IH]; simpl; [lia|]. destruct (_ =? _); lia. Qed.

Lemma c_str_no_nul s : Forall (λ c, char_val c ≠ 0) (c_str s).
Proof.
  unfold c_str. induction s as [|c s IH]; simpl; [constructor|].
  destruct (Z.eqb_spec (char_val c) 0); simpl; [constructor|]. by constructor.
Qed.

Lemma strlen_c_str s : strlen (c_str s) = strlen s.
Proof.
  rewrite strlen_no_nul by apply c_str_no_nul. unfold c_str.
  apply length_take_le, strlen_le.
Qed.

Lemma char_at_c_str s i : (i < strlen s)%nat → char_at (c_str s) i = char_at s i.
Proof.
  intros Hi. unfold char_at, c_str. by rewrite !nth_lookup, lookup_take_lt.
Qed.

Lemma forallb_ext_in {A} (f g : A → bool) l :
  (∀ x, In x l → f x = g x) → forallb f l = forallb g l.
Proof.
  induction l as [|x l IH]; intros H; [done|]. simpl.
  rewrite (H x) by (by left). rewrite IH; [done|]. intros y Hy. apply H. by right.
Qed.

(** The constructor sees a buffer only up to its terminator. *)
Lemma Int_of_chars_c_str s : Int_of_chars s = Int_of_chars (c_str s).
Proof.
  unfold Int_of_chars. rewrite strlen_c_str. set (len := strlen s).
  destruct (decide (len = 0%nat)) as [E0|E0].
  { unfold is_integer. rewrite E0. done. }
  assert (char_at (c_str s) 0 = char_at s 0) as Ec by (apply char_at_c_str; lia).
  assert (is_integer (c_str s) len = is_integer s len) as ->.
  { unfold is_integer. rewrite Ec.
    destruct ((len =? 0)%nat || (len =? 1)%nat && _); [done|].
    apply forallb_ext_in. intros i Hi. apply in_seq in Hi.
    rewrite char_at_c_str; [done|]. destruct (_ || _) in Hi; lia. }
  destruct (is_integer s len); [|done]. simpl negb. cbv iota zeta. rewrite Ec.
  rewrite !for_loop_fill by apply length_replicate.
  assert (∀ n, (n ≤ len)%nat →
            map (λ i, sc (char_at s (len - 1 - i) - c_0)) (seq 0 n)
            = map (λ i, sc (char_at (c_str s) (len - 1 - i) - c_0)) (seq 0 n)) as Em.
  { intros n Hn. apply map_ext_in. intros i Hi. apply in_seq in Hi.
    rewrite char_at_c_str; [done|lia]. }
  rewrite Em by lia. done.
Qed.

Lemma forallb_nth (f : ascii → bool) l :
  (∀ i, (i < length l)%nat → f (nth i l zero) = true) → forallb f l = true.
Proof.
  intros H. apply forallb_forall. intros x Hx.
  destruct (In_nth l x zero Hx) as (i & Hi & <-). by apply H.
Qed.

(** On a buffer without an inner terminator, the check of the constructor is
    the grammar of literals. *)
Lemma is_integer_valid t :
  is_integer t (length t) = true → valid_literal t = true.
Proof.
  unfold is_integer, valid_literal. destruct t as [|c r]; [done|].
  change (char_at (c :: r) 0) with (char_val c).
  fold (is_sign_char c). unfold literal_body. simpl length.
  destruct (is_sign_char c) eqn:Hs.
  - destruct r as [|c' r']; [done|]. simpl length. cbn [Nat.eqb orb andb].
    intros H. rewrite forallb_forall in H. apply andb_true_iff. split; [done|].
    apply forallb_nth. intros i Hi. simpl length in Hi.
    specialize (H (S i) ltac:(apply in_seq; lia)).
    change (char_at (c :: c' :: r') (S i)) with (char_val (nth i (c' :: r') zero)) in H.
    apply negb_true_iff, orb_false_iff in H as [H1 H2].
    apply is_digit_char_spec. apply Z.ltb_ge in H1.
    rewrite Z.gtb_ltb in H2. apply Z.ltb_ge in H2. done.
  - rewrite andb_false_r. cbn [Nat.eqb orb]. rewrite Nat.sub_0_r.
    intros H. rewrite forallb_forall in H. apply andb_true_iff. split; [done|].
    apply forallb_nth. intros i Hi.
    specialize (H i ltac:(apply in_seq; simpl in *; lia)).
    apply negb_true_iff, orb_false_iff in H as [H1 H2].
    apply is_digit_char_spec. apply Z.ltb_ge in H1.
    rewrite Z.gtb_ltb in H2. apply Z.ltb_ge in H2. done.
Qed.

Lemma decimal_dval body : decimal body = dval (rev (map digit_of body)).
Proof.
  unfold decimal. induction body as [|c body IH] using rev_ind; [done|].
  rewrite fold_left_app, map_app, rev_app_distr.
  change (rev (map digit_of [c]) ++ rev (map digit_of body))
    with (digit_of c :: rev (map digit_of body)).
  rewrite dval_cons. simpl fold_left. rewrite IH. lia.
Qed.

(** X14: the constructor from null-terminated characters accepts exactly the
    valid literals (an optional sign, then one or more decimal digits) and
    fails with the invalid-literal error on everything else, such as the
    empty string or a lone sign.  What it accepts becomes the well-formed
    value of the decimal number written, negated after a [-]. *)
Theorem parse_accepts_exactly (s : list ascii) :
  if valid_literal (c_str s)
  then ∃ x, Int_of_chars s = Ok x ∧ wf x
            ∧ value x = literal_sign (c_str s) * decimal (literal_body (c_str s))
  else Int_of_chars s = Throw InvalidLiteral.
Proof.
  rewrite Int_of_chars_c_str. destruct (valid_literal (c_str s)) eqn:Hv.
  - rewrite (parse_valid _ Hv). eexists. split; [done|].
    destruct (valid_literal_body _ Hv) as [_ Hb].
    rewrite decimal_dval. apply wf_normalised.
    + apply Forall_forall. intros d Hd.
      apply list_elem_of_In, in_rev, in_map_iff in Hd.
      destruct Hd as (c & <- & Hc). apply digit_of_digit.
      rewrite Forall_forall in Hb. by apply Hb, list_elem_of_In.
    + unfold literal_sign. destruct (c_str s); [lia|]. destruct (_ =? _); lia.
  - unfold Int_of_chars.
    rewrite (strlen_no_nul (c_str s)) by apply c_str_no_nul.
    destruct (is_integer (c_str s) (length (c_str s))) eqn:Hi; [|done].
    apply is_integer_valid in Hi. congruence.
Qed.

(** ** Random generation *)

(** X15: [random(digits)] fails with the invalid-argument error when
    [digits] is below -1; otherwise, whatever the engine draws within the
    ranges of its distributions, the value is well formed, not negative, and
    has exactly the number of digits asked for (or drawn, when [digits] is
    -1), zero digits meaning the value zero. *)
Theorem random_shape (digits : Z) (limit : nat) (draw : nat → Z) (most : Z) :
  (∀ i, digit (draw i)) → 1 ≤ most ≤ 9 →
  if digits <? -1
  then Int_random digits limit draw most = Throw InvalidArgument
  else ∃ x, Int_random digits limit draw most = Ok x ∧ wf x
            ∧ length (digits_ x)
              = (if digits =? -1 then limit else Z.to_nat digits)
            ∧ 0 ≤ value x
            ∧ (value x = 0 ↔ length (digits_ x) = 0%nat).
Proof.
  intros Hdraw Hmost. destruct (digits <? -1) eqn:Hd.
  { unfold Int_random. by rewrite Hd. }
  destruct (Int_random digits limit draw most) as [x| |] eqn:E;
    try (unfold Int_random in E; rewrite Hd in E; done).
  pose proof (Int_random_spec _ _ _ _ _ Hdraw Hmost E) as W.
  exists x. split; [done|]. split; [done|].
  unfold Int_random in E. rewrite Hd in E. cbv zeta in E.
  set (n := if digits =? -1 then limit else Z.to_nat digits) in *.
  change (add_leading_zeros n []) with (replicate n 0) in E.
  rewrite for_loop_fill in E by apply length_replicate.
  injection E as <-. simpl digits_. 
  assert (length (map (λ i, sc (draw i)) (seq 0 n)) = n) as Hl
    by (by rewrite length_map, length_seq).
  split.
  { destruct (_ && _); [rewrite length_insert|]; done. }
  unfold value. simpl sign_.
  set (ds := if _ && _ then _ else _) in *.
  assert (length ds = n) as Hlds
    by (unfold ds; destruct (_ && _); [rewrite length_insert|]; done).
  destruct W as (Wd & Wl & _ & Wz). simpl in Wd, Wl, Wz. fold ds in Wd, Wl, Wz.
  case_bool_decide as Hz.
  - rewrite Z.mul_0_l. split; [lia|]. split; [|done]. intros _. rewrite Hlds.
    apply (f_equal length) in Hz. by rewrite length_replicate in Hz.
  - assert (ds ≠ []) as Hne.
    { intros E0. apply Hz. rewrite E0 in Hlds. simpl in Hlds. by rewrite <-Hlds. }
    pose proof (dval_pos ds Wd Wl Hne). simpl digits_. rewrite Z.mul_1_l.
    split; [lia|]. split; [lia|]. intros E0. by destruct ds.
Qed.

(** ** The magnitude of gcd and lcm *)

Lemma gcd_loop_gcd n fuel a b :
  wf a → wf b → (9 ≤ fuel)%nat → Z.abs (value b) < Z.of_nat n →
  ∃ g, gcd_loop n fuel a b = Ok g ∧ wf g
       ∧ Z.abs (value g) = Z.gcd (value a) (value b).
Proof.
  intros Ha Hb Hf. revert a b Ha Hb.
  induction n as [|n IH]; intros a b Ha Hb Hn; [lia|].
  rewrite gcd_loop_S, (is_zero_value b Hb). case_bool_decide as Hz; simpl negb; cbv iota.
  - exists a. rewrite Hz, Z.gcd_0_r. done.
  - assert (sign_ b ≠ 0) as Hs by (by rewrite <-(wf_value_0 b Hb)).
    destruct (Int_mod_spec fuel a b Ha Hb Hs Hf) as (r & E & Wr & Vr).
    rewrite E, res_bind_Ok.
    pose proof (Z.rem_bound_abs (value a) (value b) Hz) as Hr.
    destruct (IH b r Hb Wr ltac:(lia)) as (g & Eg & Wg & Vg).
    exists g. split; [done|]. split; [done|]. rewrite Vg, Vr.
    pose proof (Z.quot_rem' (value a) (value b)) as Hq.
    replace (value a `rem` value b)
      with (value a + - (value a `quot` value b) * value b) by lia.
    rewrite Z.gcd_add_mult_diag_r. apply Z.gcd_comm.
Qed.

(** X16: the magnitude of [gcd(a, b)] is the greatest common divisor of the
    integers denoted (so [gcd(a, 0)] is [a] up to sign and [gcd(0, 0)] is
    zero), and the magnitude of [lcm(a, b)] is their least common multiple,
    zero when either operand is zero. *)
Theorem gcd_lcm_magnitude (fuel : nat) (a b : Int) :
  wf a → wf b → (9 ≤ fuel)%nat → Z.abs (value b) < Z.of_nat fuel →
  ∃ g l,
    Int_gcd fuel a b = Ok g ∧ wf g
    ∧ Z.abs (value g) = Z.gcd (value a) (value b)
    ∧ Int_lcm fuel a b = Ok l ∧ wf l
    ∧ Z.abs (value l) = Z.lcm (value a) (value b).
Proof.
  intros Ha Hb Hf Hn.
  destruct (gcd_loop_gcd fuel fuel a b Ha Hb Hf Hn) as (g & Eg & Wg & Vg).
  unfold Int_lcm, Int_gcd. rewrite Eg, !is_zero_value by done.
  case_bool_decide as Za; [|case_bool_decide as Zb]; simpl orb; cbv iota.
  - exists g, Int_zero. rewrite Za in Vg |- *. rewrite Z.lcm_0_l.
    repeat (split; [done || apply wf_zero|]). done.
  - exists g, Int_zero. rewrite Zb in Vg |- *. rewrite Z.lcm_0_r.
    repeat (split; [done || apply wf_zero|]). done.
  - rewrite res_bind_Ok.
    assert (Z.gcd (value a) (value b) ≠ 0) as Hg0
      by (intros E; apply Z.gcd_eq_0_l in E; done).
    assert (sign_ g ≠ 0) as Hs by (rewrite <-(wf_value_0 g Wg); lia).
    destruct (Int_mul_spec a b Ha Hb) as [Wab Vab].
    destruct (Int_div_spec fuel (Int_mul a b) g Wab Wg Hs Hf) as (l & El & Wl & Vl).
    exists g, l. repeat (split; [done|]).
    rewrite Vl, Vab, Z.quot_div by lia.
    set (G := Z.gcd (value a) (value b)) in *.
    pose proof (Z.gcd_nonneg (value a) (value b)) as Gp. fold G in Gp.
    destruct (Z.gcd_divide_r (value a) (value b)) as [k Hk]. fold G in Hk.
    unfold Z.lcm. fold G. rewrite Vg.
    assert (Z.abs (value b) = Z.abs k * G) as Eb by (rewrite Hk at 1; nia).
    assert (value b `div` G = k) as E1 by (rewrite Hk; apply Z.div_mul; lia).
    assert (Z.abs (value a * value b) `div` G = Z.abs (value a) * Z.abs k) as E2
      by (rewrite Z.abs_mul, Eb, Z.mul_assoc; apply Z.div_mul; lia).
    rewrite E1, E2, !Z.abs_mul, !Z.abs_idemp.
    assert (Z.abs (Z.sgn (value g)) = 1) as -> by lia.
    assert (Z.abs (Z.sgn (value a * value b)) = 1) as -> by nia.
    lia.
Qed.

(** ** Budgets and the results of a division *)

Lemma div_while_more n m i tmp st r :
  div_while n i tmp st = Ok r → (n ≤ m)%nat → div_while m i tmp st = Ok r.
Proof.
  revert m st. induction n as [|n IH]; intros m st E Hm.
  - simpl in E. destruct m; simpl; destruct (Int_ge st.1 tmp); done.
  - destruct m as [|m]; [lia|]. simpl in *. destruct (Int_ge st.1 tmp); [|done].
    apply IH; [done|lia].
Qed.

Lemma div_while_no_throw n i tmp st e : div_while n i tmp st ≠ Throw e.
Proof.
  revert st. induction n as [|n IH]; intros st; simpl;
    destruct (Int_ge st.1 tmp); try done.
Qed.

Lemma div_loop_more fuel fuel' n tmp st r :
  div_loop fuel n tmp st = Ok r → (fuel ≤ fuel')%nat →
  div_loop fuel' n tmp st = Ok r.
Proof.
  revert tmp st. induction n as [|n IH]; intros tmp st E Hf; [done|].
  rewrite div_loop_S in *.
  destruct (div_while fuel n (erase_first tmp) st) as [st'| |] eqn:Ew; [|done..].
  rewrite (div_while_more _ _ _ _ _ _ Ew Hf). simpl in *. by apply IH.
Qed.

Lemma div_loop_no_throw fuel n tmp st e : div_loop fuel n tmp st ≠ Throw e.
Proof.
  revert tmp st. induction n as [|n IH]; intros tmp st; [done|].
  rewrite div_loop_S.
  destruct (div_while fuel n (erase_first tmp) st) as [st'| |] eqn:Ew; simpl.
  - apply IH.
  - by apply div_while_no_throw in Ew.
  - done.
Qed.

(** Whatever the budget, a division by a non-zero value either runs out of
    it or returns the truncated quotient. *)
Lemma Int_div_any_fuel fuel x y :
  wf x → wf y → sign_ y ≠ 0 →
  Int_div fuel x y = OutOfFuel
  ∨ ∃ q, Int_div fuel x y = Ok q ∧ wf q ∧ value q = value x `quot` value y.
Proof.
  intros Hx Hy Hs.
  destruct (Int_div_spec (fuel `max` 9) x y Hx Hy Hs ltac:(lia)) as (q & E & W & V).
  unfold Int_div in *. destruct (sign_ y =? 0); [done|].
  destruct (digits x <? digits y)%nat; [right; by exists q|].
  cbv zeta in *.
  destruct (div_loop fuel _ _ _) as [st| |] eqn:El.
  - right. exists q. rewrite (div_loop_more _ (fuel `max` 9) _ _ _ _ El) in E by lia.
    done.
  - by apply div_loop_no_throw in El.
  - by left.
Qed.

(** ** Powers with a non-negative exponent *)

Lemma wf_two : wf (Int_of_int 2) ∧ value (Int_of_int 2) = 2 ∧ sign_ (Int_of_int 2) ≠ 0.
Proof. split; [closed_wf|done]. Qed.

Lemma halve fuel n :
  wf n → 0 ≤ value n → (9 ≤ fuel)%nat →
  ∃ q, Int_div fuel n (Int_of_int 2) = Ok q ∧ wf q ∧ value q = value n `div` 2.
Proof.
  intros Hn Hp Hf. destruct wf_two as (W2 & V2 & S2).
  destruct (Int_div_spec fuel n _ Hn W2 S2 Hf) as (q & E & Wq & Vq).
  exists q. rewrite Vq, V2, Z.quot_div_nonneg by lia. done.
Qed.

Lemma pow_halve x n :
  0 ≤ n → x ^ n = (x * x) ^ (n `div` 2) * (if Z.odd n then x else 1).
Proof.
  intros Hn. rewrite (Z.div_mod n 2) at 1 by lia.
  assert (0 ≤ n `div` 2) by (apply Z.div_pos; lia).
  pose proof (Z.mod_pos_bound n 2 ltac:(lia)).
  rewrite Z.pow_add_r, Z.pow_mul_r by lia.
  replace (x ^ 2) with (x * x) by lia. f_equal.
  rewrite <-Z.bit0_mod, Z.bit0_odd. destruct (Z.odd n); simpl; lia.
Qed.

Lemma pow_rem_base x m k : m ≠ 0 → 0 ≤ k → ((x `rem` m) ^ k) `rem` m = (x ^ k) `rem` m.
Proof.
  intros Hm Hk. revert k Hk. apply natlike_ind; [done|]. intros k Hk IH.
  rewrite !Z.pow_succ_r by done.
  rewrite (Z.mul_rem (x `rem` m)), IH, Z.rem_rem, <-Z.mul_rem by done. done.
Qed.

Lemma pow_loop_plain k fuel m num n result :
  wf m → wf num → wf n → wf result → value m = 0 →
  (9 ≤ fuel)%nat → 0 ≤ value n < 2 ^ Z.of_nat k →
  ∃ r, pow_loop k fuel m num n result = Ok r ∧ wf r
       ∧ value r = value result * value num ^ value n.
Proof.
  intros Hm. revert num n result.
  induction k as [|k IH]; intros num n result Hnum Hn Hr Vm Hf Hk.
  - assert (value n = 0) as E by (simpl in Hk; lia).
    simpl. rewrite (is_zero_value n Hn), bool_decide_true by done. simpl.
    exists result. rewrite E. split_and!; [done..|lia].
  - cbn [pow_loop]. rewrite (is_zero_value n Hn). case_bool_decide as Hz; simpl negb; cbv iota.
    { exists result. rewrite Hz. split_and!; [done..|lia]. }
    rewrite (is_zero_value m Hm), bool_decide_true by done.
    destruct (Int_mul_spec result num Hr Hnum) as [W1 V1].
    destruct (Int_mul_spec num num Hnum Hnum) as [W2 V2].
    destruct (halve fuel n Hn ltac:(lia) Hf) as (q & Eq & Wq & Vq).
    rewrite (is_odd_value n Hn).
    assert (0 ≤ value q < 2 ^ Z.of_nat k) as Hq.
    { rewrite Vq. rewrite Nat2Z.inj_succ, Z.pow_succ_r in Hk by lia.
      split; [apply Z.div_pos; lia|apply Z.div_lt_upper_bound; lia]. }
    rewrite (pow_halve (value num) (value n)) by lia.
    destruct (Z.odd (value n)); cbv iota; rewrite !res_bind_Ok, Eq, res_bind_Ok.
    + destruct (IH _ q _ W2 Wq W1 Vm Hf Hq) as (r & E & Wr & Vr).
      exists r. split_and!; [done..|]. rewrite Vr, V1, V2, Vq. ring.
    + destruct (IH _ q _ W2 Wq Hr Vm Hf Hq) as (r & E & Wr & Vr).
      exists r. split_and!; [done..|]. rewrite Vr, V2, Vq. ring.
Qed.

Lemma pow_loop_mod k fuel m num n result :
  wf m → wf num → wf n → wf result → value m ≠ 0 →
  (9 ≤ fuel)%nat → 0 ≤ value n < 2 ^ Z.of_nat k →
  (value n = 0 → value result `rem` value m = value result) →
  ∃ r, pow_loop k fuel m num n result = Ok r ∧ wf r
       ∧ value r = (value result * value num ^ value n) `rem` value m.
Proof.
  intros Hm. revert num n result.
  induction k as [|k IH]; intros num n result Hnum Hn Hr Vm Hf Hk Hred.
  - assert (value n = 0) as E by (simpl in Hk; lia).
    simpl. rewrite (is_zero_value n Hn), bool_decide_true by done. simpl.
    exists result. rewrite E, Z.pow_0_r, Z.mul_1_r, Hred by done. done.
  - cbn [pow_loop]. rewrite (is_zero_value n Hn). case_bool_decide as Hz; simpl negb; cbv iota.
    { exists result. rewrite Hz, Z.pow_0_r, Z.mul_1_r, Hred by done. done. }
    rewrite (is_zero_value m Hm), bool_decide_false by done.
    assert (sign_ m ≠ 0) as Sm by (by rewrite <-(wf_value_0 m Hm)).
    destruct (Int_mul_spec result num Hr Hnum) as [W1 V1].
    destruct (Int_mul_spec num num Hnum Hnum) as [W2 V2].
    destruct (Int_mod_spec fuel _ m W1 Hm Sm Hf) as (r1 & E1 & Wr1 & Vr1).
    destruct (Int_mod_spec fuel _ m W2 Hm Sm Hf) as (r2 & E2 & Wr2 & Vr2).
    destruct (halve fuel n Hn ltac:(lia) Hf) as (q & Eq & Wq & Vq).
    rewrite (is_odd_value n Hn), E2.
    assert (0 ≤ value q < 2 ^ Z.of_nat k) as Hq.
    { rewrite Vq. rewrite Nat2Z.inj_succ, Z.pow_succ_r in Hk by lia.
      split; [apply Z.div_pos; lia|apply Z.div_lt_upper_bound; lia]. }
    assert (0 ≤ value n `div` 2) as Hh by (apply Z.div_pos; lia).
    rewrite (pow_halve (value num) (value n)) by lia.
    destruct (Z.odd (value n)) eqn:Hodd; cbv iota.
    + rewrite E1, !res_bind_Ok, Eq, res_bind_Ok.
      destruct (IH _ q _ Wr2 Wq Wr1 Vm Hf Hq) as (r & E & Wr & Vr).
      { intros _. by rewrite Vr1, Z.rem_rem. }
      exists r. split_and!; [done..|]. rewrite Vr, Vr1, Vr2, V1, V2, Vq.
      rewrite Z.mul_rem, Z.rem_rem, pow_rem_base, <-Z.mul_rem by done.
      f_equal. ring.
    + rewrite !res_bind_Ok, Eq, res_bind_Ok.
      destruct (IH _ q _ Wr2 Wq Hr Vm Hf Hq) as (r & E & Wr & Vr).
      { intros E0. rewrite Vq in E0.
        assert (value n = 1) as E1'
          by (clear -E0 Hz Hk; Z.div_mod_to_equations; lia).
        rewrite E1' in Hodd. done. }
      exists r. split_and!; [done..|]. rewrite Vr, Vr2, V2, Vq.
      rewrite Z.mul_rem, pow_rem_base, <-Z.mul_rem by done.
      f_equal. ring.
Qed.

Lemma pow_loop_zero k fuel m num n result :
  is_zero n = true → pow_loop k fuel m num n result = Ok result.
Proof. intros E. destruct k; simpl; by rewrite E. Qed.

Lemma pow_minus_one e : 0 ≤ e → (-1) ^ e = if Z.odd e then -1 else 1.
Proof.
  intros He. rewrite (pow_halve (-1) e He).
  change (-1 * -1) with 1. rewrite Z.pow_1_l by (apply Z.div_pos; lia).
  by destruct (Z.odd e).
Qed.

(** X17: for a non-negative exponent [pow(base, exp)] denotes [base ^ exp];
    with a non-zero modulus it denotes the truncated remainder of
    [base ^ exp], except that the modulus is ignored when [|base| = 1] or
    the exponent is zero (so [pow(2, 0, 1)] is 1, not 0). *)
Theorem pow_nonneg_exp (fuel : nat) (b e m : Int) :
  wf b → wf e → wf m → 0 ≤ value e →
  (9 ≤ fuel)%nat → value e < 2 ^ Z.of_nat fuel →
  ∃ r, Int_pow fuel b e m = Ok r ∧ wf r
       ∧ value r =
           if bool_decide (value m = 0) || bool_decide (Z.abs (value b) = 1)
              || bool_decide (value e = 0)
           then value b ^ value e
           else (value b ^ value e) `rem` value m.
Proof.
  intros Hb He Hm Hp Hf Hk. unfold Int_pow. rewrite (unit_magnitude b Hb).
  case_bool_decide as Hu; cbv iota.
  - rewrite orb_true_r. simpl orb. cbv iota. rewrite (is_odd_value e He).
    exists (if (sign_ b =? -1) && Z.odd (value e) then Int_of_int (-1) else Int_of_int 1).
    split; [done|]. split; [destruct (_ && _); closed_wf|].
    pose proof (wf_sign_sgn b Hb) as Hs.
    destruct (Z.eqb_spec (sign_ b) (-1)) as [E|E]; simpl andb.
    + assert (value b = -1) as -> by lia. rewrite pow_minus_one by done.
      by destruct (Z.odd (value e)).
    + assert (value b = 1) as -> by lia. by rewrite Z.pow_1_l.
  - unfold is_negative. pose proof (wf_sign_sgn e He) as Hs.
    destruct (Z.eqb_spec (sign_ e) (-1)) as [E|_]; [lia|].
    assert (wf (Int_of_int 1)) as W1 by closed_wf.
    rewrite orb_false_r. destruct (decide (value e = 0)) as [E0|E0].
    { rewrite pow_loop_zero by (rewrite is_zero_value, bool_decide_true; done).
      exists (Int_of_int 1). rewrite E0, (bool_decide_true (0 = 0)), orb_true_r by done.
      done. }
    rewrite (bool_decide_false (value e = 0)), orb_false_r by done.
    case_bool_decide as Hz.
    + destruct (pow_loop_plain fuel fuel m b e _ Hm Hb He W1 Hz Hf ltac:(lia))
        as (r & E & Wr & Vr).
      exists r. split_and!; [done..|]. rewrite Vr. change (value (Int_of_int 1)) with 1. lia.
    + destruct (pow_loop_mod fuel fuel m b e (Int_of_int 1) Hm Hb He W1 Hz Hf ltac:(lia))
        as (r & E & Wr & Vr).
      { done. }
      exists r. split_and!; [done..|]. rewrite Vr. change (value (Int_of_int 1)) with 1.
      by rewrite Z.mul_1_l.
Qed.

(** ** Logarithms *)

Lemma log_loop_spec k fuel base v result :
  wf base → wf v → wf result → 2 ≤ value base →
  (9 ≤ fuel)%nat → 0 ≤ value v < 2 ^ Z.of_nat k →
  ∃ r c, log_loop k fuel base v result = Ok r ∧ wf r
         ∧ value r = value result + c ∧ 0 ≤ c
         ∧ value v < value base ^ c
         ∧ (c = 0 ∨ value base ^ (c - 1) ≤ value v).
Proof.
  intros Hb. revert v result.
  induction k as [|k IH]; intros v result Hv Hr HB Hf Hk.
  - assert (value v = 0) as E by (simpl in Hk; lia).
    simpl. rewrite (is_zero_value v Hv), bool_decide_true by done. simpl.
    exists result, 0. rewrite E. split_and!; try done; try lia.
  - cbn [log_loop]. rewrite (is_zero_value v Hv).
    case_bool_decide as Hz; simpl negb; cbv iota.
    { exists result, 0. rewrite Hz. split_and!; try done; try lia. }
    assert (sign_ base ≠ 0) as Sb by (rewrite <-(wf_value_0 base Hb); lia).
    destruct (Int_div_spec fuel v base Hv Hb Sb Hf) as (q & Eq & Wq & Vq).
    rewrite Z.quot_div_nonneg in Vq by lia.
    destruct (Int_inc_spec result Hr) as [Wi Vi].
    rewrite Eq, res_bind_Ok.
    assert (0 ≤ value q < 2 ^ Z.of_nat k) as Hq.
    { rewrite Vq. rewrite Nat2Z.inj_succ, Z.pow_succ_r in Hk by lia.
      split; [apply Z.div_pos; lia|]. apply Z.div_lt_upper_bound; nia. }
    destruct (IH q _ Wq Wi HB Hf Hq) as (r & c & E & Wr & Vr & Hc & Hu & Hl).
    exists r, (c + 1). split; [done|]. split; [done|]. split; [lia|]. split; [lia|].
    pose proof (Z.div_mod (value v) (value base) ltac:(lia)) as Hdm.
    pose proof (Z.mod_pos_bound (value v) (value base) ltac:(lia)) as Hmb.
    rewrite Vq in Hu, Hl.
    split.
    + rewrite Z.pow_add_r, Z.pow_1_r by lia. nia.
    + right. replace (c + 1 - 1) with c by lia.
      destruct (decide (c = 0)) as [->|Hc0]; [rewrite Z.pow_0_r; lia|].
      destruct Hl as [->|Hl]; [done|].
      replace c with (c - 1 + 1) by lia. rewrite Z.pow_add_r, Z.pow_1_r by lia. nia.
Qed.

(** X18: [log(n, base)] is rejected unless [n] is positive and [base] is at
    least two; otherwise it returns the integer logarithm, the [r ≥ 0] with
    [base ^ r ≤ n < base ^ (r + 1)], on the shortcut taken for base ten as
    on the division loop. *)
Theorem log_returns_floor (fuel : nat) (n base : Int) :
  wf n → wf base → (9 ≤ fuel)%nat → value n < 2 ^ Z.of_nat fuel →
  Z.of_nat (digits n) ≤ INT_MAX →
  if bool_decide (0 < value n ∧ 2 ≤ value base)
  then ∃ r, Int_log fuel n base = Ok r ∧ wf r ∧ 0 ≤ value r
            ∧ value base ^ value r ≤ value n < value base ^ (value r + 1)
  else Int_log fuel n base = Throw DomainError.
Proof.
  intros Hn Hb Hf Hk Hd. unfold Int_log.
  destruct wf_two as (W2 & V2 & _).
  rewrite (Int_lt_spec base _ Hb W2), V2.
  pose proof (wf_sign_sgn n Hn) as Hs.
  case_bool_decide as Hc.
  - destruct Hc as [Hpos HB].
    destruct (Z.leb_spec (sign_ n) 0) as [|_]; [lia|].
    rewrite bool_decide_false by lia. simpl orb. cbv iota.
    destruct (Int_eqb base (Int_of_int 10)) eqn:E10.
    + apply Int_eqb_eq in E10. subst base.
      assert (sign_ n ≠ 0) as Sn by lia.
      assert (digits_ n ≠ []) as Hne by (intros E; by apply Hn in E).
      pose proof (dval_bound (digits_ n) ltac:(apply Hn)) as Hub.
      pose proof (dval_lower (digits_ n) ltac:(apply Hn) ltac:(apply Hn) Hne) as Hlb.
      assert (value n = dval (digits_ n)) as Vn by (rewrite <-(wf_abs_value n Hn); lia).
      unfold digits in *.
      assert (0 < length (digits_ n))%nat by (destruct (digits_ n); simpl; [done|lia]).
      assert (wrap32 (wrap32 (Z.of_nat (length (digits_ n))) - 1)
              = Z.of_nat (length (digits_ n) - 1)) as ->.
      { unfold INT_MAX in Hd.
        assert (∀ z, - 2 ^ 31 ≤ z < 2 ^ 31 → wrap32 z = z) as Hw
          by (intros z Hz; unfold wrap32; rewrite Z.mod_small; lia).
        rewrite (Hw (Z.of_nat _)) by lia. rewrite Hw by lia. lia. }
      destruct (Int_of_int_spec (Z.of_nat (length (digits_ n) - 1))) as [Wr Vr].
      { unfold INT_MIN, INT_MAX in *. lia. }
      eexists. split; [done|]. split; [done|]. rewrite Vr. split; [lia|].
      change (value (Int_of_int 10)) with 10. rewrite Vn. unfold pow10 in *.
      replace (Z.of_nat (length (digits_ n) - 1) + 1)
        with (Z.of_nat (length (digits_ n))) by lia. lia.
    + assert (sign_ base ≠ 0) as Sb by (rewrite <-(wf_value_0 base Hb); lia).
      destruct (Int_div_spec fuel n base Hn Hb Sb Hf) as (q & Eq & Wq & Vq).
      rewrite Z.quot_div_nonneg in Vq by lia.
      rewrite Eq, res_bind_Ok.
      pose proof (Z.div_mod (value n) (value base) ltac:(lia)) as Hdm.
      pose proof (Z.mod_pos_bound (value n) (value base) ltac:(lia)) as Hmb.
      assert (0 ≤ value q < 2 ^ Z.of_nat fuel) as Hq.
      { rewrite Vq. split; [apply Z.div_pos; lia|]. apply Z.div_lt_upper_bound; nia. }
      destruct (log_loop_spec fuel fuel base q Int_zero Hb Wq wf_zero HB Hf Hq)
        as (r & c & E & Wr & Vr & Hc & Hu & Hl).
      exists r. split; [done|]. split; [done|].
      change (value Int_zero) with 0 in Vr. rewrite Vr, Z.add_0_l. split; [done|].
      rewrite Vq in Hu, Hl. split.
      * destruct (decide (c = 0)) as [->|Hc0]; [rewrite Z.pow_0_r; lia|].
        destruct Hl as [->|Hl]; [done|].
        replace c with (c - 1 + 1) by lia. rewrite Z.pow_add_r, Z.pow_1_r by lia. nia.
      * rewrite Z.pow_add_r, Z.pow_1_r by lia. nia.
  - destruct (Z.leb_spec (sign_ n) 0) as [|Hp]; [done|].
    rewrite bool_decide_true; [done|]. lia.
Qed.

(** ** The square root in general *)

Lemma sqrt_ge_1 N : 1 ≤ N → 1 ≤ Z.sqrt N.
Proof. intros H. pose proof (proj2 (Z.sqrt_pos N)). lia. Qed.

Section newton.
Variable N : Z.
Hypothesis HN : 0 ≤ N.

(** A Newton step from a positive point never lands below the root. *)
Lemma newton_lower x : 1 ≤ x → Z.sqrt N ≤ (x + N `div` x) `div` 2.
Proof.
  intros Hx. pose proof (Z.sqrt_spec N HN) as [Hs _].
  pose proof (Z.sqrt_nonneg N) as Hs0.
  pose proof (Z.div_mod N x ltac:(lia)) as Hq.
  pose proof (Z.mod_pos_bound N x ltac:(lia)) as Hr.
  assert (0 ≤ N `div` x) as Hq0 by (apply Z.div_pos; lia).
  set (q := N `div` x) in *. set (r := N `mod` x) in *.
  pose proof (Z.div_mod (x + q) 2 ltac:(lia)) as Ht.
  pose proof (Z.mod_pos_bound (x + q) 2 ltac:(lia)) as Htr.
  set (t := (x + q) `div` 2) in *. set (u := (x + q) `mod` 2) in *.
  destruct (Z.le_gt_cases (Z.sqrt N) t) as [|Hlt]; [done|exfalso].
  assert (0 ≤ t) by lia.
  assert ((t + 1) * (t + 1) ≤ N) as H1 by nia.
  assert (4 * (x * (q + 1)) ≤ (x + q + 1) * (x + q + 1)) as H2
    by (pose proof (Z.square_nonneg (x - (q + 1))); nia).
  assert ((x + q + 1) * (x + q + 1) ≤ (2 * t + 2) * (2 * t + 2)) as H3 by nia.
  nia.
Qed.

(** Above the root a Newton step strictly descends. *)
Lemma newton_descends x : Z.sqrt N < x → (x + N `div` x) `div` 2 < x.
Proof.
  intros Hx. pose proof (Z.sqrt_spec N HN) as [_ Hs].
  pose proof (Z.sqrt_nonneg N) as Hs0.
  assert (N `div` x < x) as Hq by (apply Z.div_lt_upper_bound; nia).
  apply Z.div_lt_upper_bound; lia.
Qed.

(** The root is a fixed point unless [N + 1] is a perfect square. *)
Lemma newton_fixed :
  1 ≤ N → N + 1 ≠ (Z.sqrt N + 1) ^ 2 →
  (Z.sqrt N + N `div` Z.sqrt N) `div` 2 = Z.sqrt N.
Proof.
  intros H1 Hsq. pose proof (Z.sqrt_spec N HN) as [Hs Hs'].
  pose proof (sqrt_ge_1 N H1) as Hs1.
  set (s := Z.sqrt N) in *.
  assert (s ≤ N `div` s) as Hlo by (apply Z.div_le_lower_bound; lia).
  assert (N `div` s < s + 2) as Hhi by (apply Z.div_lt_upper_bound; nia).
  symmetry. apply Z.div_unique with ((s + N `div` s) - 2 * s); lia.
Qed.

(** When [N + 1] is a perfect square no positive point is a fixed point. *)
Lemma newton_no_fixed x :
  1 ≤ N → N + 1 = (Z.sqrt N + 1) ^ 2 → 1 ≤ x → (x + N `div` x) `div` 2 ≠ x.
Proof.
  intros H1 Hsq Hx E.
  pose proof (newton_lower x Hx) as Hlo. rewrite E in Hlo.
  destruct (Z.le_gt_cases x (Z.sqrt N)) as [Hle|Hgt].
  - assert (x = Z.sqrt N) as -> by lia.
    set (s := Z.sqrt N) in *.
    assert (N = s * (s + 2)) as EN by lia.
    assert (N `div` s = s + 2) as Eq by (rewrite EN, Z.mul_comm; apply Z.div_mul; lia).
    rewrite Eq in E. replace (s + (s + 2)) with ((s + 1) * 2) in E by lia.
    rewrite Z.div_mul in E by lia. lia.
  - pose proof (newton_descends x Hgt). lia.
Qed.

End newton.

Lemma sqrt_loop_S k fuel integer cur pre :
  sqrt_loop (S k) fuel integer cur pre =
  if negb (Int_eqb cur pre)
  then q ← Int_div fuel integer cur;
       c ← Int_div fuel (Int_add cur q) (Int_of_int 2);
       sqrt_loop k fuel integer c cur
  else Ok cur.
Proof. done. Qed.

Lemma sqrt_loop_exit k fuel integer cur :
  sqrt_loop k fuel integer cur cur = Ok cur.
Proof.
  assert (Int_eqb cur cur = true) as E by (by apply Int_eqb_eq).
  destruct k; simpl; by rewrite E.
Qed.

(** One Newton step of the code. *)
Lemma sqrt_step fuel integer cur :
  wf integer → wf cur → 0 ≤ value integer → 1 ≤ value cur → (9 ≤ fuel)%nat →
  ∃ q c, Int_div fuel integer cur = Ok q
         ∧ Int_div fuel (Int_add cur q) (Int_of_int 2) = Ok c
         ∧ wf c
         ∧ value c = (value cur + value integer `div` value cur) `div` 2.
Proof.
  intros Hi Hc Hp H1 Hf.
  assert (sign_ cur ≠ 0) as Sc by (rewrite <-(wf_value_0 cur Hc); lia).
  destruct (Int_div_spec fuel integer cur Hi Hc Sc Hf) as (q & Eq & Wq & Vq).
  rewrite Z.quot_div_nonneg in Vq by lia.
  destruct (Int_add_spec cur q Hc Wq) as [Wa Va].
  assert (0 ≤ value q) by (rewrite Vq; apply Z.div_pos; lia).
  destruct (halve fuel _ Wa ltac:(lia) Hf) as (c & Ec & Wc & Vc).
  exists q, c. rewrite Vc, Va, Vq. done.
Qed.

(** Once past the first step, the loop descends to the root and stops
    there. *)
Lemma sqrt_loop_converges k fuel integer cur pre :
  wf integer → wf cur → wf pre → (9 ≤ fuel)%nat →
  1 ≤ value integer →
  value integer + 1 ≠ (Z.sqrt (value integer) + 1) ^ 2 →
  1 ≤ value pre →
  value cur = (value pre + value integer `div` value pre) `div` 2 →
  value cur = value pre ∨ value cur - Z.sqrt (value integer) + 1 ≤ Z.of_nat k →
  ∃ r, sqrt_loop k fuel integer cur pre = Ok r ∧ wf r
       ∧ value r = Z.sqrt (value integer).
Proof.
  intros Hi Hc Hp Hf HN Hsq. revert cur pre Hc Hp.
  assert (0 ≤ value integer) as HN0 by lia.
  pose proof (sqrt_ge_1 _ HN) as Hs1.
  induction k as [|k IH]; intros cur pre Hc Hp Hpre Hcur Hk;
    pose proof (newton_lower _ HN0 _ Hpre) as Hlo; rewrite <-Hcur in Hlo.
  - destruct Hk as [E|Hk]; [|lia].
    apply (wf_eq _ _ Hc Hp) in E. subst pre. rewrite sqrt_loop_exit.
    exists cur. split; [done|]. split; [done|].
    destruct (Z.le_gt_cases (value cur) (Z.sqrt (value integer))); [lia|].
    pose proof (newton_descends _ HN0 (value cur) ltac:(lia)). lia.
  - destruct (decide (value cur = value pre)) as [E|Hne].
    { apply (wf_eq _ _ Hc Hp) in E. subst pre. rewrite sqrt_loop_exit.
      exists cur. split; [done|]. split; [done|].
      destruct (Z.le_gt_cases (value cur) (Z.sqrt (value integer))); [lia|].
      pose proof (newton_descends _ HN0 (value cur) ltac:(lia)). lia. }
    destruct Hk as [|Hk]; [done|].
    assert (Int_eqb cur pre = false) as Eb.
    { destruct (Int_eqb cur pre) eqn:E; [|done]. apply Int_eqb_eq in E. by subst. }
    destruct (sqrt_step fuel integer cur Hi Hc HN0 ltac:(lia) Hf) as (q & c & Eq & Ec & Wc & Vc).
    rewrite (sqrt_loop_step _ _ _ _ _ _ _ Eb Eq Ec).
    apply IH; [done|done|lia|done|].
    destruct (decide (value cur = Z.sqrt (value integer))) as [Es|Hns].
    + left. rewrite Vc, Es. by apply newton_fixed.
    + right. pose proof (newton_descends _ HN0 (value cur) ltac:(lia)). lia.
Qed.

(** When [integer + 1] is a perfect square the loop never sees the same
    point twice in a row, whatever the budgets. *)
Lemma sqrt_loop_never k fuel integer cur pre :
  wf integer → wf cur →
  1 ≤ value integer →
  value integer + 1 = (Z.sqrt (value integer) + 1) ^ 2 →
  1 ≤ value cur → Int_eqb cur pre = false →
  sqrt_loop k fuel integer cur pre = OutOfFuel.
Proof.
  intros Hi Hc HN Hsq. revert cur pre Hc.
  assert (0 ≤ value integer) as HN0 by lia.
  pose proof (sqrt_ge_1 _ HN) as Hs1.
  destruct wf_two as (W2 & V2 & S2).
  induction k as [|k IH]; intros cur pre Hc H1 Eb; [by apply sqrt_loop_0|].
  rewrite sqrt_loop_S, Eb. simpl negb. cbv iota.
  assert (sign_ cur ≠ 0) as Sc by (rewrite <-(wf_value_0 cur Hc); lia).
  destruct (Int_div_any_fuel fuel integer cur Hi Hc Sc) as [->|(q & -> & Wq & Vq)]; [done|].
  rewrite res_bind_Ok. rewrite Z.quot_div_nonneg in Vq by lia.
  destruct (Int_add_spec cur q Hc Wq) as [Wa Va].
  assert (0 ≤ value q) by (rewrite Vq; apply Z.div_pos; lia).
  destruct (Int_div_any_fuel fuel _ _ Wa W2 S2) as [->|(c & -> & Wc & Vc)]; [done|].
  rewrite res_bind_Ok. rewrite V2, Z.quot_div_nonneg, Va, Vq in Vc by lia.
  pose proof (newton_lower _ HN0 _ H1) as Hlo. rewrite <-Vc in Hlo.
  pose proof (newton_no_fixed _ HN0 _ HN Hsq H1) as Hnf. rewrite <-Vc in Hnf.
  apply IH; [done|lia|].
  destruct (Int_eqb c cur) eqn:E; [|done]. apply Int_eqb_eq in E. by subst.
Qed.

(** The starting point [10^(digits/2 - 1)] of the loop. *)
Lemma sqrt_start integer :
  wf integer → 16 ≤ value integer →
  let cur := mkInt (replicate (digits integer / 2 - 1) 0 ++ [1]) 1 in
  wf cur ∧ 1 ≤ value cur ≤ value integer
  ∧ Int_eqb cur (Int_of_int (-1)) = false.
Proof.
  intros Hi HN cur.
  destruct (wf_shifted [1] (digits integer / 2 - 1)) as [Wc Vc];
    [repeat constructor; unfold digit; lia|done|done|].
  fold cur in Wc, Vc. change (dval [1]) with 1 in Vc. rewrite Z.mul_1_l in Vc.
  split; [done|]. split; [|done].
  rewrite Vc. pose proof (pow10_pos (digits integer / 2 - 1)). split; [lia|].
  assert (sign_ integer ≠ 0) as Sn by (rewrite <-(wf_value_0 integer Hi); lia).
  assert (digits_ integer ≠ []) as Hne by (intros E; by apply Hi in E).
  pose proof (dval_lower (digits_ integer) ltac:(apply Hi) ltac:(apply Hi) Hne) as Hlb.
  rewrite <-(wf_abs_value integer Hi) in Hlb.
  etrans; [|etrans; [exact Hlb|lia]]. apply pow10_le. unfold digits.
  pose proof (Nat.Div0.div_le_upper_bound (length (digits_ integer)) 2
                (length (digits_ integer)) ltac:(lia)). lia.
Qed.

Lemma sqrt_small_cases fuel integer :
  wf integer → 0 ≤ value integer < 16 →
  ∃ r, Int_sqrt fuel integer = Ok r ∧ wf r ∧ value r = Z.sqrt (value integer).
Proof.
  intros Hi HN. unfold Int_sqrt. pose proof (wf_sign_sgn integer Hi) as Hs.
  destruct (Z.eqb_spec (sign_ integer) (-1)) as [|_]; [lia|].
  rewrite (is_zero_value integer Hi).
  rewrite !Int_lt_spec by (done || closed_wf).
  change (value (Int_of_int 4)) with 4. change (value (Int_of_int 9)) with 9.
  change (value (Int_of_int 16)) with 16.
  assert (∀ s, 0 ≤ s → s * s ≤ value integer < (s + 1) * (s + 1) →
               Z.sqrt (value integer) = s) as Hsq
    by (intros s H0 Hb; by apply Z.sqrt_unique).
  repeat case_bool_decide; try lia; eexists; (split; [done|]); (split; [closed_wf|]).
  - rewrite (Hsq 0); [done|lia..].
  - rewrite (Hsq 1); [done|lia..].
  - rewrite (Hsq 2); [done|lia..].
  - rewrite (Hsq 3); [done|lia..].
Qed.

(** X19: [sqrt] rejects a negative operand and otherwise, unless the operand
    is at least 16 and one less than a perfect square, returns the integer
    square root. *)
Theorem sqrt_returns_root (fuel : nat) (n : Int) :
  wf n → value n < Z.of_nat fuel →
  value n < 16 ∨ value n + 1 ≠ (Z.sqrt (value n) + 1) ^ 2 →
  if bool_decide (value n < 0)
  then Int_sqrt fuel n = Throw DomainError
  else ∃ r, Int_sqrt fuel n = Ok r ∧ wf r ∧ value r = Z.sqrt (value n).
Proof.
  intros Hn Hf Hsq. pose proof (wf_sign_sgn n Hn) as Hs.
  case_bool_decide as Hneg.
  { unfold Int_sqrt. destruct (Z.eqb_spec (sign_ n) (-1)); [done|lia]. }
  destruct (Z.lt_ge_cases (value n) 16) as [Hsmall|Hbig].
  { apply sqrt_small_cases; [done|lia]. }
  destruct Hsq as [|Hsq]; [lia|].
  destruct (sqrt_start n Hn Hbig) as (Wc & Vc & Eb).
  unfold Int_sqrt. destruct (Z.eqb_spec (sign_ n) (-1)) as [|_]; [lia|].
  rewrite (is_zero_value n Hn), bool_decide_false by lia.
  rewrite !Int_lt_spec by (done || closed_wf).
  change (value (Int_of_int 4)) with 4. change (value (Int_of_int 9)) with 9.
  change (value (Int_of_int 16)) with 16.
  rewrite !bool_decide_false by lia. cbv zeta.
  set (cur := mkInt _ 1) in *.
  destruct fuel as [|k]; [lia|].
  destruct (sqrt_step (S k) n cur Hn Wc ltac:(lia) ltac:(lia) ltac:(lia))
    as (q & c & Eq & Ec & Wc' & Vc').
  rewrite (sqrt_loop_step _ _ _ _ _ _ _ Eb Eq Ec).
  apply sqrt_loop_converges; [done|done|done|lia|lia|done|lia|done|].
  right. pose proof (sqrt_ge_1 (value n) ltac:(lia)).
  assert (value c ≤ value n); [|lia].
  rewrite Vc'. apply Z.div_le_upper_bound; [lia|].
  assert (value n `div` value cur ≤ value n); [|lia].
  apply Z.div_le_upper_bound; nia.
Qed.

(** X20: on every operand that is at least 16 and one less than a perfect
    square (24, 35, 48, ...) the Newton loop of [sqrt] never terminates:
    no budget is enough. *)
Theorem sqrt_never_returns (fuel : nat) (n : Int) :
  wf n → 16 ≤ value n → value n + 1 = (Z.sqrt (value n) + 1) ^ 2 →
  Int_sqrt fuel n = OutOfFuel.
Proof.
  intros Hn Hbig Hsq. pose proof (wf_sign_sgn n Hn) as Hs.
  destruct (sqrt_start n Hn Hbig) as (Wc & Vc & Eb).
  unfold Int_sqrt. destruct (Z.eqb_spec (sign_ n) (-1)) as [|_]; [lia|].
  rewrite (is_zero_value n Hn), bool_decide_false by lia.
  rewrite !Int_lt_spec by (done || closed_wf).
  change (value (Int_of_int 4)) with 4. change (value (Int_of_int 9)) with 9.
  change (value (Int_of_int 16)) with 16.
  rewrite !bool_decide_false by lia. cbv zeta.
  apply sqrt_loop_never; [done|done|lia|done|lia|done].
Qed.

(** ** The next prime *)

Lemma wrap32_small z : INT_MIN ≤ z ≤ INT_MAX → wrap32 z = z.
Proof.
  unfold INT_MIN, INT_MAX, wrap32. intros Hz. rewrite Z.mod_small; lia.
Qed.

(** Trial division up to the square root decides primality. *)
Lemma no_small_divisor_prime c :
  2 ≤ c →
  (∀ j, 2 ≤ j → j * j ≤ c → ¬ (j | c)) ↔ Z.prime c.
Proof.
  intros Hc. split.
  - intros H. split; [lia|].
    intros n Hn [m Hm].
    assert (2 ≤ m) by nia.
    destruct (Z.le_gt_cases (n * n) c) as [Hle|Hgt].
    + apply (H n); [lia|done|]. by exists m.
    + apply (H m); [done|nia|]. exists n. lia.
  - intros [_ H] j Hj Hjj Hd. apply (H j); [nia|done].
Qed.

Lemma prime_odd q : Z.prime q → 3 ≤ q → q `mod` 2 = 1.
Proof.
  intros [_ H] Hq.
  pose proof (Z.mod_pos_bound q 2 ltac:(lia)).
  destruct (decide (q `mod` 2 = 0)) as [E|]; [|lia].
  apply Z.mod_divide in E; [|lia]. destruct (H 2); [lia|done].
Qed.

Lemma trial_loop_unfold n fuel prime i :
  trial_loop n fuel prime i =
  if 0 <=? Int_cmp prime (Int_of_int (wrap32 (i * i)))
  then match n with
       | O => OutOfFuel
       | S n' =>
           r ← Int_mod fuel prime (Int_of_int i);
           if Int_eqb r (Int_of_int 0) then Ok false
           else trial_loop n' fuel prime (wrap32 (i + 1))
       end
  else Ok true.
Proof. by destruct n. Qed.

Lemma trial_loop_spec n fuel c i :
  wf c → (9 ≤ fuel)%nat → 3 ≤ value c < 46340 * 46340 →
  2 ≤ i → (i - 1) * (i - 1) ≤ value c →
  (∀ j, 2 ≤ j < i → ¬ (j | value c)) →
  Z.sqrt (value c) < Z.of_nat n + i →
  ∃ b, trial_loop n fuel c i = Ok b
       ∧ (b = true ↔ ∀ j, 2 ≤ j → j * j ≤ value c → ¬ (j | value c)).
Proof.
  intros Hc Hf Hr. revert i.
  induction n as [|n IH]; intros i Hi Hlow Hno Hn;
    rewrite trial_loop_unfold;
    (assert (i ≤ 46340) as Hi' by nia);
    (assert (i * i ≤ 46340 * 46340) as Hii by nia);
    rewrite (wrap32_small (i * i)) by (unfold INT_MIN, INT_MAX; lia);
    (destruct (Int_of_int_spec (i * i)) as [Wii Vii];
       [unfold INT_MIN, INT_MAX; lia|]);
    rewrite (Int_cmp_spec c _ Hc Wii), Vii;
    (destruct (Z.leb_spec 0 (Z.sgn (value c - i * i))) as [Hle|Hgt]);
    try (exists true; split; [done|]; split; [|done];
         intros _ j Hj Hjj; apply Hno; nia).
  - assert (i ≤ Z.sqrt (value c)) by (apply Z.sqrt_le_square; lia). lia.
  - destruct (Int_of_int_spec i) as [Wi Vi]; [unfold INT_MIN, INT_MAX; lia|].
    assert (sign_ (Int_of_int i) ≠ 0) as Si
      by (rewrite <-(wf_value_0 _ Wi), Vi; lia).
    destruct (Int_mod_spec fuel c _ Hc Wi Si Hf) as (r & Er & Wr & Vr).
    rewrite Er, res_bind_Ok, Vi in *.
    destruct (Int_eqb r (Int_of_int 0)) eqn:E0.
    + apply Int_eqb_eq in E0. subst r. change (value (Int_of_int 0)) with 0 in Vr.
      symmetry in Vr. apply Z.rem_divide in Vr; [|lia].
      exists false. split; [done|]. split; [done|].
      intros H. destruct (H i); [lia|lia|done].
    + assert (¬ (i | value c)) as Hnd.
      { intros Hd. apply Z.rem_divide in Hd; [|lia].
        assert (r = Int_of_int 0) as -> by (apply wf_eq; [done|apply wf_zero|by rewrite Vr]).
        by rewrite (proj2 (Int_eqb_eq _ _) eq_refl) in E0. }
      rewrite (wrap32_small (i + 1)) by (unfold INT_MIN, INT_MAX; lia).
      apply IH; [lia|lia| |lia].
      intros j Hj. destruct (decide (j = i)) as [->|]; [done|]. apply Hno. lia.
Qed.

Lemma abs_inc_pos x :
  wf x → 1 ≤ value x → wf (abs_inc x) ∧ value (abs_inc x) = value x + 1.
Proof.
  intros Hx H1. pose proof (wf_sign_sgn x Hx) as Hs.
  pose proof (wf_abs_value x Hx) as Ha.
  destruct (abs_inc_spec x Hx ltac:(lia)) as [W V]. split; [done|].
  rewrite V. nia.
Qed.

Lemma next_prime_loop_S n fuel prime :
  next_prime_loop (S n) fuel prime =
  trial_loop fuel fuel (abs_inc (abs_inc prime)) 2 ≫= λ is_prime : bool,
    if is_prime then Ok (abs_inc (abs_inc prime))
    else next_prime_loop n fuel (abs_inc (abs_inc prime)).
Proof. done. Qed.

Lemma next_prime_loop_spec n fuel p q :
  wf p → (9 ≤ fuel)%nat → 1 ≤ value p → value p `mod` 2 = 1 →
  Z.prime q → q `mod` 2 = 1 → value p < q → q < 46340 * 46340 →
  (∀ c, value p < c < q → c `mod` 2 = 1 → ¬ Z.prime c) →
  Z.sqrt q < Z.of_nat fuel →
  q - value p ≤ 2 * Z.of_nat n →
  ∃ r, next_prime_loop n fuel p = Ok r ∧ wf r ∧ value r = q.
Proof.
  intros Hp Hf H1 Hodd Hq Hqo Hlt Hq' Hgap Hsq. revert p Hp H1 Hodd Hlt Hgap.
  induction n as [|n IH]; intros p Hp H1 Hodd Hlt Hgap Hn; [lia|].
  rewrite next_prime_loop_S.
  destruct (abs_inc_pos p Hp H1) as [W1 V1].
  destruct (abs_inc_pos _ W1 ltac:(lia)) as [W2 V2].
  set (c := abs_inc (abs_inc p)) in *.
  assert (value c = value p + 2) as Vc by lia.
  assert (value c ≤ q) as Hcq by (clear -Vc Hodd Hqo Hlt; Z.div_mod_to_equations; lia).
  destruct (trial_loop_spec fuel fuel c 2 W2 Hf) as (b & Eb & Hb);
    [lia|lia|lia|intros j Hj; lia| |].
  { pose proof (Z.sqrt_le_mono (value c) q Hcq). lia. }
  rewrite Eb, res_bind_Ok. rewrite no_small_divisor_prime in Hb by lia.
  destruct b.
  - exists c. split; [done|]. split; [done|].
    destruct (decide (value c = q)) as [|Hne]; [done|].
    destruct (Hgap (value c)); [lia| |by apply Hb].
    clear -Vc Hodd. Z.div_mod_to_equations; lia.
  - assert (value c ≠ q) as Hne.
    { intros E. rewrite E in Hb. apply Hb in Hq. done. }
    apply IH; [done|lia| |lia| |lia].
    + clear -Vc Hodd. Z.div_mod_to_equations; lia.
    + intros c' Hc'. apply Hgap. lia.
Qed.

(** X21: [next_prime] returns the least prime above its operand: if [q] is
    prime, above the operand and no prime lies in between, the result is
    [q] (2 for every operand below 2), as long as the [int] trial divisor
    squared stays in range. *)
Theorem next_prime_returns_least (fuel : nat) (a : Int) (q : Z) :
  wf a → Z.prime q → value a < q →
  (∀ p, Z.prime p → ¬ (value a < p < q)) →
  q < 46340 * 46340 →
  (9 ≤ fuel)%nat → Z.sqrt q < Z.of_nat fuel → q - value a ≤ Z.of_nat fuel →
  ∃ r, Int_next_prime fuel a = Ok r ∧ wf r ∧ value r = q.
Proof.
  intros Ha Hq Hlt Hleast Hq' Hf Hsq Hgap. unfold Int_next_prime.
  destruct wf_two as (W2 & V2 & _).
  rewrite (Int_lt_spec a _ Ha W2), V2.
  assert (2 ≤ q) as Hq2 by (destruct Hq; lia).
  case_bool_decide as Hsmall.
  - exists (Int_of_int 2). split; [done|]. split; [done|]. rewrite V2.
    destruct (decide (q = 2)) as [|Hne]; [done|].
    destruct (Hleast 2 Z.prime_2). lia.
  - pose proof (prime_odd q Hq ltac:(lia)) as Hqo. cbv zeta.
    pose proof (wf_sign_sgn a Ha) as Hs. pose proof (wf_abs_value a Ha) as Hab.
    rewrite (is_even_value a Ha).
    pose proof (Zmod_even (value a)) as Hev.
    destruct (Z.even (value a)).
    + destruct (abs_dec_spec a Ha ltac:(lia)) as [W V].
      assert (value (abs_dec a) = value a - 1) as V' by (rewrite V; nia).
      apply next_prime_loop_spec; try done; try lia.
      * rewrite V'. clear -Hev. Z.div_mod_to_equations; lia.
      * intros c Hc Hco Hpc. apply (Hleast c Hpc).
        destruct (decide (c = value a)) as [->|]; lia.
    + apply next_prime_loop_spec; try done; try lia.
      intros c Hc _ Hpc. apply (Hleast c Hpc). lia.
Qed.

(** ** Examination *)

(** X22: on well-formed values [is_zero], [is_positive] and [is_negative]
    decide the sign of the integer denoted, and [digits()] is the number of
    decimal digits of its magnitude, none for zero. *)
Theorem sign_tests_and_digits (a : Int) :
  wf a →
  is_zero a = bool_decide (value a = 0)
  ∧ is_positive a = bool_decide (0 < value a)
  ∧ is_negative a = bool_decide (value a < 0)
  ∧ (digits a = 0%nat ↔ value a = 0)
  ∧ (value a ≠ 0 → pow10 (digits a - 1) ≤ Z.abs (value a) < pow10 (digits a)).
Proof.
  intros Ha. pose proof (wf_sign_sgn a Ha) as Hs.
  pose proof (wf_value_0 a Ha) as Hz.
  split; [by apply is_zero_value|]. split; [by apply is_positive_value|].
  split.
  { unfold is_negative. case_bool_decide; destruct (Z.eqb_spec (sign_ a) (-1)); lia. }
  assert (digits a = 0%nat ↔ digits_ a = []) as Hd
    by (unfold digits; destruct (digits_ a); done).
  split.
  { rewrite Hd, Hz. symmetry. apply Ha. }
  intros Hne. rewrite (wf_abs_value a Ha). unfold digits.
  assert (digits_ a ≠ []) as Hnil by (intros E; apply Ha in E; tauto).
  pose proof (dval_bound (digits_ a) ltac:(apply Ha)).
  pose proof (dval_lower (digits_ a) ltac:(apply Ha) ltac:(apply Ha) Hnil). lia.
Qed.

(** ** Leading zeros *)

Lemma rlz_pad n ds :
  remove_leading_zeros (add_leading_zeros n ds) = remove_leading_zeros ds.
Proof.
  unfold add_leading_zeros. induction n as [|n IH].
  - simpl. by rewrite app_nil_r.
  - rewrite replicate_S_end, app_assoc, rlz_snoc. done.
Qed.

(** X23: the two private helpers undo each other and never change the
    number denoted: padding with zeros at the most-significant end and
    stripping them again gives what stripping alone gives, and what is
    stripped has no zero left at that end. *)
Theorem leading_zeros_round_trip (ds : list Z) (n : nat) :
  dval (add_leading_zeros n ds) = dval ds
  ∧ length (add_leading_zeros n ds) = (length ds + n)%nat
  ∧ dval (remove_leading_zeros ds) = dval ds
  ∧ last (remove_leading_zeros ds) ≠ Some 0
  ∧ remove_leading_zeros (add_leading_zeros n ds) = remove_leading_zeros ds
  ∧ remove_leading_zeros (remove_leading_zeros ds) = remove_leading_zeros ds.
Proof.
  split; [apply dval_pad|].
  split; [unfold add_leading_zeros; by rewrite length_app, length_replicate|].
  split; [apply rlz_dval|]. split; [apply rlz_last|].
  split; [apply rlz_pad|]. apply rlz_id, rlz_last.
Qed.

(** ** Instances of the further properties *)

Lemma cmp_decides_order_witness :
  wf (Int_of_int (-3)) ∧ wf (Int_of_int 5)
  ∧ Int_cmp (Int_of_int (-3)) (Int_of_int 5)
    = Z.sgn (value (Int_of_int (-3)) - value (Int_of_int 5))
  ∧ Int_lt (Int_of_int (-3)) (Int_of_int 5)
    = bool_decide (value (Int_of_int (-3)) < value (Int_of_int 5))
  ∧ Int_gt (Int_of_int (-3)) (Int_of_int 5)
    = bool_decide (value (Int_of_int 5) < value (Int_of_int (-3)))
  ∧ Int_ge (Int_of_int (-3)) (Int_of_int 5)
    = bool_decide (value (Int_of_int 5) ≤ value (Int_of_int (-3)))
  ∧ Int_eqb (Int_of_int (-3)) (Int_of_int 5)
    = (Int_cmp (Int_of_int (-3)) (Int_of_int 5) =? 0).
Proof.
  assert (wf (Int_of_int (-3))) as Ha by closed_wf.
  assert (wf (Int_of_int 5)) as Hb by closed_wf.
  split; [exact Ha|]. split; [exact Hb|].
  exact (cmp_decides_order _ _ Ha Hb).
Defined.

Lemma lt_total_order_witness :
  wf (Int_of_int (-3)) ∧ wf (Int_of_int 5) ∧ wf (Int_of_int 12)
  ∧ Int_cmp (Int_of_int 5) (Int_of_int (-3))
    = - Int_cmp (Int_of_int (-3)) (Int_of_int 5)
  ∧ Int_lt (Int_of_int (-3)) (Int_of_int (-3)) = false
  ∧ (Int_lt (Int_of_int (-3)) (Int_of_int 5) = true →
     Int_lt (Int_of_int 5) (Int_of_int 12) = true →
     Int_lt (Int_of_int (-3)) (Int_of_int 12) = true)
  ∧ (Int_lt (Int_of_int (-3)) (Int_of_int 5) = true
     ∧ Int_eqb (Int_of_int (-3)) (Int_of_int 5) = false
     ∧ Int_gt (Int_of_int (-3)) (Int_of_int 5) = false
     ∨ Int_lt (Int_of_int (-3)) (Int_of_int 5) = false
       ∧ Int_eqb (Int_of_int (-3)) (Int_of_int 5) = true
       ∧ Int_gt (Int_of_int (-3)) (Int_of_int 5) = false
     ∨ Int_lt (Int_of_int (-3)) (Int_of_int 5) = false
       ∧ Int_eqb (Int_of_int (-3)) (Int_of_int 5) = false
       ∧ Int_gt (Int_of_int (-3)) (Int_of_int 5) = true).
Proof.
  assert (wf (Int_of_int (-3))) as Ha by closed_wf.
  assert (wf (Int_of_int 5)) as Hb by closed_wf.
  assert (wf (Int_of_int 12)) as Hc by closed_wf.
  split; [exact Ha|]. split; [exact Hb|]. split; [exact Hc|].
  exact (lt_total_order _ _ _ Ha Hb Hc).
Defined.

Lemma add_denotes_sum_witness :
  wf (Int_of_int 995) ∧ wf (Int_of_int 7)
  ∧ wf (Int_add (Int_of_int 995) (Int_of_int 7))
  ∧ value (Int_add (Int_of_int 995) (Int_of_int 7))
    = value (Int_of_int 995) + value (Int_of_int 7).
Proof.
  assert (wf (Int_of_int 995)) as Ha by closed_wf.
  assert (wf (Int_of_int 7)) as Hb by closed_wf.
  split; [exact Ha|]. split; [exact Hb|].
  exact (add_denotes_sum _ _ Ha Hb).
Defined.

Lemma sub_denotes_difference_witness :
  wf (Int_of_int 1000) ∧ wf (Int_of_int 1)
  ∧ wf (Int_sub (Int_of_int 1000) (Int_of_int 1))
  ∧ value (Int_sub (Int_of_int 1000) (Int_of_int 1))
    = value (Int_of_int 1000) - value (Int_of_int 1)
  ∧ Int_sub (Int_of_int 1000) (Int_of_int 1)
    = Int_add (Int_of_int 1000) (Int_neg (Int_of_int 1))
  ∧ Int_sub (Int_of_int 1000) (Int_of_int 1000) = Int_zero.
Proof.
  assert (wf (Int_of_int 1000)) as Ha by closed_wf.
  assert (wf (Int_of_int 1)) as Hb by closed_wf.
  split; [exact Ha|]. split; [exact Hb|].
  exact (sub_denotes_difference _ _ Ha Hb).
Defined.

Lemma mul_denotes_product_witness :
  wf (Int_of_int (-99)) ∧ wf (Int_of_int 99)
  ∧ wf (Int_mul (Int_of_int (-99)) (Int_of_int 99))
  ∧ value (Int_mul (Int_of_int (-99)) (Int_of_int 99))
    = value (Int_of_int (-99)) * value (Int_of_int 99).
Proof.
  assert (wf (Int_of_int (-99))) as Ha by closed_wf.
  assert (wf (Int_of_int 99)) as Hb by closed_wf.
  split; [exact Ha|]. split; [exact Hb|].
  exact (mul_denotes_product _ _ Ha Hb).
Defined.

Lemma add_group_laws_witness :
  wf (Int_of_int 17) ∧ wf (Int_of_int (-250)) ∧ wf (Int_of_int 3)
  ∧ Int_add (Int_of_int 17) (Int_of_int (-250))
    = Int_add (Int_of_int (-250)) (Int_of_int 17)
  ∧ Int_add (Int_add (Int_of_int 17) (Int_of_int (-250))) (Int_of_int 3)
    = Int_add (Int_of_int 17) (Int_add (Int_of_int (-250)) (Int_of_int 3))
  ∧ Int_add (Int_of_int 17) Int_zero = Int_of_int 17
  ∧ Int_add (Int_of_int 17) (Int_neg (Int_of_int 17)) = Int_zero.
Proof.
  assert (wf (Int_of_int 17)) as Ha by closed_wf.
  assert (wf (Int_of_int (-250))) as Hb by closed_wf.
  assert (wf (Int_of_int 3)) as Hc by closed_wf.
  split; [exact Ha|]. split; [exact Hb|]. split; [exact Hc|].
  exact (add_group_laws _ _ _ Ha Hb Hc).
Defined.

Lemma mul_ring_laws_witness :
  wf (Int_of_int 17) ∧ wf (Int_of_int (-250)) ∧ wf (Int_of_int 3)
  ∧ Int_mul (Int_of_int 17) (Int_of_int (-250))
    = Int_mul (Int_of_int (-250)) (Int_of_int 17)
  ∧ Int_mul (Int_mul (Int_of_int 17) (Int_of_int (-250))) (Int_of_int 3)
    = Int_mul (Int_of_int 17) (Int_mul (Int_of_int (-250)) (Int_of_int 3))
  ∧ Int_mul (Int_of_int 17) (Int_of_int 1) = Int_of_int 17
  ∧ Int_mul (Int_of_int 17) Int_zero = Int_zero
  ∧ Int_mul (Int_of_int 17) (Int_add (Int_of_int (-250)) (Int_of_int 3))
    = Int_add (Int_mul (Int_of_int 17) (Int_of_int (-250)))
              (Int_mul (Int_of_int 17) (Int_of_int 3)).
Proof.
  assert (wf (Int_of_int 17)) as Ha by closed_wf.
  assert (wf (Int_of_int (-250))) as Hb by closed_wf.
  assert (wf (Int_of_int 3)) as Hc by closed_wf.
  split; [exact Ha|]. split; [exact Hb|]. split; [exact Hc|].
  exact (mul_ring_laws _ _ _ Ha Hb Hc).
Defined.

Lemma neg_abs_laws_witness :
  wf (Int_of_int (-42))
  ∧ wf (Int_neg (Int_of_int (-42)))
  ∧ value (Int_neg (Int_of_int (-42))) = - value (Int_of_int (-42))
  ∧ Int_neg (Int_neg (Int_of_int (-42))) = Int_of_int (-42)
  ∧ wf (Int_abs (Int_of_int (-42)))
  ∧ value (Int_abs (Int_of_int (-42))) = Z.abs (value (Int_of_int (-42)))
  ∧ is_negative (Int_abs (Int_of_int (-42))) = false
  ∧ Int_abs (Int_abs (Int_of_int (-42))) = Int_abs (Int_of_int (-42))
  ∧ digits_ (Int_neg (Int_of_int (-42))) = digits_ (Int_of_int (-42))
  ∧ digits_ (Int_abs (Int_of_int (-42))) = digits_ (Int_of_int (-42)).
Proof.
  assert (wf (Int_of_int (-42))) as Ha by closed_wf.
  split; [exact Ha|].
  exact (neg_abs_laws _ Ha).
Defined.

Lemma inc_dec_inverse_witness :
  wf (Int_of_int (-1))
  ∧ Int_dec (Int_inc (Int_of_int (-1))) = Int_of_int (-1)
  ∧ Int_inc (Int_dec (Int_of_int (-1))) = Int_of_int (-1)
  ∧ value (Int_inc (Int_of_int (-1))) = value (Int_of_int (-1)) + 1
  ∧ value (Int_dec (Int_of_int (-1))) = value (Int_of_int (-1)) - 1.
Proof.
  assert (wf (Int_of_int (-1))) as Ha by closed_wf.
  split; [exact Ha|].
  exact (inc_dec_inverse _ Ha).
Defined.

Lemma div_mod_edges_witness :
  wf (Int_of_int (-100)) ∧ wf (Int_of_int 7) ∧ (9 ≤ 9)%nat
  ∧ (Int_div 9 (Int_of_int (-100)) (Int_of_int 7) = Throw DivideByZero
     ↔ is_zero (Int_of_int 7) = true)
  ∧ (Int_mod 9 (Int_of_int (-100)) (Int_of_int 7) = Throw DivideByZero
     ↔ is_zero (Int_of_int 7) = true)
  ∧ (is_zero (Int_of_int 7) = false →
     (digits (Int_of_int (-100)) < digits (Int_of_int 7))%nat →
     Int_div 9 (Int_of_int (-100)) (Int_of_int 7) = Ok Int_zero
     ∧ Int_mod 9 (Int_of_int (-100)) (Int_of_int 7) = Ok (Int_of_int (-100)))
  ∧ (is_zero (Int_of_int 7) = false →
     ∃ q r, Int_div 9 (Int_of_int (-100)) (Int_of_int 7) = Ok q
            ∧ Int_mod 9 (Int_of_int (-100)) (Int_of_int 7) = Ok r
            ∧ value q = value (Int_of_int (-100)) `quot` value (Int_of_int 7)
            ∧ value r = value (Int_of_int (-100)) `rem` value (Int_of_int 7)).
Proof.
  assert (wf (Int_of_int (-100))) as Ha by closed_wf.
  assert (wf (Int_of_int 7)) as Hb by closed_wf.
  split; [exact Ha|]. split; [exact Hb|]. split; [apply le_n|].
  exact (div_mod_edges 9 _ _ Ha Hb (le_n 9)).
Defined.

Lemma parity_of_lowest_digit_witness :
  wf (Int_of_int (-37))
  ∧ is_even (Int_of_int (-37)) = Z.even (value (Int_of_int (-37)))
  ∧ is_odd (Int_of_int (-37)) = Z.odd (value (Int_of_int (-37)))
  ∧ is_odd (Int_of_int (-37)) = negb (is_even (Int_of_int (-37))).
Proof.
  assert (wf (Int_of_int (-37))) as Ha by closed_wf.
  split; [exact Ha|].
  exact (parity_of_lowest_digit _ Ha).
Defined.

Lemma int_round_trip_witness :
  INT_MIN < -42 ≤ INT_MAX ∧ wf (Int_of_int 1000)
  ∧ Z.abs (value (Int_of_int 1000)) ≤ INT_MAX
  ∧ wf (Int_of_int (-42)) ∧ value (Int_of_int (-42)) = -42
  ∧ to_integer (Int_of_int (-42)) = -42
  ∧ to_integer (Int_of_int 1000) = value (Int_of_int 1000)
  ∧ Int_of_int (to_integer (Int_of_int 1000)) = Int_of_int 1000.
Proof.
  assert (INT_MIN < -42 ≤ INT_MAX) as Hz by (split; by vm_compute).
  assert (wf (Int_of_int 1000)) as Ha by closed_wf.
  assert (Z.abs (value (Int_of_int 1000)) ≤ INT_MAX) as Hm by (by vm_compute).
  split; [exact Hz|]. split; [exact Ha|]. split; [exact Hm|].
  exact (int_round_trip _ _ Hz Ha Hm).
Defined.

(** [5! = 120], in five rounds. *)
Lemma factorial_returns_product_witness :
  wf (Int_of_int 5) ∧ value (Int_of_int 5) ≤ Z.of_nat 5
  ∧ if bool_decide (value (Int_of_int 5) < 0)
    then Int_factorial 5 (Int_of_int 5) = Throw DomainError
    else ∃ r, Int_factorial 5 (Int_of_int 5) = Ok r ∧ wf r
              ∧ value r = Z.of_nat (fact (Z.to_nat (value (Int_of_int 5)))).
Proof.
  assert (wf (Int_of_int 5)) as Ha by closed_wf.
  assert (value (Int_of_int 5) ≤ Z.of_nat 5) as Hf by (by vm_compute).
  split; [exact Ha|]. split; [exact Hf|].
  exact (factorial_returns_product 5 _ Ha Hf).
Defined.

Lemma random_shape_witness :
  (∀ i : nat, digit ((λ _, 0) i)) ∧ 1 ≤ 5 ≤ 9
  ∧ if 3 <? -1
    then Int_random 3 4 (λ _, 0) 5 = Throw InvalidArgument
    else ∃ x, Int_random 3 4 (λ _, 0) 5 = Ok x ∧ wf x
              ∧ length (digits_ x) = (if 3 =? -1 then 4%nat else Z.to_nat 3)
              ∧ 0 ≤ value x
              ∧ (value x = 0 ↔ length (digits_ x) = 0%nat).
Proof.
  assert (∀ i : nat, digit ((λ _, 0) i)) as Hd by (intros _; unfold digit; lia).
  assert (1 ≤ 5 ≤ 9) as Hm by lia.
  split; [exact Hd|]. split; [exact Hm|].
  exact (random_shape 3 4 _ 5 Hd Hm).
Defined.

(** [gcd(-4, 6)] has magnitude 2 and [lcm(-4, 6)] magnitude 12. *)
Lemma gcd_lcm_magnitude_witness :
  wf (Int_of_int (-4)) ∧ wf (Int_of_int 6) ∧ (9 ≤ 9)%nat
  ∧ Z.abs (value (Int_of_int 6)) < Z.of_nat 9
  ∧ ∃ g l,
      Int_gcd 9 (Int_of_int (-4)) (Int_of_int 6) = Ok g ∧ wf g
      ∧ Z.abs (value g) = Z.gcd (value (Int_of_int (-4))) (value (Int_of_int 6))
      ∧ Int_lcm 9 (Int_of_int (-4)) (Int_of_int 6) = Ok l ∧ wf l
      ∧ Z.abs (value l) = Z.lcm (value (Int_of_int (-4))) (value (Int_of_int 6)).
Proof.
  assert (wf (Int_of_int (-4))) as Ha by closed_wf.
  assert (wf (Int_of_int 6)) as Hb by closed_wf.
  assert (Z.abs (value (Int_of_int 6)) < Z.of_nat 9) as Hn by (by vm_compute).
  split; [exact Ha|]. split; [exact Hb|]. split; [apply le_n|]. split; [exact Hn|].
  exact (gcd_lcm_magnitude 9 _ _ Ha Hb (le_n 9) Hn).
Defined.

(** [3 ^ 5 = 243], and 243 leaves 5 modulo 7. *)
Lemma pow_nonneg_exp_witness :
  wf (Int_of_int 3) ∧ wf (Int_of_int 5) ∧ wf (Int_of_int 7)
  ∧ 0 ≤ value (Int_of_int 5) ∧ (9 ≤ 9)%nat
  ∧ value (Int_of_int 5) < 2 ^ Z.of_nat 9
  ∧ ∃ r, Int_pow 9 (Int_of_int 3) (Int_of_int 5) (Int_of_int 7) = Ok r ∧ wf r
         ∧ value r =
             if bool_decide (value (Int_of_int 7) = 0)
                || bool_decide (Z.abs (value (Int_of_int 3)) = 1)
                || bool_decide (value (Int_of_int 5) = 0)
             then value (Int_of_int 3) ^ value (Int_of_int 5)
             else (value (Int_of_int 3) ^ value (Int_of_int 5))
                  `rem` value (Int_of_int 7).
Proof.
  assert (wf (Int_of_int 3)) as Hb by closed_wf.
  assert (wf (Int_of_int 5)) as He by closed_wf.
  assert (wf (Int_of_int 7)) as Hm by closed_wf.
  assert (0 ≤ value (Int_of_int 5)) as Hp by (by vm_compute).
  assert (value (Int_of_int 5) < 2 ^ Z.of_nat 9) as Hk by (by vm_compute).
  split; [exact Hb|]. split; [exact He|]. split; [exact Hm|].
  split; [exact Hp|]. split; [apply le_n|]. split; [exact Hk|].
  exact (pow_nonneg_exp 9 _ _ _ Hb He Hm Hp (le_n 9) Hk).
Defined.

(** [2 ^ 9 ≤ 1000 < 2 ^ 10]. *)
Lemma log_returns_floor_witness :
  wf (Int_of_int 1000) ∧ wf (Int_of_int 2) ∧ (9 ≤ 10)%nat
  ∧ value (Int_of_int 1000) < 2 ^ Z.of_nat 10
  ∧ Z.of_nat (digits (Int_of_int 1000)) ≤ INT_MAX
  ∧ if bool_decide (0 < value (Int_of_int 1000) ∧ 2 ≤ value (Int_of_int 2))
    then ∃ r, Int_log 10 (Int_of_int 1000) (Int_of_int 2) = Ok r ∧ wf r
              ∧ 0 ≤ value r
              ∧ value (Int_of_int 2) ^ value r ≤ value (Int_of_int 1000)
                < value (Int_of_int 2) ^ (value r + 1)
    else Int_log 10 (Int_of_int 1000) (Int_of_int 2) = Throw DomainError.
Proof.
  assert (wf (Int_of_int 1000)) as Hn by closed_wf.
  assert (wf (Int_of_int 2)) as Hb by closed_wf.
  assert (9 ≤ 10)%nat as Hf by lia.
  assert (value (Int_of_int 1000) < 2 ^ Z.of_nat 10) as Hk by (by vm_compute).
  assert (Z.of_nat (digits (Int_of_int 1000)) ≤ INT_MAX) as Hd by (by vm_compute).
  split; [exact Hn|]. split; [exact Hb|]. split; [exact Hf|].
  split; [exact Hk|]. split; [exact Hd|].
  exact (log_returns_floor 10 _ _ Hn Hb Hf Hk Hd).
Defined.

(** The root of 30 is 5. *)
Lemma sqrt_returns_root_witness :
  wf (Int_of_int 30) ∧ value (Int_of_int 30) < Z.of_nat 31
  ∧ (value (Int_of_int 30) < 16
     ∨ value (Int_of_int 30) + 1 ≠ (Z.sqrt (value (Int_of_int 30)) + 1) ^ 2)
  ∧ if bool_decide (value (Int_of_int 30) < 0)
    then Int_sqrt 31 (Int_of_int 30) = Throw DomainError
    else ∃ r, Int_sqrt 31 (Int_of_int 30) = Ok r ∧ wf r
              ∧ value r = Z.sqrt (value (Int_of_int 30)).
Proof.
  assert (wf (Int_of_int 30)) as Hn by closed_wf.
  assert (value (Int_of_int 30) < Z.of_nat 31) as Hf by (by vm_compute).
  assert (value (Int_of_int 30) < 16
          ∨ value (Int_of_int 30) + 1 ≠ (Z.sqrt (value (Int_of_int 30)) + 1) ^ 2)
    as Hsq by (right; by vm_compute).
  split; [exact Hn|]. split; [exact Hf|]. split; [exact Hsq|].
  exact (sqrt_returns_root 31 _ Hn Hf Hsq).
Defined.

(** 35 is one less than 36: the loop cycles between 5 and 6. *)
Lemma sqrt_never_returns_witness :
  wf (Int_of_int 35) ∧ 16 ≤ value (Int_of_int 35)
  ∧ value (Int_of_int 35) + 1 = (Z.sqrt (value (Int_of_int 35)) + 1) ^ 2
  ∧ Int_sqrt 1000 (Int_of_int 35) = OutOfFuel.
Proof.
  assert (wf (Int_of_int 35)) as Hn by closed_wf.
  assert (16 ≤ value (Int_of_int 35)) as Hb by (by vm_compute).
  assert (value (Int_of_int 35) + 1 = (Z.sqrt (value (Int_of_int 35)) + 1) ^ 2)
    as Hsq by (by vm_compute).
  split; [exact Hn|]. split; [exact Hb|]. split; [exact Hsq|].
  exact (sqrt_never_returns 1000 _ Hn Hb Hsq).
Defined.

(** The prime after 2 is 3. *)
Lemma next_prime_returns_least_witness :
  wf (Int_of_int 2) ∧ Z.prime 3 ∧ value (Int_of_int 2) < 3
  ∧ (∀ p, Z.prime p → ¬ (value (Int_of_int 2) < p < 3))
  ∧ 3 < 46340 * 46340
  ∧ (9 ≤ 9)%nat ∧ Z.sqrt 3 < Z.of_nat 9 ∧ 3 - value (Int_of_int 2) ≤ Z.of_nat 9
  ∧ ∃ r, Int_next_prime 9 (Int_of_int 2) = Ok r ∧ wf r ∧ value r = 3.
Proof.
  assert (wf (Int_of_int 2)) as Ha by closed_wf.
  assert (value (Int_of_int 2) < 3) as Hlt by (by vm_compute).
  assert (∀ p, Z.prime p → ¬ (value (Int_of_int 2) < p < 3)) as Hleast
    by (intros p _; change (value (Int_of_int 2)) with 2; lia).
  assert (3 < 46340 * 46340) as Hq by (by vm_compute).
  assert (Z.sqrt 3 < Z.of_nat 9) as Hs by (by vm_compute).
  assert (3 - value (Int_of_int 2) ≤ Z.of_nat 9) as Hg by (by vm_compute).
  split; [exact Ha|]. split; [exact Z.prime_3|]. split; [exact Hlt|].
  split; [exact Hleast|]. split; [exact Hq|]. split; [apply le_n|].
  split; [exact Hs|]. split; [exact Hg|].
  exact (next_prime_returns_least 9 _ 3 Ha Z.prime_3 Hlt Hleast Hq (le_n 9) Hs Hg).
Defined.

Lemma sign_tests_and_digits_witness :
  wf (Int_of_int (-1234))
  ∧ is_zero (Int_of_int (-1234)) = bool_decide (value (Int_of_int (-1234)) = 0)
  ∧ is_positive (Int_of_int (-1234))
    = bool_decide (0 < value (Int_of_int (-1234)))
  ∧ is_negative (Int_of_int (-1234))
    = bool_decide (value (Int_of_int (-1234)) < 0)
  ∧ (digits (Int_of_int (-1234)) = 0%nat ↔ value (Int_of_int (-1234)) = 0)
  ∧ (value (Int_of_int (-1234)) ≠ 0 →
     pow10 (digits (Int_of_int (-1234)) - 1)
     ≤ Z.abs (value (Int_of_int (-1234)))
     < pow10 (digits (Int_of_int (-1234)))).
Proof.
  assert (wf (Int_of_int (-1234))) as Ha by closed_wf.
  split; [exact Ha|].
  exact (sign_tests_and_digits _ Ha).
Defined.
